(** * The matching engine of [SyncCopyAndMoveFeeder]

    A shallow embedding of
    [python/thunder/streaming/feeder/grouping_stream_feeder.py]: the
    per-stream queues, the filename index, the mismatch tracker with its
    eviction loop, the size filter and the sequence check, together with
    the properties of [match_filenames] that the design document states.

    Conventions.
    - Timepoint keys, queue names and filenames are Python 2 [str] values,
      compared byte-wise; they are [string] here, ordered by
      [String.compare].
    - [None] is [None] of [option]; Python 2 orders [None] below every
      string, which is what [reduce(min, first_elts)] relies on.
    - [self.qname_to_queue] is a [dict] that the code iterates over; it is an
      association list whose order stands for the iteration order of the
      dict (stable, since no key is added after construction).
    - [self.keys_to_fullnames] and [self.qname_to_expected_size] are only
      looked up, set and popped; they are [gmap]s.
    - [time.time()] is read at most once per [match_filenames] call (only in
      the branch that ends the matching loop), so the clock is a parameter
      [now] of the call; times are Python [float]s, that is IEEE 754
      doubles: the kernel's [float], with its subtraction and comparison.
    - methods mutate [self] and may raise: they are computations in a small
      state, log and exception monad [M]. *)

From Stdlib Require Import ZArith PrimFloat Ascii String.
From stdpp Require Import base option list strings gmap sorting.

Local Open Scope list_scope.

(** ** Strings as Python compares them *)

Definition str_lt (a b : string) : Prop := String.ltb a b = true.

Global Instance str_lt_dec : RelDecision str_lt.
Proof. intros a b. unfold str_lt. apply _. Defined.

(** [a < b] on values that may be [None] (Python 2: [None] sorts first). *)
Definition opt_ltb (a b : option string) : bool :=
  match a, b with
  | None, None => false
  | None, Some _ => true
  | Some _, None => false
  | Some x, Some y => String.ltb x y
  end.

(** The builtin [min(a, b)]: the first of the two unless the second is
    strictly smaller. *)
Definition py_min (a b : option string) : option string :=
  if opt_ltb b a then b else a.

(** [reduce(f, l)] without initial value; [None] is the [TypeError] that
    Python raises on an empty sequence. *)
Definition reduce {A} (f : A → A → A) (l : list A) : option A :=
  match l with
  | [] => None
  | x :: l' => Some (fold_left f l' x)
  end.

(** [l.remove(x)]: drops the first occurrence; [None] is the [ValueError]
    raised when [x] does not occur. *)
Fixpoint list_remove_first {A} `{EqDecision A} (x : A) (l : list A)
  : option (list A) :=
  match l with
  | [] => None
  | y :: l' =>
      if decide (y = x) then Some l'
      else (y ::.) <$> list_remove_first x l'
  end.

(** ** Module-level helpers of the source *)

(** [pairwise(iterable)]: [izip] of the sequence with itself shifted by one. *)
Definition pairwise {A} (l : list A) : list (A * A) := zip l (tail l).

(** [is_sorted]: strict ordering of neighbours, false on duplicates. *)
Definition is_sorted (l : list string) : bool :=
  forallb (λ ab, String.ltb ab.1 ab.2) (pairwise l).

(** [unique_justseen]: the first element of every run of equal elements. *)
Fixpoint unique_from (seen : string) (l : list string) : list string :=
  match l with
  | [] => []
  | y :: l' =>
      if decide (y = seen) then unique_from seen l'
      else y :: unique_from y l'
  end.

Definition unique_justseen (l : list string) : list string :=
  match l with
  | [] => []
  | x :: l' => x :: unique_from x l'
  end.

(** The builtin [sorted] on a list of [str]. *)
Definition sorted (l : list string) : list string := merge_sort String.le l.

(** *** [os.path] on POSIX names *)

(** [s.rpartition(c)] for a one-character [c], without the separator;
    [None] when [c] does not occur. *)
Fixpoint rpartition (c : ascii) (s : string) : option (string * string) :=
  match s with
  | EmptyString => None
  | String a s' =>
      match rpartition c s' with
      | Some (l, r) => Some (String a l, r)
      | None => if Ascii.eqb a c then Some (EmptyString, s') else None
      end
  end.

(** [s.partition(c)], likewise. *)
Fixpoint partition_first (c : ascii) (s : string) : option (string * string) :=
  match s with
  | EmptyString => None
  | String a s' =>
      if Ascii.eqb a c then Some (EmptyString, s')
      else match partition_first c s' with
           | Some (l, r) => Some (String a l, r)
           | None => None
           end
  end.

Definition basename (p : string) : string :=
  match rpartition "/"%char p with
  | Some (_, r) => r
  | None => p
  end.

Fixpoint all_dots (s : string) : bool :=
  match s with
  | EmptyString => true
  | String a s' => Ascii.eqb a "."%char && all_dots s'
  end.

(** [os.path.splitext(p)[0]]: the last dot starts the extension when it
    comes after the last slash and after a character of the file name
    that is not a dot. *)
Definition splitext_root (p : string) : string :=
  match rpartition "."%char p with
  | Some (l, r) =>
      match rpartition "/"%char r with
      | Some _ => p
      | None => if all_dots (basename l) then p else l
      end
  | None => p
  end.

Definition getFilenamePrefixAndPostfix (filename : string) (delim : ascii)
  : string * string :=
  let bname := splitext_root (basename filename) in
  match partition_first delim bname with
  | Some (prefix, postfix) => (prefix, postfix)
  | None => (bname, "")
  end.

(** The default extractors never answer [None]. *)
Definition getFilenamePrefix (filename : string) : option string :=
  Some (getFilenamePrefixAndPostfix filename "_"%char).1.

Definition getFilenamePostfix (filename : string) : option string :=
  Some (getFilenamePrefixAndPostfix filename "_"%char).2.

(** ** The feeder object *)

(** Exceptions that can leave [match_filenames]. *)
Inductive exn : Type :=
  | KeyError_queue (qname : string)
  | KeyError_fullname (key : string * string)
  | IndexError
  | TypeError
  | AttributeError
  | ValueError_remove
  | ValueError_int (timepoint_string : string)
  | OSError_getsize (filename : string)
  | MismatchException (cur_mismatch last_mismatch : string).

(** Warnings sent to the logger. *)
Inductive warning : Type :=
  | WarnNoQueueName (filename : string)
  | WarnNoTimepoint (filename : string)
  | WarnDiscard (discard qname : string)
  | WarnSizeMismatch (filename : string) (timepoint : option string)
      (expected_size size : Z)
  | WarnMissingTimepoints (last_timepoint cur_timepoint : Z).

(** The attributes set by [__init__]; [qname_to_expected_size] is [None]
    when the size check is off. *)
Record Feeder : Type := mkFeeder {
  qname_to_queue : list (string * list string);
  keys_to_fullnames : gmap (string * string) string;
  fname_to_qname_fcn : string → option string;
  fname_to_timepoint_fcn : string → option string;
  qname_to_expected_size : option (gmap (option string) Z);
  do_check_sequence : bool;
  last_timepoint : option Z;
  last_mismatch : option string;
  last_mismatch_time : option float;
  mismatch_wait_time : float
}.

Definition set_qname_to_queue (qs : list (string * list string)) (s : Feeder)
  : Feeder :=
  mkFeeder qs (keys_to_fullnames s) (fname_to_qname_fcn s)
    (fname_to_timepoint_fcn s) (qname_to_expected_size s)
    (do_check_sequence s) (last_timepoint s) (last_mismatch s)
    (last_mismatch_time s) (mismatch_wait_time s).

Definition set_keys_to_fullnames (ix : gmap (string * string) string)
    (s : Feeder) : Feeder :=
  mkFeeder (qname_to_queue s) ix (fname_to_qname_fcn s)
    (fname_to_timepoint_fcn s) (qname_to_expected_size s)
    (do_check_sequence s) (last_timepoint s) (last_mismatch s)
    (last_mismatch_time s) (mismatch_wait_time s).

Definition set_qname_to_expected_size (t : option (gmap (option string) Z))
    (s : Feeder) : Feeder :=
  mkFeeder (qname_to_queue s) (keys_to_fullnames s) (fname_to_qname_fcn s)
    (fname_to_timepoint_fcn s) t
    (do_check_sequence s) (last_timepoint s) (last_mismatch s)
    (last_mismatch_time s) (mismatch_wait_time s).

Definition set_last_timepoint (t : option Z) (s : Feeder) : Feeder :=
  mkFeeder (qname_to_queue s) (keys_to_fullnames s) (fname_to_qname_fcn s)
    (fname_to_timepoint_fcn s) (qname_to_expected_size s)
    (do_check_sequence s) t (last_mismatch s)
    (last_mismatch_time s) (mismatch_wait_time s).

(** [self.last_mismatch] and [self.last_mismatch_time] are always assigned
    together. *)
Definition set_mismatch (m : option string) (t : option float) (s : Feeder)
  : Feeder :=
  mkFeeder (qname_to_queue s) (keys_to_fullnames s) (fname_to_qname_fcn s)
    (fname_to_timepoint_fcn s) (qname_to_expected_size s)
    (do_check_sequence s) (last_timepoint s) m t (mismatch_wait_time s).

Definition set_mismatch_wait_time (w : float) (s : Feeder) : Feeder :=
  mkFeeder (qname_to_queue s) (keys_to_fullnames s) (fname_to_qname_fcn s)
    (fname_to_timepoint_fcn s) (qname_to_expected_size s)
    (do_check_sequence s) (last_timepoint s) (last_mismatch s)
    (last_mismatch_time s) w.

(** *** The dict of queues *)

Fixpoint alist_lookup {V} (k : string) (l : list (string * V)) : option V :=
  match l with
  | [] => None
  | (k', v) :: l' => if decide (k' = k) then Some v else alist_lookup k l'
  end.

(** [d[k] = v]: overwrites in place, or adds a new key. *)
Fixpoint alist_set {V} (k : string) (v : V) (l : list (string * V))
  : list (string * V) :=
  match l with
  | [] => [(k, v)]
  | (k', v') :: l' =>
      if decide (k' = k) then (k', v) :: l' else (k', v') :: alist_set k v l'
  end.

(** In-place update of the value stored under [k]. *)
Fixpoint alist_alter {V} (f : V → V) (k : string) (l : list (string * V))
  : list (string * V) :=
  match l with
  | [] => []
  | (k', v) :: l' =>
      if decide (k' = k) then (k', f v) :: l' else (k', v) :: alist_alter f k l'
  end.

(** [__init__]: one empty deque per name in [qnames], empty index, the size
    table only when [check_file_size_mismatch], a grace period of 5.0 s. *)
Definition init (qnames : list string)
    (fname_to_qname_fcn fname_to_timepoint_fcn : string → option string)
    (check_file_size_mismatch check_skip_in_sequence : bool) : Feeder :=
  {| qname_to_queue := fold_left (λ d qname, alist_set qname [] d) qnames [];
     keys_to_fullnames := ∅;
     fname_to_qname_fcn := fname_to_qname_fcn;
     fname_to_timepoint_fcn := fname_to_timepoint_fcn;
     qname_to_expected_size :=
       if check_file_size_mismatch then Some ∅ else None;
     do_check_sequence := check_skip_in_sequence;
     last_timepoint := None;
     last_mismatch := None;
     last_mismatch_time := None;
     mismatch_wait_time := 5%float |}.

(** ** State, log and exceptions *)

Inductive outcome (A : Type) : Type :=
  | Return (a : A)
  | Raise (e : exn)
  | OutOfFuel.
Global Arguments Return {A} a.
Global Arguments Raise {A} e.
Global Arguments OutOfFuel {A}.

(** A method call: from the object before to the outcome, the object after
    and the warnings logged on the way. *)
Definition M (A : Type) : Type := Feeder → outcome A * Feeder * list warning.

Definition ret {A} (a : A) : M A := λ s, (Return a, s, []).

Definition bind {A B} (m : M A) (f : A → M B) : M B :=
  λ s,
    match m s with
    | (Return a, s1, w1) =>
        match f a s1 with
        | (r, s2, w2) => (r, s2, w1 ++ w2)
        end
    | (Raise e, s1, w1) => (Raise e, s1, w1)
    | (OutOfFuel, s1, w1) => (OutOfFuel, s1, w1)
    end.

Definition get : M Feeder := λ s, (Return s, s, []).
Definition modify (f : Feeder → Feeder) : M unit := λ s, (Return (), f s, []).
Definition raise {A} (e : exn) : M A := λ s, (Raise e, s, []).
Definition out_of_fuel {A} : M A := λ s, (OutOfFuel, s, []).
Definition warn (w : warning) : M unit := λ s, (Return (), s, [w]).
Definition warn_all (ws : list warning) : M unit := λ s, (Return (), s, ws).

Declare Scope feeder_scope.
Delimit Scope feeder_scope with feeder.
Notation "x '<-' m ';;' k" := (bind m (λ x, k))
  (at level 100, m at next level, right associativity) : feeder_scope.
Notation "m ';;' k" := (bind m (λ _, k))
  (at level 100, right associativity) : feeder_scope.
Local Open Scope feeder_scope.

(** [for x in l: body(x)] *)
Fixpoint for_each {A} (l : list A) (body : A → M unit) : M unit :=
  match l with
  | [] => ret ()
  | x :: l' => body x ;; for_each l' body
  end.

(** ** The mismatch tracker *)

Definition total_len (qs : list (string * list string)) : nat :=
  sum_list (map (λ kq, length kq.2) qs).

(** One round of the [for] loop inside [while popping]: every queue whose
    head is below [next_elt] loses it. The boolean is [popping]. *)
Fixpoint pop_pass (next_elt : option string) (qs : list (string * list string))
  : list (string * list string) * list warning * bool :=
  match qs with
  | [] => ([], [], false)
  | (qname, q) :: rest =>
      match pop_pass next_elt rest with
      | (rest', ws, popping) =>
          match q with
          | discard :: q' =>
              if opt_ltb (Some discard) next_elt
              then ((qname, q') :: rest', WarnDiscard discard qname :: ws, true)
              else ((qname, q) :: rest', ws, popping)
          | [] => ((qname, q) :: rest', ws, popping)
          end
      end
  end.

(** [while popping: ...]; [None] when the fuel runs out. *)
Fixpoint pop_loop (fuel : nat) (next_elt : option string)
    (qs : list (string * list string))
  : option (list (string * list string) * list warning) :=
  match fuel with
  | O => None
  | S fuel' =>
      match pop_pass next_elt qs with
      | (qs', ws, true) =>
          match pop_loop fuel' next_elt qs' with
          | Some (qs'', ws') => Some (qs'', ws ++ ws')
          | None => None
          end
      | (qs', ws, false) => Some (qs', ws)
      end
  end.

(** The key below which eviction pops: the smallest first element once one
    occurrence of [cur_mismatch] is taken out. *)
Definition next_elt_of (cur_mismatch : string) (first_elts : list (option string))
  : outcome (option string) :=
  match list_remove_first (Some cur_mismatch) first_elts with
  | None => Raise ValueError_remove
  | Some next_elts =>
      match reduce py_min next_elts with
      | None => Raise TypeError
      | Some next_elt => Return next_elt
      end
  end.

(** [if self.last_mismatch:] is a truth test: [None] and the empty string
    both fail it. *)
Definition truthy (m : option string) : bool :=
  match m with
  | None => false
  | Some k => negb (String.eqb k "")
  end.

(** [now] is the value of [time.time()]. The test
    [now - self.last_mismatch_time > self.mismatch_wait_time] is the
    subtraction and the comparison of doubles, rounding included. *)
Definition check_and_pop_mismatches (first_elts : list (option string))
    (now : float) : M (option string) :=
  match first_elts with
  | [] => raise IndexError
  | comp_elt :: others =>
      if bool_decide (comp_elt ≠ None)
         && forallb (λ elt, bool_decide (elt = comp_elt)) others
      then
        modify (set_mismatch None None) ;;
        ret comp_elt
      else
        match reduce py_min first_elts with
        | None => raise TypeError
        | Some None =>
            modify (set_mismatch None None) ;;
            ret None
        | Some (Some cur_mismatch) =>
            s <- get ;;
            if truthy (last_mismatch s) then
              if bool_decide (last_mismatch s ≠ Some cur_mismatch) then
                raise (MismatchException cur_mismatch
                         (default "" (last_mismatch s)))
              else
                match last_mismatch_time s with
                | None => raise TypeError
                | Some t =>
                    if PrimFloat.ltb (mismatch_wait_time s)
                         (PrimFloat.sub now t) then
                      match next_elt_of cur_mismatch first_elts with
                      | Return next_elt =>
                          match pop_loop (S (total_len (qname_to_queue s)))
                                  next_elt (qname_to_queue s) with
                          | Some (qs, ws) =>
                              modify (set_qname_to_queue qs) ;;
                              warn_all ws ;;
                              modify (set_mismatch None None) ;;
                              ret None
                          | None => out_of_fuel
                          end
                      | Raise e => raise e
                      | OutOfFuel => out_of_fuel
                      end
                    else ret None
                end
            else
              modify (set_mismatch (Some cur_mismatch) (Some now)) ;;
              ret None
        end
  end.

(** [for queue in ...: queue.popleft()]; the boolean tells whether a
    [popleft] hit an empty deque ([IndexError]), the queues before it
    staying popped. *)
Fixpoint popleft_all (qs : list (string * list string))
  : list (string * list string) * bool :=
  match qs with
  | [] => ([], true)
  | (qname, q) :: rest =>
      match q with
      | [] => (qs, false)
      | _ :: q' =>
          match popleft_all rest with
          | (rest', ok) => ((qname, q') :: rest', ok)
          end
      end
  end.

Definition first_elts_of (qs : list (string * list string))
  : list (option string) :=
  map (λ kq, head kq.2) qs.

Definition get_matching_first_entry (now : float) : M (option string) :=
  s <- get ;;
  matched <- check_and_pop_mismatches (first_elts_of (qname_to_queue s)) now ;;
  match matched with
  | Some _ =>
      s <- get ;;
      match popleft_all (qname_to_queue s) with
      | (qs, ok) =>
          modify (set_qname_to_queue qs) ;;
          if ok then ret matched else raise IndexError
      end
  | None => ret matched
  end.

(** ** Matching *)

(** [for x in l: acc = body(x, acc)] *)
Fixpoint fold_each {A B} (l : list A) (acc : B) (body : A → B → M B) : M B :=
  match l with
  | [] => ret acc
  | x :: l' => acc' <- body x acc ;; fold_each l' acc' body
  end.

(** The body of the insertion loop of [match_filenames]. *)
Definition insert_filename (filename : string) : M unit :=
  s <- get ;;
  match fname_to_qname_fcn s filename with
  | None => warn (WarnNoQueueName filename)
  | Some qname =>
      match fname_to_timepoint_fcn s filename with
      | None => warn (WarnNoTimepoint filename)
      | Some tpname =>
          match alist_lookup qname (qname_to_queue s) with
          | None => raise (KeyError_queue qname)
          | Some _ =>
              modify (λ s,
                set_keys_to_fullnames
                  (<[(qname, tpname) := filename]> (keys_to_fullnames s))
                  (set_qname_to_queue
                     (alist_alter (λ q, q ++ [tpname]) qname (qname_to_queue s))
                     s))
          end
      end
  end.

(** "insert": every filename of the batch, in order. *)
Definition insert_filenames (filenames : list string) : M unit :=
  for_each filenames insert_filename.

(** "maintain sorting and dedup", for one queue. *)
Definition maintain_queue (queue : list string) : list string :=
  if is_sorted queue then queue else unique_justseen (sorted queue).

Definition maintain_sorting : M unit :=
  modify (λ s,
    set_qname_to_queue
      (map (λ kq, (kq.1, maintain_queue kq.2)) (qname_to_queue s)) s).

(** [self.keys_to_fullnames.pop(key)] *)
Definition pop_fullname (key : string * string) : M string :=
  s <- get ;;
  match keys_to_fullnames s !! key with
  | None => raise (KeyError_fullname key)
  | Some filename =>
      modify (set_keys_to_fullnames (delete key (keys_to_fullnames s))) ;;
      ret filename
  end.

(** [list(iproduct(keys, matches))] *)
Definition iproduct (keys matches : list string) : list (string * string) :=
  flat_map (λ qname, map (λ m, (qname, m)) matches) keys.

(** "convert matches back to full filenames": one [pop] per pair of a
    queue name and a matched key. *)
Definition pop_fullnames (matches : list string) : M (list string) :=
  s <- get ;;
  fold_each (iproduct (map fst (qname_to_queue s)) matches) []
    (λ key fullnames, filename <- pop_fullname key ;;
                      ret (fullnames ++ [filename])).

Section Builtins.
(** [os.path.getsize] ([None]: the file cannot be examined, [OSError])
    and [int] on a [str] ([None]: [ValueError]). *)
Variable getsize : string → option Z.
Variable py_int : string → option Z.

Definition check_sequence (timepoint_string : string) : M unit :=
  s <- get ;;
  match py_int timepoint_string with
  | None => raise (ValueError_int timepoint_string)
  | Some cur_timepoint =>
      match last_timepoint s with
      | None => modify (set_last_timepoint (Some cur_timepoint))
      | Some last =>
          (if bool_decide (cur_timepoint ≠ (last + 1)%Z)
           then warn (WarnMissingTimepoints last cur_timepoint)
           else ret ()) ;;
          modify (set_last_timepoint (Some cur_timepoint))
      end
  end.

(** The body of the first loop of [filter_size_mismatch_files];
    [setdefault] stores [size] only when the queue name has no entry. *)
Definition check_size (filename : string)
    (filtered_timepoints : list (option string))
  : M (list (option string)) :=
  s <- get ;;
  match getsize filename with
  | None => raise (OSError_getsize filename)
  | Some size =>
      let bname := basename filename in
      let queuename := fname_to_qname_fcn s bname in
      let timepoint := fname_to_timepoint_fcn s bname in
      match qname_to_expected_size s with
      | None => raise AttributeError
      | Some table =>
          let expected_size := default size (table !! queuename) in
          modify (set_qname_to_expected_size
                    (Some (match table !! queuename with
                           | Some _ => table
                           | None => <[queuename := size]> table
                           end))) ;;
          if bool_decide (size ≠ expected_size) then
            warn (WarnSizeMismatch filename timepoint expected_size size) ;;
            ret (filtered_timepoints ++ [timepoint])
          else ret filtered_timepoints
      end
  end.

Definition filter_size_mismatch_files (filenames : list string)
  : M (list string) :=
  filtered_timepoints <- fold_each filenames [] check_size ;;
  s <- get ;;
  match filtered_timepoints with
  | [] => ret filenames
  | _ :: _ =>
      ret (filter (λ filename,
                     fname_to_timepoint_fcn s (basename filename)
                       ∉ filtered_timepoints)
                  filenames)
  end.

(** The [while matching:] loop; [matching] holds the result of the last
    [get_matching_first_entry], and the test is a truth test. *)
Fixpoint matching_loop (fuel : nat) (dcs : bool) (now : float)
    (matching : option string) (matches : list string) : M (list string) :=
  if truthy matching then
    match fuel, matching with
    | S fuel', Some m =>
        (if dcs then check_sequence m else ret ()) ;;
        matching' <- get_matching_first_entry now ;;
        matching_loop fuel' dcs now matching' (matches ++ [m])
    | _, _ => out_of_fuel
    end
  else ret matches.

(** "check for matching first entries across queues": the matched keys,
    in the order they were matched. The fuel is one more than the number
    of queued keys, which the loop cannot use up
    ([match_filenames_terminates] below). *)
Definition collect_matches (now : float) : M (list string) :=
  s0 <- get ;;
  matching <- get_matching_first_entry now ;;
  s <- get ;;
  matching_loop (S (total_len (qname_to_queue s0)))
    (do_check_sequence s) now matching [].

Definition match_filenames (filenames : list string) (now : float)
  : M (list string) :=
  insert_filenames filenames ;;
  maintain_sorting ;;
  matches <- collect_matches now ;;
  fullnames <- pop_fullnames matches ;;
  let fullnames := sorted fullnames in
  s <- get ;;
  match qname_to_expected_size s with
  | Some _ => filter_size_mismatch_files fullnames
  | None => ret fullnames
  end.

(** The objects that a program can hold: a freshly built feeder, one
    whose grace period was reassigned, and one on which [match_filenames]
    was called, however the call ended. *)
Inductive reachable : Feeder → Prop :=
  | reachable_init qnames fq ft size_check sequence_check :
      reachable (init qnames fq ft size_check sequence_check)
  | reachable_wait wait s :
      reachable s → reachable (set_mismatch_wait_time wait s)
  | reachable_match filenames now s r s' ws :
      reachable s →
      match_filenames filenames now s = (r, s', ws) →
      reachable s'.
End Builtins.

(** ** Concrete surroundings for the documented scenarios *)

Definition digit_value (c : ascii) : option Z :=
  let n := Z.of_N (N_of_ascii c) in
  if bool_decide (48 ≤ n ≤ 57)%Z then Some (n - 48)%Z else None.

Fixpoint int_of_digits_from (acc : Z) (s : string) : option Z :=
  match s with
  | EmptyString => Some acc
  | String c s' =>
      match digit_value c with
      | Some d => int_of_digits_from (10 * acc + d)%Z s'
      | None => None
      end
  end.

(** [int] as far as the scenarios go: the value of a non-empty string of
    decimal digits, and [None] for the empty string and for a string with
    any other character. (Python also takes a sign and white space around
    the digits; no key below has either.) *)
Definition int_of_digits (s : string) : option Z :=
  match s with
  | EmptyString => None
  | _ => int_of_digits_from 0 s
  end.

(** A directory in which every file has the same size. *)
Definition getsize_const (n : Z) (filename : string) : option Z := Some n.

(** The feeder that [main] builds, for the given stream names. *)
Definition default_feeder (qnames : list string) : Feeder :=
  init qnames getFilenamePrefix getFilenamePostfix false true.

Definition run_match (filenames : list string) (now : float) : M (list string) :=
  match_filenames (getsize_const 100) int_of_digits filenames now.

Definition img_behav : Feeder := default_feeder ["img"; "behav"].

(** The streams of the example in the module docstring. *)
Definition foo_bar : Feeder := default_feeder ["foo"; "bar"].

(** Scenario A: both streams deliver the keys 01, 02 and 03. *)
Definition scenarioA_batch : list string :=
  ["img_01"; "img_02"; "img_03"; "behav_01"; "behav_02"; "behav_03"].

(** Scenario B: [behav] never delivers 02. The first call, at time 0,
    releases 01 and starts tracking 02; the second call comes 6 s later. *)
Definition scenarioB_batch : list string :=
  ["img_01"; "img_02"; "img_03"; "behav_01"; "behav_03"].

Definition scenarioB_1 : Feeder := (run_match scenarioB_batch 0 img_behav).1.2.

Definition scenarioB_2 : Feeder := (run_match [] 6 scenarioB_1).1.2.

(** Scenario D: the matched keys go from 01 to 05. *)
Definition scenarioD_batch : list string :=
  ["img_01"; "behav_01"; "img_05"; "behav_05"].

(** A late file: 05 against 06 is being tracked when [img] delivers a file
    whose name has no delimiter, hence the empty key. *)
Definition scenarioE_1 : Feeder :=
  (run_match ["img_06"; "behav_05"] 0 img_behav).1.2.

Definition scenarioE_2 : Feeder := (run_match ["img"] 1 scenarioE_1).1.2.

(** The empty key at the head of [img], found mismatching at time 0. *)
Definition scenarioF : Feeder :=
  (run_match ["img"; "img_02"; "behav_01"] 0 img_behav).1.2.

(** An extractor in the manner of the regex-based one: it answers [None]
    for a file that belongs to no stream. *)
Definition known_prefix (filename : string) : option string :=
  let prefix := (getFilenamePrefixAndPostfix filename "_"%char).1 in
  if bool_decide (prefix ∈ ["img"; "behav"]) then Some prefix else None.

Definition img_behav_known : Feeder :=
  init ["img"; "behav"] known_prefix getFilenamePostfix false true.

(** A feeder with the size check on, and a directory where one file is
    shorter than the others. *)
Definition img_behav_sized : Feeder :=
  init ["img"; "behav"] getFilenamePrefix getFilenamePostfix true true.

Definition getsize_short (filename : string) : option Z :=
  if String.eqb filename "behav_02" then Some 80%Z else Some 100%Z.

(** Three streams, of which [a] and [b] have delivered the key 01 and [c]
    only the key 02. *)
Definition three_streams : Feeder := default_feeder ["a"; "b"; "c"].

Definition shared_head : Feeder :=
  (run_match ["a_01"; "b_01"; "c_02"] 0 three_streams).1.2.

(** ** Predicates on the queues *)

(** [new] is [old] after some keys, all satisfying [P], were popped from
    its left end. *)
Definition shrinks (P : string → Prop) (old new : string * list string)
  : Prop :=
  old.1 = new.1 ∧ ∃ dropped, old.2 = dropped ++ new.2 ∧ Forall P dropped.

Definition queues_shrink (P : string → Prop)
    (old new : list (string * list string)) : Prop :=
  Forall2 (shrinks P) old new.

(** Every queue passes the test of [is_sorted]. *)
Definition all_sorted (qs : list (string * list string)) : Prop :=
  Forall (λ kq, Sorted str_lt kq.2) qs.

(** Every queued key has its filename on record. *)
Definition index_covers (s : Feeder) : Prop :=
  ∀ qname queue tpname,
    (qname, queue) ∈ qname_to_queue s → tpname ∈ queue →
    is_Some (keys_to_fullnames s !! (qname, tpname)).

(** All the keys in [ms] are below every queued key. *)
Definition all_above (ms : list string) (qs : list (string * list string))
  : Prop :=
  ∀ m kq x, m ∈ ms → kq ∈ qs → x ∈ kq.2 → str_lt m x.

(** While a key is tracked every queue has a head, and a tracked empty key
    is the head of some queue. *)
Definition tracked_at_heads (s : Feeder) : Prop :=
  ∀ k, last_mismatch s = Some k →
    Forall (λ kq, kq.2 ≠ []) (qname_to_queue s)
    ∧ (k = "" → Exists (λ kq, head kq.2 = Some "") (qname_to_queue s)).

(** The heads of the queues that have one. *)
Definition heads_of_nonempty (qs : list (string * list string))
  : list (option string) :=
  filter (λ elt, elt ≠ None) (map (λ kq, head kq.2) qs).

(** [d] passes the test [q[0] < next_elt] of the eviction loop. *)
Definition below (next_elt : option string) (d : string) : Prop :=
  opt_ltb (Some d) next_elt = true.

(** [w] reports the discarding of a key that passes that test. *)
Definition discards_below (next_elt : option string) (w : warning) : Prop :=
  ∃ discard qname, w = WarnDiscard discard qname ∧ below next_elt discard.

(** The [next_elt] that [check_and_pop_mismatches] computes from the first
    elements when it evicts: the smallest of them once one occurrence of
    the smallest is taken out. *)
Definition next_key_of (first_elts : list (option string)) : option string :=
  match reduce py_min first_elts with
  | Some (Some cur_mismatch) =>
      match next_elt_of cur_mismatch first_elts with
      | Return next_elt => next_elt
      | _ => None
      end
  | _ => None
  end.

(** [d] is strictly below that key. *)
Definition below_next_key (first_elts : list (option string)) (d : string)
  : Prop :=
  ∃ next_key, next_key_of first_elts = Some next_key ∧ str_lt d next_key.

(** The first size observed for a queue name: the one on record in the size
    table, or else the size of the first file of the batch that belongs to
    the queue. *)
Definition first_observed_size (getsize : string → option Z)
    (fname_to_qname_fcn : string → option string)
    (table : gmap (option string) Z) (filenames : list string)
    (queuename : option string) : option Z :=
  match table !! queuename with
  | Some size => Some size
  | None =>
      match list_find
              (λ f, fname_to_qname_fcn (basename f) = queuename) filenames
      with
      | Some (_, f) => getsize f
      | None => None
      end
  end.

(** ** Specifications of method calls *)

(** Whatever way [m] ends when started in a state satisfying [P], the
    outcome and the state after satisfy [Q]. *)
Definition hoare {A} (P : Feeder → Prop) (m : M A)
    (Q : outcome A → Feeder → Prop) : Prop :=
  ∀ s r s' ws, P s → m s = (r, s', ws) → Q r s'.

(** The outcomes that are a return or one of the exceptions in [X]. *)
Definition allowed {A} (X : exn → Prop) (r : outcome A) : Prop :=
  match r with
  | Return _ => True
  | Raise e => X e
  | OutOfFuel => False
  end.

Definition is_KeyError_queue (e : exn) : Prop :=
  ∃ qname, e = KeyError_queue qname.

(** [s'] is [s] up to the queues, the mismatch tracker and the sequence
    cursor: the attributes that the matching loop writes. *)
Definition matching_frame (s s' : Feeder) : Prop :=
  ∃ qs m t tp,
    s' = set_last_timepoint tp (set_mismatch m t (set_qname_to_queue qs s)).

(** [a <= b] on values that may be [None]. *)
Definition opt_le (a b : option string) : Prop := opt_ltb b a = false.

(** ** Further predicates *)

(** [c in s] *)
Fixpoint has_char (c : ascii) (s : string) : bool :=
  match s with
  | EmptyString => false
  | String a s' => Ascii.eqb a c || has_char c s'
  end.

(** No element is followed by an equal one. *)
Definition no_repeats (l : list string) : Prop := Sorted (λ a b, a ≠ b) l.

(** The names of the configured streams, in the order of the dict. *)
Definition qnames_of (s : Feeder) : list string := map fst (qname_to_queue s).

(** A tracked key comes with the time at which it was recorded. *)
Definition tracker_timed (s : Feeder) : Prop :=
  is_Some (last_mismatch s) → is_Some (last_mismatch_time s).

(** The index files every filename under the stream and the key that the
    extractors give for it. *)
Definition index_sound (s : Feeder) : Prop :=
  ∀ qname tpname filename,
    keys_to_fullnames s !! (qname, tpname) = Some filename →
    fname_to_qname_fcn s filename = Some qname
    ∧ fname_to_timepoint_fcn s filename = Some tpname.

(** Every key in [ms] has a filename on record for every stream. *)
Definition released_indexed (ms : list string) (s : Feeder) : Prop :=
  ∀ qname m, qname ∈ qnames_of s → m ∈ ms →
             is_Some (keys_to_fullnames s !! (qname, m)).

(** The exceptions that a call of [match_filenames] on [s] can end with. *)
Definition expected_exn (s : Feeder) (e : exn) : Prop :=
  match e with
  | KeyError_queue qname => qname ∉ qnames_of s
  | MismatchException _ _ => True
  | ValueError_int _ => do_check_sequence s = true
  | OSError_getsize _ => is_Some (qname_to_expected_size s)
  | IndexError => qname_to_queue s = []
  | _ => False
  end.

(** Those of the mismatch check. *)
Definition mismatch_exn (first_elts : list (option string)) (e : exn) : Prop :=
  match e with
  | MismatchException _ _ => True
  | IndexError => first_elts = []
  | _ => False
  end.

(** What holds of every object a program can hold. *)
Definition well_formed (s : Feeder) : Prop :=
  NoDup (qnames_of s)
  ∧ tracker_timed s
  ∧ index_sound s
  ∧ index_covers s
  ∧ tracked_at_heads s.

(** [g] is the file of stream [qname] for the key [m]. *)
Definition file_of (s : Feeder) (qname m g : string) : Prop :=
  fname_to_qname_fcn s g = Some qname ∧ fname_to_timepoint_fcn s g = Some m.

(** The keys of [q] from the first one that is not below [next_elt]: what
    is left of a queue when its head has been popped for as long as it was
    below [next_elt]. *)
Fixpoint drop_below (next_elt : option string) (q : list string)
  : list string :=
  match q with
  | [] => []
  | d :: q' => if opt_ltb (Some d) next_elt then drop_below next_elt q' else q
  end.

Definition drop_all_below (next_elt : option string)
    (qs : list (string * list string)) : list (string * list string) :=
  map (λ kq, (kq.1, drop_below next_elt kq.2)) qs.

(** * Properties *)

(** ** The helpers on examples *)

Example getFilenamePrefixAndPostfix_path :
  getFilenamePrefixAndPostfix "/data/in/img_0001.tif" "_"%char
  = ("img", "0001").
Proof. reflexivity. Qed.

Example getFilenamePrefixAndPostfix_no_delim :
  getFilenamePrefixAndPostfix "behav.bin" "_"%char = ("behav", "").
Proof. reflexivity. Qed.

Example is_sorted_duplicates : is_sorted ["01"; "02"; "02"] = false.
Proof. reflexivity. Qed.

Example maintain_queue_late_arrival :
  maintain_queue ["02"; "03"; "01"; "02"] = ["01"; "02"; "03"].
Proof. vm_compute. reflexivity. Qed.

Example reduce_min_None_first :
  reduce py_min [Some "03"; None; Some "01"] = Some None.
Proof. reflexivity. Qed.

Example next_key_of_two_streams :
  next_key_of [Some "02"; Some "03"] = Some "03".
Proof. reflexivity. Qed.

(** The grace test rounds as Python does. The doubles that the literals
    5.2 and 0.2 denote are [0x1.4cccccccccccdp+2] and
    [0x1.999999999999ap-3]; their difference is 5.0 on doubles, which is
    not above a grace period of 5.0, while 6 - 0 is. *)
Example grace_test_on_doubles :
  PrimFloat.ltb 5 (PrimFloat.sub 0x1.4cccccccccccdp+2 0x1.999999999999ap-3)
  = false
  ∧ PrimFloat.ltb 5 (PrimFloat.sub 6 0) = true.
Proof. split; reflexivity. Qed.

(** ** The order on keys *)

Lemma compare_refl (a : string) : String.compare a a = Eq.
Proof.
  pose proof (String.compare_antisym a a) as H.
  destruct (String.compare a a); simpl in H; congruence.
Qed.

Lemma str_lt_le_ne (a b : string) : str_lt a b ↔ String.le a b ∧ a ≠ b.
Proof.
  unfold str_lt, String.le, String.ltb, String.leb. split.
  - intros H. destruct (String.compare a b) eqn:E; try discriminate.
    split; [done|]. intros ->. rewrite compare_refl in E. discriminate.
  - intros [Hle Hne]. destruct (String.compare a b) eqn:E; try done.
    apply String.compare_eq_iff in E. contradiction.
Qed.

Lemma str_lt_irrefl (a : string) : ¬ str_lt a a.
Proof. rewrite str_lt_le_ne. by intros [_ ?]. Qed.

Global Instance str_lt_trans : Transitive str_lt.
Proof.
  intros a b c. rewrite !str_lt_le_ne. intros [Hab Hnab] [Hbc Hnbc]. split.
  - by etrans.
  - intros ->. apply Hnab. by apply (anti_symm String.le).
Qed.

Lemma str_lt_empty (a : string) : ¬ str_lt a "".
Proof. unfold str_lt, String.ltb. by destruct a. Qed.

Lemma str_le_lt_or_eq (a b : string) : String.le a b → a = b ∨ str_lt a b.
Proof.
  intros H. destruct (decide (a = b)); [by left|right].
  by apply str_lt_le_ne.
Qed.

(** ** Sorting and deduplication *)

Lemma is_sorted_Sorted (l : list string) :
  is_sorted l = true ↔ Sorted str_lt l.
Proof.
  induction l as [|x [|y l] IH]; simpl.
  - split; [intros _; constructor|done].
  - split; [intros _; repeat constructor|done].
  - change (is_sorted (x :: y :: l))
      with (String.ltb x y && is_sorted (y :: l)).
    rewrite andb_true_iff, IH. split.
    + intros [??]. constructor; [done|by constructor].
    + intros H. inversion H as [|?? Hs Hh]; subst.
      inversion Hh; subst. done.
Qed.

Lemma Sorted_str_lt_strongly (l : list string) :
  Sorted str_lt l → StronglySorted str_lt l.
Proof. apply Sorted_StronglySorted, _. Qed.

Lemma StronglySorted_str_lt_NoDup (l : list string) :
  StronglySorted str_lt l → NoDup l.
Proof.
  induction 1 as [|x l Hs IH Hall]; constructor; [|done].
  intros Hin. rewrite Forall_forall in Hall.
  by apply (str_lt_irrefl x), Hall.
Qed.

Lemma unique_from_elem_of (seen x : string) (l : list string) :
  x ∈ seen :: unique_from seen l ↔ x ∈ seen :: l.
Proof.
  revert seen. induction l as [|y l IH]; intros seen; simpl; [done|].
  case_decide as E.
  - rewrite IH, E, !elem_of_cons. tauto.
  - rewrite (elem_of_cons _ x seen), (elem_of_cons (y :: l) x seen), IH.
    done.
Qed.

Lemma unique_justseen_elem_of (x : string) (l : list string) :
  x ∈ unique_justseen l ↔ x ∈ l.
Proof. destruct l; simpl; [done|]. apply unique_from_elem_of. Qed.

Lemma unique_from_Sorted (seen : string) (l : list string) :
  StronglySorted String.le (seen :: l) →
  Sorted str_lt (seen :: unique_from seen l).
Proof.
  revert seen. induction l as [|y l IH]; intros seen Hs; simpl.
  - repeat constructor.
  - apply StronglySorted_cons in Hs as [Hall Hs].
    apply Forall_cons in Hall as [Hy Hall].
    case_decide as E.
    + subst y. apply IH. apply StronglySorted_cons.
      split; [done|]. by apply StronglySorted_cons in Hs as [_ ?].
    + constructor; [by apply IH|]. constructor.
      destruct (str_le_lt_or_eq _ _ Hy); [congruence|done].
Qed.

Lemma unique_justseen_sorted_Sorted (l : list string) :
  Sorted str_lt (unique_justseen (sorted l)).
Proof.
  unfold sorted.
  pose proof (StronglySorted_merge_sort String.le l) as Hs.
  destruct (merge_sort String.le l); simpl; [constructor|].
  by apply unique_from_Sorted.
Qed.

Lemma maintain_queue_Sorted (queue : list string) :
  Sorted str_lt (maintain_queue queue).
Proof.
  unfold maintain_queue. destruct (is_sorted queue) eqn:E.
  - by apply is_sorted_Sorted.
  - apply unique_justseen_sorted_Sorted.
Qed.

Lemma maintain_queue_elem_of (x : string) (queue : list string) :
  x ∈ maintain_queue queue ↔ x ∈ queue.
Proof.
  unfold maintain_queue. destruct (is_sorted queue); [done|].
  rewrite unique_justseen_elem_of. unfold sorted.
  by rewrite merge_sort_Permutation.
Qed.

Lemma Sorted_head_empty (l : list string) :
  Sorted str_lt l → "" ∈ l → head l = Some "".
Proof.
  intros Hs%Sorted_str_lt_strongly Hin.
  destruct Hs as [|x l Hs Hall]; [by apply elem_of_nil in Hin|].
  simpl. apply elem_of_cons in Hin as [->|Hin]; [done|].
  rewrite Forall_forall in Hall. by destruct (str_lt_empty x); apply Hall.
Qed.

(** ** Queues that only lose keys on the left *)

Lemma shrinks_refl (P : string → Prop) (kq : string * list string) :
  shrinks P kq kq.
Proof. split; [done|]. by exists []. Qed.

Lemma queues_shrink_refl (P : string → Prop) (qs : list (string * list string)) :
  queues_shrink P qs qs.
Proof. induction qs; constructor; auto using shrinks_refl. Qed.

Lemma shrinks_trans (P : string → Prop) (a b c : string * list string) :
  shrinks P a b → shrinks P b c → shrinks P a c.
Proof.
  intros [E1 (d1 & H1 & F1)] [E2 (d2 & H2 & F2)]. split; [congruence|].
  exists (d1 ++ d2). rewrite H1, H2, app_assoc. split; [done|].
  by apply Forall_app.
Qed.

Lemma queues_shrink_trans (P : string → Prop)
    (a b c : list (string * list string)) :
  queues_shrink P a b → queues_shrink P b c → queues_shrink P a c.
Proof.
  unfold queues_shrink. intros Hab. revert c.
  induction Hab as [|x y l l' Hxy Hl IH]; intros c Hbc;
    inversion Hbc; subst; constructor; [by eapply shrinks_trans|by apply IH].
Qed.

Lemma queues_shrink_weaken (P Q : string → Prop)
    (a b : list (string * list string)) :
  (∀ x, P x → Q x) → queues_shrink P a b → queues_shrink Q a b.
Proof.
  intros HPQ. induction 1 as [|x y l l' [E (d & H1 & F)]]; constructor; auto.
  split; [done|]. exists d. split; [done|]. eapply Forall_impl; eauto.
Qed.

Lemma queues_shrink_elem_of (P : string → Prop)
    (old new : list (string * list string)) (kq : string * list string) :
  queues_shrink P old new → kq ∈ new →
  ∃ kq', kq' ∈ old ∧ shrinks P kq' kq.
Proof.
  induction 1 as [|x y l l' Hxy Hl IH]; intros Hin.
  - by apply elem_of_nil in Hin.
  - apply elem_of_cons in Hin as [->|Hin].
    + exists x. split; [left|done].
    + destruct (IH Hin) as (kq' & ? & ?). exists kq'. split; [by right|done].
Qed.

Lemma queues_shrink_total_len (P : string → Prop)
    (old new : list (string * list string)) :
  queues_shrink P old new → total_len new ≤ total_len old.
Proof.
  unfold total_len.
  induction 1 as [|x y l l' [E (d & H1 & F)] Hl IH]; simpl; [done|].
  rewrite H1, length_app. lia.
Qed.

Lemma Sorted_str_lt_app_r (l1 l2 : list string) :
  Sorted str_lt (l1 ++ l2) → Sorted str_lt l2.
Proof.
  induction l1 as [|x l1 IH]; simpl; [done|].
  intros H. apply IH. by inversion H.
Qed.

Lemma all_sorted_shrink (P : string → Prop)
    (old new : list (string * list string)) :
  queues_shrink P old new → all_sorted old → all_sorted new.
Proof.
  unfold all_sorted.
  induction 1 as [|x y l l' [E (d & H1 & F)] Hl IH]; intros Hs; [done|].
  apply Forall_cons in Hs as [Hx Hs]. constructor; [|by apply IH].
  rewrite H1 in Hx. by apply Sorted_str_lt_app_r in Hx.
Qed.

Lemma all_above_shrink (P : string → Prop) (ms : list string)
    (old new : list (string * list string)) :
  queues_shrink P old new → all_above ms old → all_above ms new.
Proof.
  intros Hsh Hab m kq x Hm Hkq Hx.
  destruct (queues_shrink_elem_of _ _ _ _ Hsh Hkq)
    as (kq' & Hkq' & _ & d & Hd & _).
  apply (Hab m kq' x); [done..|]. rewrite Hd. apply elem_of_app. by right.
Qed.

(** ** The eviction loop *)

Lemma pop_pass_spec (next_elt : option string)
    (qs qs' : list (string * list string)) (ws : list warning) (popping : bool) :
  pop_pass next_elt qs = (qs', ws, popping) →
  queues_shrink (below next_elt) qs qs'
  ∧ Forall (discards_below next_elt) ws
  ∧ (popping = true → total_len qs' < total_len qs)
  ∧ (popping = false → qs' = qs ∧ ws = []).
Proof.
  revert qs' ws popping.
  induction qs as [|[qname q] rest IH]; intros qs' ws popping; cbn [pop_pass].
  - intros [= <- <- <-]. repeat split; try done. constructor.
  - destruct (pop_pass next_elt rest) as [[rest' ws0] p0].
    destruct (IH _ _ _ eq_refl) as (Hsh & Hws & Hlt & Hsame).
    destruct q as [|discard q'].
    + intros [= <- <- <-]. repeat split.
      * constructor; [apply shrinks_refl|done].
      * done.
      * intros Hp. specialize (Hlt Hp). unfold total_len in *. simpl. lia.
      * destruct (Hsame H) as [-> _]. done.
      * by destruct (Hsame H).
    + destruct (opt_ltb (Some discard) next_elt) eqn:Hb.
      * intros [= <- <- <-]. repeat split; try done.
        -- constructor; [|done]. split; [done|].
           exists [discard]. split; [done|]. by constructor.
        -- constructor; [|done]. by exists discard, qname.
        -- intros _. apply queues_shrink_total_len in Hsh.
           unfold total_len in *. simpl. lia.
      * intros [= <- <- <-]. repeat split.
        -- constructor; [apply shrinks_refl|done].
        -- done.
        -- intros Hp. specialize (Hlt Hp). unfold total_len in *. simpl. lia.
        -- destruct (Hsame H) as [-> _]. done.
        -- by destruct (Hsame H).
Qed.

Lemma pop_loop_spec (fuel : nat) (next_elt : option string)
    (qs qs' : list (string * list string)) (ws : list warning) :
  pop_loop fuel next_elt qs = Some (qs', ws) →
  queues_shrink (below next_elt) qs qs'
  ∧ Forall (discards_below next_elt) ws.
Proof.
  revert qs qs' ws. induction fuel as [|fuel IH]; intros qs qs' ws; simpl;
    [done|].
  destruct (pop_pass next_elt qs) as [[qs1 ws1] popping] eqn:Hpass.
  apply pop_pass_spec in Hpass as (Hsh & Hws & _ & _).
  destruct popping.
  - destruct (pop_loop fuel next_elt qs1) as [[qs2 ws2]|] eqn:Hloop; [|done].
    intros [= <- <-]. apply IH in Hloop as [Hsh2 Hws2]. split.
    + by eapply queues_shrink_trans.
    + by apply Forall_app.
  - by intros [= <- <-].
Qed.

(** The fuel that [check_and_pop_mismatches] hands to the loop suffices. *)
Lemma pop_loop_fuel (fuel : nat) (next_elt : option string)
    (qs : list (string * list string)) :
  total_len qs < fuel → is_Some (pop_loop fuel next_elt qs).
Proof.
  revert qs. induction fuel as [|fuel IH]; intros qs Hlt; simpl; [lia|].
  destruct (pop_pass next_elt qs) as [[qs1 ws1] popping] eqn:Hpass.
  apply pop_pass_spec in Hpass as (_ & _ & Hdec & _).
  destruct popping; [|done].
  destruct (IH qs1) as [[qs2 ws2] ->]; [|done].
  specialize (Hdec eq_refl). lia.
Qed.

(** ** Popping a matched key *)

Lemma popleft_all_spec (qs : list (string * list string)) :
  queues_shrink (λ _, True) qs (popleft_all qs).1.
Proof.
  induction qs as [|[qname q] rest IH]; simpl; [constructor|].
  destruct q as [|x q']; [apply queues_shrink_refl|].
  destruct (popleft_all rest) as [rest' ok]. simpl in *.
  constructor; [|done]. split; [done|]. exists [x]. split; [done|].
  by constructor.
Qed.

Lemma popleft_all_matched (k : string) (qs : list (string * list string)) :
  Forall (λ elt, elt = Some k) (first_elts_of qs) →
  popleft_all qs = (map (λ kq, (kq.1, tail kq.2)) qs, true)
  ∧ Forall (λ kq, kq.2 = k :: tail kq.2) qs.
Proof.
  induction qs as [|[qname q] rest IH]; simpl; [done|].
  intros [Hh Hrest]%Forall_cons. destruct (IH Hrest) as [-> Hall].
  destruct q as [|x q']; simplify_eq/=. split; [done|].
  by constructor.
Qed.

(** ** [min] and [reduce] *)

Lemma ltb_false_le (x y : string) : String.ltb y x = false ↔ String.le x y.
Proof.
  unfold String.le, String.ltb, String.leb.
  rewrite (String.compare_antisym x y).
  destruct (String.compare y x); simpl; split; done.
Qed.

Lemma opt_le_refl (a : option string) : opt_le a a.
Proof.
  destruct a as [x|]; unfold opt_le; simpl; [|done].
  by apply ltb_false_le.
Qed.

Lemma opt_le_trans (a b c : option string) :
  opt_le a b → opt_le b c → opt_le a c.
Proof.
  unfold opt_le. destruct a as [x|], b as [y|], c as [z|]; simpl; try done.
  rewrite !ltb_false_le. apply transitivity.
Qed.

Lemma py_min_le_l (a b : option string) : opt_le (py_min a b) a.
Proof.
  unfold py_min. destruct (opt_ltb b a) eqn:E; [|apply opt_le_refl].
  unfold opt_le. destruct a as [x|], b as [y|]; simpl in *; try done.
  apply ltb_false_le. by apply str_lt_le_ne in E as [??].
Qed.

Lemma py_min_le_r (a b : option string) : opt_le (py_min a b) b.
Proof.
  unfold py_min. destruct (opt_ltb b a) eqn:E; [apply opt_le_refl|done].
Qed.

Lemma py_min_cases (a b : option string) : py_min a b = a ∨ py_min a b = b.
Proof. unfold py_min. destruct (opt_ltb b a); auto. Qed.

Lemma fold_min_le (l : list (option string)) (x : option string) :
  Forall (opt_le (fold_left py_min l x)) (x :: l).
Proof.
  revert x. induction l as [|y l IH]; intros x; simpl.
  - constructor; [apply opt_le_refl|done].
  - specialize (IH (py_min x y)). apply Forall_cons in IH as [H1 H2].
    repeat constructor; [| |done].
    + eapply opt_le_trans; [done|apply py_min_le_l].
    + eapply opt_le_trans; [done|apply py_min_le_r].
Qed.

Lemma fold_min_elem_of (l : list (option string)) (x : option string) :
  fold_left py_min l x ∈ x :: l.
Proof.
  revert x. induction l as [|y l IH]; intros x; simpl; [left|].
  specialize (IH (py_min x y)). apply elem_of_cons in IH as [->|IH].
  - destruct (py_min_cases x y) as [-> | ->]; [left|right; left].
  - by do 2 right.
Qed.

Lemma reduce_min_le (l : list (option string)) (m : option string) :
  reduce py_min l = Some m → Forall (opt_le m) l.
Proof. destruct l; [done|]. intros [= <-]. apply fold_min_le. Qed.

Lemma reduce_min_elem_of (l : list (option string)) (m : option string) :
  reduce py_min l = Some m → m ∈ l.
Proof. destruct l; [done|]. intros [= <-]. apply fold_min_elem_of. Qed.

Lemma reduce_min_all_Some (l : list (option string)) (c : string) :
  reduce py_min l = Some (Some c) → Forall (λ elt, is_Some elt) l.
Proof.
  intros H%reduce_min_le. eapply Forall_impl; [done|].
  intros [x|]; [by eexists|done].
Qed.

Lemma reduce_min_empty_key (l : list (option string)) (c : string) :
  reduce py_min l = Some (Some c) → Some "" ∈ l → c = "".
Proof.
  intros H%reduce_min_le Hin. rewrite Forall_forall in H.
  specialize (H _ Hin). unfold opt_le in H. simpl in H.
  apply ltb_false_le in H. apply (anti_symm String.le); [done|].
  apply ltb_false_le. apply not_true_is_false, str_lt_empty.
Qed.

Lemma list_remove_first_sub {A} `{EqDecision A} (x : A) (l l' : list A) :
  list_remove_first x l = Some l' → l' ⊆ l.
Proof.
  revert l'. induction l as [|y l IH]; intros l'; simpl; [done|].
  case_decide.
  - intros [= <-] z Hz. by right.
  - destruct (list_remove_first x l) as [l0|]; simpl; [|done].
    intros [= <-] z [->|Hz]%elem_of_cons; [left|right].
    by apply (IH _ eq_refl).
Qed.

Lemma all_equal_spec (comp_elt : option string) (others : list (option string)) :
  bool_decide (comp_elt ≠ None)
    && forallb (λ elt, bool_decide (elt = comp_elt)) others = true →
  ∃ k, comp_elt = Some k ∧ Forall (λ elt, elt = Some k) (comp_elt :: others).
Proof.
  intros [Hc Ho]%andb_true_iff. apply bool_decide_eq_true in Hc.
  destruct comp_elt as [k|]; [|done]. exists k. split; [done|].
  constructor; [done|]. apply Forall_forall. intros x Hx.
  rewrite forallb_forall in Ho. apply list_elem_of_In in Hx.
  by apply Ho, bool_decide_eq_true in Hx.
Qed.

(** ** Rules for specifications *)

Lemma hoare_conseq {A} (P P' : Feeder → Prop) (m : M A)
    (Q Q' : outcome A → Feeder → Prop) :
  hoare P' m Q' → (∀ s, P s → P' s) → (∀ r s, Q' r s → Q r s) →
  hoare P m Q.
Proof. intros Hm HP HQ s r s' ws Hs Hrun. eapply HQ, Hm; eauto. Qed.

Lemma hoare_ret {A} (P : Feeder → Prop) (a : A)
    (Q : outcome A → Feeder → Prop) :
  (∀ s, P s → Q (Return a) s) → hoare P (ret a) Q.
Proof. intros HQ s r s' ws Hs [= <- <- <-]. auto. Qed.

Lemma hoare_raise {A} (P : Feeder → Prop) (e : exn)
    (Q : outcome A → Feeder → Prop) :
  (∀ s, P s → Q (Raise e) s) → hoare P (raise e) Q.
Proof. intros HQ s r s' ws Hs [= <- <- <-]. auto. Qed.

Lemma hoare_warn (P : Feeder → Prop) (w : warning)
    (Q : outcome unit → Feeder → Prop) :
  (∀ s, P s → Q (Return ()) s) → hoare P (warn w) Q.
Proof. intros HQ s r s' ws Hs [= <- <- <-]. auto. Qed.

Lemma hoare_modify (P : Feeder → Prop) (f : Feeder → Feeder)
    (Q : outcome unit → Feeder → Prop) :
  (∀ s, P s → Q (Return ()) (f s)) → hoare P (modify f) Q.
Proof. intros HQ s r s' ws Hs [= <- <- <-]. auto. Qed.

Lemma hoare_bind {A B} (P : Feeder → Prop) (m : M A) (f : A → M B)
    (Q1 : outcome A → Feeder → Prop) (Q : outcome B → Feeder → Prop) :
  hoare P m Q1 →
  (∀ a, hoare (Q1 (Return a)) (f a) Q) →
  (∀ e s, Q1 (Raise e) s → Q (Raise e) s) →
  (∀ s, Q1 OutOfFuel s → Q OutOfFuel s) →
  hoare P (bind m f) Q.
Proof.
  intros Hm Hf He Ho s r s' ws Hs. unfold bind.
  destruct (m s) as [[r1 s1] w1] eqn:Hrun. specialize (Hm _ _ _ _ Hs Hrun).
  destruct r1 as [a|e|].
  - destruct (f a s1) as [[r2 s2] w2] eqn:Hrun2.
    intros [= <- <- <-]. by eapply Hf.
  - intros [= <- <- <-]. auto.
  - intros [= <- <- <-]. auto.
Qed.

Lemma hoare_get {A} (P : Feeder → Prop) (f : Feeder → M A)
    (Q : outcome A → Feeder → Prop) :
  (∀ s0, hoare (λ s, P s ∧ s = s0) (f s0) Q) → hoare P (bind get f) Q.
Proof.
  intros Hf s r s' ws Hs. unfold bind, get.
  destruct (f s s) as [[r2 s2] w2] eqn:Hrun. intros [= <- <- <-].
  by eapply (Hf s).
Qed.

(** A loop whose body keeps [I] and ends in a way the predicate [E]
    accepts does so as a whole. *)
Lemma hoare_for_each {A} (I : Feeder → Prop) (E : outcome unit → Prop)
    (l : list A) (body : A → M unit) :
  E (Return ()) →
  (∀ x, x ∈ l → hoare I (body x) (λ r s, I s ∧ E r)) →
  hoare I (for_each l body) (λ r s, I s ∧ E r).
Proof.
  intros HE. induction l as [|x l IH]; intros Hbody; simpl.
  - by apply hoare_ret.
  - eapply hoare_bind.
    + apply Hbody. left.
    + intros []. simpl. eapply hoare_conseq.
      * apply IH. intros y Hy. apply Hbody. by right.
      * by intros s [? _].
      * done.
    + done.
    + done.
Qed.

Lemma hoare_fold_each {A B} (I : Feeder → Prop) (X : exn → Prop)
    (l : list A) (acc : B) (body : A → B → M B) :
  (∀ x acc, x ∈ l → hoare I (body x acc) (λ r s, I s ∧ allowed X r)) →
  hoare I (fold_each l acc body) (λ r s, I s ∧ allowed X r).
Proof.
  revert acc. induction l as [|x l IH]; intros acc Hbody; simpl.
  - by apply hoare_ret.
  - eapply hoare_bind.
    + apply Hbody. left.
    + intros acc'. simpl. eapply hoare_conseq.
      * apply IH. intros y acc0 Hy. apply Hbody. by right.
      * by intros s [? _].
      * done.
    + done.
    + done.
Qed.

(** ** The mismatch check *)

Lemma matching_frame_refl (s : Feeder) : matching_frame s s.
Proof.
  exists (qname_to_queue s), (last_mismatch s), (last_mismatch_time s),
    (last_timepoint s). by destruct s.
Qed.

Lemma matching_frame_trans (s1 s2 s3 : Feeder) :
  matching_frame s1 s2 → matching_frame s2 s3 → matching_frame s1 s3.
Proof.
  intros (qs & m & t & tp & ->) (qs' & m' & t' & tp' & ->).
  by exists qs', m', t', tp'.
Qed.

Lemma matching_frame_tracker (s : Feeder) (qs : list (string * list string))
    (m : option string) (t : option float) :
  matching_frame s (set_mismatch m t (set_qname_to_queue qs s)).
Proof. exists qs, m, t, (last_timepoint s). by destruct s. Qed.

Local Ltac run_monad :=
  cbv [bind get modify raise out_of_fuel warn warn_all ret].

Local Ltac state_unchanged :=
  run_monad; intros [= <- <- <-];
  split_and!;
    [ apply matching_frame_refl | reflexivity | apply queues_shrink_refl
    | done | by intros ? [=]
    | right; split; [reflexivity | left; reflexivity] ].

(** What one call of [check_and_pop_mismatches] can do to the object. *)
Lemma check_and_pop_mismatches_spec (first_elts : list (option string))
    (now : float) (s s' : Feeder) (r : outcome (option string))
    (ws : list warning) :
  check_and_pop_mismatches first_elts now s = (r, s', ws) →
  matching_frame s s'
  ∧ last_timepoint s' = last_timepoint s
  ∧ queues_shrink (λ _, True) (qname_to_queue s) (qname_to_queue s')
  ∧ r ≠ OutOfFuel
  ∧ (∀ k, r = Return (Some k) →
       Forall (λ elt, elt = Some k) first_elts
       ∧ first_elts ≠ []
       ∧ qname_to_queue s' = qname_to_queue s
       ∧ last_mismatch s' = None)
  ∧ (last_mismatch s' = None
     ∨ qname_to_queue s' = qname_to_queue s
       ∧ (last_mismatch s' = last_mismatch s
          ∨ ∃ c, last_mismatch s' = Some c
                 ∧ reduce py_min first_elts = Some (Some c))).
Proof.
  unfold check_and_pop_mismatches.
  destruct first_elts as [|comp_elt others]; [state_unchanged|].
  destruct (bool_decide (comp_elt ≠ None) && _) eqn:Hall.
  { apply all_equal_spec in Hall as (k & -> & Hall).
    intros [= <- <- <-]. split_and!; try done.
    - apply matching_frame_tracker.
    - apply queues_shrink_refl.
    - intros ? [= <-]. split_and!; done.
    - by left. }
  destruct (reduce py_min (comp_elt :: others)) as [[cur|]|] eqn:Hmin;
    [|  |state_unchanged].
  2:{ intros [= <- <- <-]. split_and!; try done.
      - apply matching_frame_tracker.
      - apply queues_shrink_refl.
      - by left. }
  unfold bind, get at 1.
  destruct (truthy (last_mismatch s)) eqn:Htruthy.
  2:{ intros [= <- <- <-]. split_and!; try done.
      - apply matching_frame_tracker.
      - apply queues_shrink_refl.
      - right. split; [done|]. right. by exists cur. }
  destruct (bool_decide (last_mismatch s ≠ Some cur)) eqn:Hne;
    [state_unchanged|].
  destruct (last_mismatch_time s) as [t|]; [|state_unchanged].
  destruct (PrimFloat.ltb (mismatch_wait_time s) (PrimFloat.sub now t));
    [|state_unchanged].
  destruct (next_elt_of cur (comp_elt :: others)) as [next_elt|e|] eqn:Hnext;
    [|state_unchanged|].
  2:{ unfold next_elt_of in Hnext. repeat case_match; simplify_eq. }
  destruct (pop_loop_fuel (S (total_len (qname_to_queue s))) next_elt
              (qname_to_queue s)) as [[qs ws0] Hloop]; [lia|].
  rewrite Hloop. apply pop_loop_spec in Hloop as [Hsh _].
  run_monad. intros [= <- <- <-]. split_and!; try done.
  - apply matching_frame_tracker.
  - simpl. by eapply queues_shrink_weaken.
  - by left.
Qed.

Lemma matching_frame_queues (s : Feeder) (qs : list (string * list string)) :
  matching_frame s (set_qname_to_queue qs s).
Proof.
  exists qs, (last_mismatch s), (last_mismatch_time s), (last_timepoint s).
  by destruct s.
Qed.

(** What one call of [get_matching_first_entry] can do to the object: a
    match pops the common head of every queue and clears the tracker;
    anything else leaves the queues alone or drops keys on their left. *)
Lemma get_matching_first_entry_spec (now : float) (s s' : Feeder)
    (r : outcome (option string)) (ws : list warning) :
  get_matching_first_entry now s = (r, s', ws) →
  matching_frame s s'
  ∧ last_timepoint s' = last_timepoint s
  ∧ queues_shrink (λ _, True) (qname_to_queue s) (qname_to_queue s')
  ∧ r ≠ OutOfFuel
  ∧ (∀ k, r = Return (Some k) →
       Forall (λ kq, kq.2 = k :: tail kq.2) (qname_to_queue s)
       ∧ qname_to_queue s ≠ []
       ∧ qname_to_queue s' = map (λ kq, (kq.1, tail kq.2)) (qname_to_queue s)
       ∧ last_mismatch s' = None)
  ∧ (last_mismatch s' = None
     ∨ qname_to_queue s' = qname_to_queue s
       ∧ (last_mismatch s' = last_mismatch s
          ∨ ∃ c, last_mismatch s' = Some c
                 ∧ reduce py_min (first_elts_of (qname_to_queue s))
                   = Some (Some c))).
Proof.
  unfold get_matching_first_entry. unfold bind at 1, get at 1.
  unfold bind at 1.
  destruct (check_and_pop_mismatches _ now s) as [[r1 s1] w1] eqn:Hc.
  apply check_and_pop_mismatches_spec in Hc
    as (Hfr & Htp & Hsh & Hfuel & Hmatched & Htracker).
  destruct r1 as [[k|]|e|]; [| | |done].
  - destruct (Hmatched k eq_refl) as (Hall & Hne & Hqs & Hlm).
    rewrite <- Hqs in Hall.
    destruct (popleft_all_matched k _ Hall) as [Hpop Hheads].
    run_monad. rewrite Hpop. intros [= <- <- <-]. simpl.
    split_and!; try done.
    + eapply matching_frame_trans; [done|apply matching_frame_queues].
    + eapply queues_shrink_trans; [done|].
      pose proof (popleft_all_spec (qname_to_queue s1)) as Hp.
      by rewrite Hpop in Hp.
    + intros ? [= <-]. rewrite <- Hqs. split_and!; try done.
      intros Hnil. apply Hne. by rewrite <- Hqs, Hnil.
    + by left.
  - run_monad. intros [= <- <- <-]. split_and!; try done.
  - run_monad. intros [= <- <- <-]. split_and!; try done.
Qed.

Lemma heads_all_Some (qs : list (string * list string)) :
  Forall (λ elt, is_Some elt) (first_elts_of qs) ↔
  Forall (λ kq, kq.2 ≠ []) qs.
Proof.
  unfold first_elts_of. rewrite Forall_fmap. apply Forall_proper; [|done].
  intros [k [|x q]]; simpl; split; done.
Qed.

Lemma get_matching_first_entry_tracked (now : float) (s s' : Feeder)
    (r : outcome (option string)) (ws : list warning) :
  get_matching_first_entry now s = (r, s', ws) →
  tracked_at_heads s → tracked_at_heads s'.
Proof.
  intros (_ & _ & _ & _ & _ & Htracker)%get_matching_first_entry_spec Hs k Hlm.
  destruct Htracker as [Hnone|[Hqs [Hsame|(c & Hc & Hmin)]]].
  - congruence.
  - rewrite Hqs. apply Hs. congruence.
  - rewrite Hqs. assert (c = k) as -> by congruence. split.
    + by apply heads_all_Some, (reduce_min_all_Some _ k).
    + intros ->. apply reduce_min_elem_of in Hmin.
      unfold first_elts_of in Hmin.
      apply list_elem_of_fmap in Hmin as (kq & ? & ?).
      apply Exists_exists. by exists kq.
Qed.

Lemma total_len_popped (k : string) (qs : list (string * list string)) :
  qs ≠ [] → Forall (λ kq, kq.2 = k :: tail kq.2) qs →
  total_len (map (λ kq, (kq.1, tail kq.2)) qs) < total_len qs.
Proof.
  unfold total_len. destruct qs as [|kq qs]; [done|]. intros _.
  intros [Hkq Hqs]%Forall_cons. simpl. rewrite Hkq at 2. simpl.
  assert (sum_list (map (λ kq, length kq.2)
                      (map (λ kq, (kq.1, tail kq.2)) qs))
          ≤ sum_list (map (λ kq, length kq.2) qs)); [|lia].
  clear Hkq. induction Hqs as [|x l Hx Hl IH]; simpl; [done|].
  rewrite Hx at 2. simpl. lia.
Qed.

Lemma all_above_popped (k : string) (qs : list (string * list string)) :
  all_sorted qs → Forall (λ kq, kq.2 = k :: tail kq.2) qs →
  all_above [k] (map (λ kq, (kq.1, tail kq.2)) qs).
Proof.
  intros Hs Hk m kq x Hm Hkq Hx. apply list_elem_of_singleton in Hm as ->.
  apply list_elem_of_fmap in Hkq as (kq0 & -> & Hkq0). simpl in Hx.
  unfold all_sorted in Hs. rewrite Forall_forall in Hs, Hk.
  specialize (Hs _ Hkq0). specialize (Hk _ Hkq0). rewrite Hk in Hs.
  apply Sorted_str_lt_strongly, StronglySorted_cons in Hs as [Hall _].
  rewrite Forall_forall in Hall. by apply Hall.
Qed.

Lemma all_above_app (ms1 ms2 : list string) (qs : list (string * list string)) :
  all_above ms1 qs → all_above ms2 qs → all_above (ms1 ++ ms2) qs.
Proof.
  intros H1 H2 m kq x [Hm|Hm]%elem_of_app ??; [by eapply H1|by eapply H2].
Qed.

Lemma all_above_nil (qs : list (string * list string)) : all_above [] qs.
Proof. intros m kq x Hm. by apply elem_of_nil in Hm. Qed.

(** ** The matching loop *)

Section Matching.
Variable getsize : string → option Z.
Variable py_int : string → option Z.

Lemma check_sequence_spec (k : string) (s s' : Feeder) (r : outcome unit)
    (ws : list warning) :
  check_sequence py_int k s = (r, s', ws) →
  (∃ tp, s' = set_last_timepoint tp s)
  ∧ (r = Return () ∨ r = Raise (ValueError_int k)).
Proof.
  unfold check_sequence. run_monad.
  destruct (py_int k) as [cur|].
  - destruct (last_timepoint s) as [last|] eqn:Hlast.
    + case_bool_decide; intros [= <- <- <-]; eauto.
    + intros [= <- <- <-]; eauto.
  - intros [= <- <- <-]. split; [|by right].
    exists (last_timepoint s). by destruct s.
Qed.

Lemma matching_loop_spec (fuel : nat) (dcs : bool) (now : float) :
  ∀ (matching : option string) (ms : list string) (s s' : Feeder)
    (r : outcome (list string)) (ws : list warning),
    matching_loop py_int fuel dcs now matching ms s = (r, s', ws) →
    matching_frame s s'
    ∧ queues_shrink (λ _, True) (qname_to_queue s) (qname_to_queue s')
    ∧ (truthy matching = false ∨ total_len (qname_to_queue s) < fuel →
       r ≠ OutOfFuel)
    ∧ (tracked_at_heads s → tracked_at_heads s')
    ∧ (all_sorted (qname_to_queue s) →
       all_above ms (qname_to_queue s) →
       (∀ m, matching = Some m → all_above [m] (qname_to_queue s)) →
       ∀ ms', r = Return ms' → all_above ms' (qname_to_queue s')).
Proof.
  induction fuel as [|fuel IH]; intros matching ms s s' r ws; simpl.
  - destruct (truthy matching) eqn:Ht; run_monad; intros [= <- <- <-].
    + split_and!; try done.
      * apply matching_frame_refl.
      * apply queues_shrink_refl.
      * intros [|]; [done|lia].
    + split_and!; try done.
      * apply matching_frame_refl.
      * apply queues_shrink_refl.
      * by intros _ ? _ ? [= <-].
  - destruct (truthy matching) eqn:Ht.
    2:{ run_monad; intros [= <- <- <-]. split_and!; try done.
        * apply matching_frame_refl.
        * apply queues_shrink_refl.
        * by intros _ ? _ ? [= <-]. }
    destruct matching as [m|]; [|done].
    unfold bind at 1.
    destruct ((if dcs then check_sequence py_int m else ret ()) s)
      as [[r1 s1] w1] eqn:Hcs.
    assert ((∃ tp, s1 = set_last_timepoint tp s)
            ∧ (r1 = Return () ∨ r1 = Raise (ValueError_int m)))
      as [[tp ->] Hr1].
    { destruct dcs; [by eapply check_sequence_spec|].
      revert Hcs. run_monad. intros [= <- <- <-]. split; [|by left].
      exists (last_timepoint s). by destruct s. }
    destruct Hr1 as [-> | ->].
    2:{ intros [= <- <- <-]. split_and!; try done.
        * exists (qname_to_queue s), (last_mismatch s),
            (last_mismatch_time s), tp. by destruct s.
        * apply queues_shrink_refl. }
    unfold bind at 1.
    destruct (get_matching_first_entry now (set_last_timepoint tp s))
      as [[r2 s2] w2] eqn:Hget.
    pose proof (get_matching_first_entry_tracked _ _ _ _ _ Hget) as Hek.
    apply get_matching_first_entry_spec in Hget
      as (Hfr & _ & Hsh & Hfuel & Hmatched & _).
    simpl in Hsh, Hmatched.
    assert (matching_frame s s2) as Hfr2.
    { eapply matching_frame_trans; [|done].
      exists (qname_to_queue s), (last_mismatch s),
        (last_mismatch_time s), tp. by destruct s. }
    destruct r2 as [matching'|e|]; [| |done].
    2:{ intros [= <- <- <-]. split_and!; try done. }
    destruct (matching_loop py_int fuel dcs now matching' (ms ++ [m]) s2)
      as [[r3 s3] w3] eqn:Hloop.
    apply IH in Hloop as (Hfr3 & Hsh3 & Hfuel3 & Hek3 & Habove3).
    intros [= <- <- <-]. split_and!.
    + by eapply matching_frame_trans.
    + by eapply queues_shrink_trans.
    + intros [|Hlt]; [done|]. apply Hfuel3.
      destruct matching' as [k|]; [|by left]. right.
      destruct (Hmatched k eq_refl) as (Hall & Hne & -> & _).
      pose proof (total_len_popped k _ Hne Hall). lia.
    + intros Hs. apply Hek3, Hek. done.
    + intros Hsorted Hms Hm ms' ->. apply (Habove3); [| | |done].
      * by eapply all_sorted_shrink.
      * eapply all_above_shrink; [done|].
        apply all_above_app; [done|by apply Hm].
      * intros k ->. destruct (Hmatched k eq_refl) as (Hall & _ & -> & _).
        by apply all_above_popped.
Qed.

Lemma collect_matches_spec (now : float) (s s' : Feeder)
    (r : outcome (list string)) (ws : list warning) :
  collect_matches py_int now s = (r, s', ws) →
  matching_frame s s'
  ∧ queues_shrink (λ _, True) (qname_to_queue s) (qname_to_queue s')
  ∧ r ≠ OutOfFuel
  ∧ (tracked_at_heads s → tracked_at_heads s')
  ∧ (all_sorted (qname_to_queue s) →
     ∀ ms, r = Return ms → all_above ms (qname_to_queue s')).
Proof.
  unfold collect_matches. unfold bind at 1, get at 1. unfold bind at 1.
  destruct (get_matching_first_entry now s) as [[r1 s1] w1] eqn:Hget.
  pose proof (get_matching_first_entry_tracked _ _ _ _ _ Hget) as Hek.
  apply get_matching_first_entry_spec in Hget
    as (Hfr & _ & Hsh & Hfuel & Hmatched & _).
  destruct r1 as [matching|e|]; [| |done].
  2:{ intros [= <- <- <-]. split_and!; try done. }
  unfold bind at 1, get at 1.
  destruct (matching_loop _ _ _ _ _ _ s1) as [[r2 s2] w2] eqn:Hloop.
  apply matching_loop_spec in Hloop as (Hfr2 & Hsh2 & Hfuel2 & Hek2 & Hab).
  intros [= <- <- <-]. split_and!.
  - by eapply matching_frame_trans.
  - by eapply queues_shrink_trans.
  - apply Hfuel2. right. apply queues_shrink_total_len in Hsh. lia.
  - auto.
  - intros Hsorted ms ->. apply Hab; [| |  |done].
    + by eapply all_sorted_shrink.
    + apply all_above_nil.
    + intros k ->. destruct (Hmatched k eq_refl) as (Hall & _ & -> & _).
      by apply all_above_popped.
Qed.

(** *** Insertion *)

Lemma alist_alter_elem_of {V} (f : V → V) (k : string)
    (l : list (string * V)) (kv : string * V) :
  kv ∈ alist_alter f k l →
  kv ∈ l ∨ ∃ v, (k, v) ∈ l ∧ kv = (k, f v).
Proof.
  induction l as [|[k' v'] l IH]; simpl; [by left|].
  case_decide as E.
  - intros [->|Hin]%elem_of_cons.
    + right. exists v'. subst k'. split; [left|done].
    + left. by right.
  - intros [->|Hin]%elem_of_cons; [left; left|].
    destruct (IH Hin) as [?|(v & ? & ?)]; [left; by right|].
    right. exists v. split; [by right|done].
Qed.

Lemma alist_alter_Exists {V} (P : string * V → Prop) (f : V → V)
    (k : string) (l : list (string * V)) :
  (∀ k' v, P (k', v) → P (k', f v)) →
  Exists P l → Exists P (alist_alter f k l).
Proof.
  intros Hf. induction 1 as [[k' v'] l Hx|[k' v'] l Hl IH]; simpl;
    case_decide.
  - left. by apply Hf.
  - by left.
  - by right.
  - by right.
Qed.

Lemma alist_alter_Forall {V} (P : string * V → Prop) (f : V → V)
    (k : string) (l : list (string * V)) :
  (∀ k' v, P (k', v) → P (k', f v)) →
  Forall P l → Forall P (alist_alter f k l).
Proof.
  intros Hf. induction 1 as [|[k' v'] l Hx Hl IH]; simpl; [done|].
  case_decide; constructor; auto.
Qed.

Lemma maintain_queue_nonempty (queue : list string) :
  queue ≠ [] → maintain_queue queue ≠ [].
Proof.
  destruct queue as [|x q]; [done|]. intros _ Hnil.
  assert (x ∈ maintain_queue (x :: q)) as Hin
    by (apply maintain_queue_elem_of; left).
  rewrite Hnil in Hin. by apply elem_of_nil in Hin.
Qed.

Lemma insert_filename_spec (filename : string) (s s' : Feeder)
    (r : outcome unit) (ws : list warning) :
  insert_filename filename s = (r, s', ws) →
  allowed is_KeyError_queue r
  ∧ last_mismatch s' = last_mismatch s
  ∧ (index_covers s → index_covers s')
  ∧ (tracked_at_heads s → tracked_at_heads s').
Proof.
  unfold insert_filename. run_monad.
  destruct (fname_to_qname_fcn s filename) as [qname|];
    [|by intros [= <- <- <-]].
  destruct (fname_to_timepoint_fcn s filename) as [tpname|];
    [|by intros [= <- <- <-]].
  destruct (alist_lookup qname (qname_to_queue s)) as [q|].
  2:{ intros [= <- <- <-]. split_and!; try done. by exists qname. }
  intros [= <- <- <-]. split_and!; try done.
  - intros Hcov qn queue tp Hin Htp. simpl in *.
    apply alist_alter_elem_of in Hin as [Hin|(v & Hin & [= -> ->])].
    + destruct (Hcov _ _ _ Hin Htp) as [x Hx].
      destruct (decide ((qname, tpname) = (qn, tp))) as [E|E].
      * rewrite E, lookup_insert_eq. by eexists.
      * rewrite lookup_insert_ne; [by eexists|done].
    + apply elem_of_app in Htp as [Htp|Htp%list_elem_of_singleton].
      * destruct (Hcov _ _ _ Hin Htp) as [x Hx].
        destruct (decide ((qname, tpname) = (qname, tp))) as [E|E].
        -- rewrite E, lookup_insert_eq. by eexists.
        -- rewrite lookup_insert_ne; [by eexists|done].
      * subst tp. rewrite lookup_insert_eq. by eexists.
  - intros Hek k Hlm. simpl in *. destruct (Hek k Hlm) as [Hne Hex]. split.
    + apply alist_alter_Forall; [|done]. intros k' v _. simpl. by destruct v.
    + intros Hk. apply alist_alter_Exists; [|by apply Hex].
      intros k' v. simpl. by destruct v.
Qed.

Lemma insert_filenames_spec (filenames : list string) (I : Feeder → Prop) :
  (∀ filename, hoare I (insert_filename filename) (λ _ s, I s)) →
  hoare I (insert_filenames filenames)
    (λ r s, I s ∧ allowed is_KeyError_queue r).
Proof.
  intros HI. apply hoare_for_each; [done|].
  intros filename _ s r s' ws Hs Hrun. split; [by eapply HI|].
  by apply insert_filename_spec in Hrun as (? & _).
Qed.

(** *** Sorting the queues *)

Lemma maintain_sorting_spec (s s' : Feeder) (r : outcome unit)
    (ws : list warning) :
  maintain_sorting s = (r, s', ws) →
  r = Return ()
  ∧ all_sorted (qname_to_queue s')
  ∧ last_mismatch s' = last_mismatch s
  ∧ (index_covers s → index_covers s')
  ∧ (tracked_at_heads s → tracked_at_heads s').
Proof.
  unfold maintain_sorting. run_monad. intros [= <- <- <-]. simpl.
  split_and!; try done.
  - apply Forall_forall. intros kq (kq0 & -> & _)%list_elem_of_fmap. simpl.
    apply maintain_queue_Sorted.
  - intros Hcov qn queue tp Hin Htp. simpl in *.
    apply list_elem_of_fmap in Hin as ([qn0 q0] & [= -> ->] & Hin).
    simpl in Htp. rewrite maintain_queue_elem_of in Htp.
    exact (Hcov _ _ _ Hin Htp).
  - intros Hek k Hlm. simpl in *. destruct (Hek k Hlm) as [Hne Hek0].
    split.
    { apply Forall_fmap. eapply Forall_impl; [exact Hne|].
      intros kq. simpl. apply maintain_queue_nonempty. }
    intros Hk. specialize (Hek0 Hk).
    apply Exists_exists in Hek0 as (kq & Hin & Hhead).
    apply Exists_exists. exists (kq.1, maintain_queue kq.2). split.
    + apply list_elem_of_fmap. by exists kq.
    + simpl. apply Sorted_head_empty; [apply maintain_queue_Sorted|].
      apply maintain_queue_elem_of.
      destruct kq as [qn [|x q]]; simplify_eq/=. left.
Qed.

(** *** Releasing the matched filenames *)

Lemma iproduct_elem_of (keys matches : list string) (qname m : string) :
  (qname, m) ∈ iproduct keys matches → qname ∈ keys ∧ m ∈ matches.
Proof.
  unfold iproduct. rewrite list_elem_of_In, in_flat_map.
  intros (k & Hk & Hin). apply list_elem_of_In in Hk, Hin.
  apply list_elem_of_fmap in Hin as (m0 & [= -> ->] & Hm). done.
Qed.

Lemma pop_fold_spec (keys : list (string * string)) :
  ∀ (acc : list string) (s s' : Feeder) (r : outcome (list string))
    (ws : list warning),
    fold_each keys acc
      (λ key fullnames, filename <- pop_fullname key ;;
                        ret (fullnames ++ [filename])) s = (r, s', ws) →
    (∃ ix, s' = set_keys_to_fullnames ix s
           ∧ ∀ key, ix !! key = keys_to_fullnames s !! key
                    ∨ ix !! key = None ∧ key ∈ keys)
    ∧ allowed (λ e, ∃ key, e = KeyError_fullname key) r.
Proof.
  induction keys as [|key keys IH]; intros acc s s' r ws; simpl.
  - intros [= <- <- <-]. split; [|done].
    exists (keys_to_fullnames s). split; [by destruct s|by left].
  - unfold bind at 1. unfold pop_fullname. unfold bind at 1 2, get at 1.
    destruct (keys_to_fullnames s !! key) as [filename|] eqn:Hkey.
    + run_monad.
      destruct (fold_each keys (acc ++ [filename]) _ _)
        as [[r2 s2] w2] eqn:Hrest.
      apply IH in Hrest as [(ix & -> & Hix) Hr].
      intros [= <- <- <-]. split; [|done]. exists ix. split; [done|].
      intros key'. destruct (Hix key') as [E|[E Hin]]; simpl in *.
      * destruct (decide (key = key')) as [<-|Hne].
        -- right. rewrite E, lookup_delete_eq. split; [done|left].
        -- left. by rewrite E, lookup_delete_ne.
      * right. split; [done|by right].
    + run_monad. intros [= <- <- <-]. split; [|by exists key].
      exists (keys_to_fullnames s). split; [by destruct s|by left].
Qed.

Lemma pop_fullnames_spec (ms : list string) (s s' : Feeder)
    (r : outcome (list string)) (ws : list warning) :
  pop_fullnames ms s = (r, s', ws) →
  (∃ ix, s' = set_keys_to_fullnames ix s
         ∧ ∀ key, ix !! key = keys_to_fullnames s !! key
                  ∨ ix !! key = None
                    ∧ key ∈ iproduct (map fst (qname_to_queue s)) ms)
  ∧ allowed (λ e, ∃ key, e = KeyError_fullname key) r.
Proof.
  unfold pop_fullnames. unfold bind at 1, get at 1.
  destruct (fold_each _ _ _ s) as [[r1 s1] w1] eqn:Hfold.
  apply pop_fold_spec in Hfold. by intros [= <- <- <-].
Qed.

Lemma index_covers_pop (ms : list string) (s : Feeder)
    (ix : gmap (string * string) string) :
  index_covers s → all_above ms (qname_to_queue s) →
  (∀ key, ix !! key = keys_to_fullnames s !! key
          ∨ ix !! key = None
            ∧ key ∈ iproduct (map fst (qname_to_queue s)) ms) →
  index_covers (set_keys_to_fullnames ix s).
Proof.
  intros Hcov Hab Hix qn queue tp Hin Htp. simpl in *.
  destruct (Hix (qn, tp)) as [-> | [_ Hprod]]; [by eapply Hcov|].
  apply iproduct_elem_of in Hprod as [_ Hms].
  destruct (str_lt_irrefl tp). by apply (Hab tp (qn, queue) tp).
Qed.

Lemma index_covers_frame (s s' : Feeder) :
  matching_frame s s' →
  queues_shrink (λ _, True) (qname_to_queue s) (qname_to_queue s') →
  index_covers s → index_covers s'.
Proof.
  intros (qs & m & t & tp & ->) Hsh Hcov qn queue tpname Hin Htp.
  simpl in *.
  destruct (queues_shrink_elem_of _ _ _ _ Hsh Hin)
    as ([qn0 q0] & Hin0 & E & d & Hd & _). simpl in *. subst qn0.
  apply (Hcov qn q0); [done|]. rewrite Hd. apply elem_of_app. by right.
Qed.

(** *** The size filter only writes the size table *)

Lemma check_size_spec (filename : string) (acc : list (option string))
    (s s' : Feeder) (r : outcome (list (option string)))
    (ws : list warning) :
  check_size getsize filename acc s = (r, s', ws) →
  (∃ t, s' = set_qname_to_expected_size t s) ∧ r ≠ OutOfFuel.
Proof.
  unfold check_size. run_monad.
  destruct (getsize filename) as [size|].
  2:{ intros [= <- <- <-]. split; [|done].
      exists (qname_to_expected_size s). by destruct s. }
  destruct (qname_to_expected_size s) as [table|] eqn:Ht.
  2:{ intros [= <- <- <-]. split; [|done].
      exists None. destruct s; simpl in *. by subst. }
  case_bool_decide; intros [= <- <- <-]; split; try done; eauto.
Qed.

Lemma filter_size_mismatch_files_frame (filenames : list string)
    (s s' : Feeder) (r : outcome (list string)) (ws : list warning) :
  filter_size_mismatch_files getsize filenames s = (r, s', ws) →
  (∃ t, s' = set_qname_to_expected_size t s) ∧ r ≠ OutOfFuel.
Proof.
  unfold filter_size_mismatch_files. unfold bind at 1.
  destruct (fold_each filenames [] (check_size getsize) s)
    as [[r1 s1] w1] eqn:Hfold.
  assert ((∃ t, s1 = set_qname_to_expected_size t s) ∧ r1 ≠ OutOfFuel)
    as [[t ->] Hr1].
  { clear -Hfold. revert Hfold. generalize (@nil (option string)).
    revert s s1 r1 w1.
    induction filenames as [|f fs IH]; intros s s1 r1 w1 acc; simpl.
    - intros [= <- <- <-]. split; [|done].
      exists (qname_to_expected_size s). by destruct s.
    - unfold bind at 1.
      destruct (check_size getsize f acc s) as [[r0 s0] w0] eqn:Hc.
      apply check_size_spec in Hc as [[t ->] Hr0].
      destruct r0 as [acc'|e|]; [| |done].
      + destruct (fold_each fs acc' _ _) as [[r2 s2] w2] eqn:Hrest.
        apply IH in Hrest as [[t' ->] Hr2]. intros [= <- <- <-].
        split; [|done]. by exists t'.
      + intros [= <- <- <-]. split; [|done]. by exists t. }
  destruct r1 as [filtered|e|]; [| |done].
  - run_monad. destruct filtered; intros [= <- <- <-]; split; try done;
      by exists t.
  - intros [= <- <- <-]. split; [|done]. by exists t.
Qed.

(** ** Whole calls of [match_filenames] *)

Lemma kept_by_size_table (t : option (gmap (option string) Z)) (s : Feeder) :
  (index_covers s → index_covers (set_qname_to_expected_size t s))
  ∧ (tracked_at_heads s →
     tracked_at_heads (set_qname_to_expected_size t s)).
Proof. split; intros H; exact H. Qed.

(** Both invariants survive a call, whichever way it ends. *)
Lemma match_filenames_invariants (filenames : list string) (now : float) :
  hoare (λ s, index_covers s ∧ tracked_at_heads s)
    (match_filenames getsize py_int filenames now)
    (λ _ s, index_covers s ∧ tracked_at_heads s).
Proof.
  set (Inv := λ s, index_covers s ∧ tracked_at_heads s).
  unfold match_filenames.
  eapply hoare_bind with (Q1 := λ _ s, Inv s); [| |done..].
  { eapply hoare_conseq; [apply (insert_filenames_spec filenames Inv)|..].
    - intros f s r s' ws [Hc He] Hrun.
      apply insert_filename_spec in Hrun as (_ & _ & Hc' & He').
      split; auto.
    - done.
    - by intros r s [? _]. }
  intros [].
  eapply hoare_bind
    with (Q1 := λ _ s, Inv s ∧ all_sorted (qname_to_queue s));
    [| |by intros; destruct_and!..].
  { intros s r s' ws [Hc He] Hrun.
    apply maintain_sorting_spec in Hrun as (_ & Hs & _ & Hc' & He').
    split; [split|]; auto. }
  intros [].
  eapply hoare_bind
    with (Q1 := λ r s, Inv s ∧ ∀ ms, r = Return ms →
                                    all_above ms (qname_to_queue s)).
  { intros s r s' ws [[Hc He] Hs] Hrun.
    apply collect_matches_spec in Hrun as (Hfr & Hsh & _ & He' & Hab).
    split; [split|]; eauto using index_covers_frame. }
  2,3: by intros; destruct_and!.
  intros ms.
  eapply hoare_bind with (Q1 := λ _ s, Inv s); [| |done..].
  { intros s r s' ws [[Hc He] Hab] Hrun.
    apply pop_fullnames_spec in Hrun as [(ix & -> & Hix) _]. split.
    - eapply index_covers_pop; eauto.
    - exact He. }
  intros names. simpl. apply hoare_get. intros s0.
  destruct (qname_to_expected_size s0).
  - intros s r s' ws [[Hc He] ->] Hrun.
    apply filter_size_mismatch_files_frame in Hrun as [[t ->] _].
    split; by apply kept_by_size_table.
  - apply hoare_ret. by intros s [? _].
Qed.

Lemma init_queues_empty (qnames : list string)
    (d : list (string * list string)) :
  Forall (λ kq, kq.2 = []) d →
  Forall (λ kq, kq.2 = [])
    (fold_left (λ d qname, alist_set qname [] d) qnames d).
Proof.
  revert d. induction qnames as [|q qs IH]; intros d Hd; simpl; [done|].
  apply IH. clear IH. induction Hd as [|[k v] d Hk Hd IH]; simpl.
  - constructor; [done|constructor].
  - case_decide; constructor; auto.
Qed.

(** The invariants hold of every object a program can hold. *)
Lemma init_invariants (qnames : list string)
    (fq ft : string → option string) (size_check sequence_check : bool) :
  index_covers (init qnames fq ft size_check sequence_check)
  ∧ tracked_at_heads (init qnames fq ft size_check sequence_check).
Proof.
  split; [|done]. intros qn queue tp Hin Htp. simpl in *.
  pose proof (init_queues_empty qnames [] (Forall_nil_2 _)) as H.
  rewrite Forall_forall in H.
  specialize (H _ Hin). simpl in H. subst queue.
  by apply elem_of_nil in Htp.
Qed.

Lemma reachable_invariants (s : Feeder) :
  reachable getsize py_int s → index_covers s ∧ tracked_at_heads s.
Proof.
  induction 1 as [qnames fq ft sc qc|wait s Hr IH|fs now s r s' ws Hr IH Hrun].
  - apply init_invariants.
  - exact IH.
  - by eapply match_filenames_invariants.
Qed.

(** The fuel never runs out: a call returns or raises. *)
Lemma match_filenames_terminates (filenames : list string) (now : float)
    (s : Feeder) :
  (match_filenames getsize py_int filenames now s).1.1 ≠ OutOfFuel.
Proof.
  destruct (match_filenames getsize py_int filenames now s)
    as [[r s'] ws] eqn:Hrun. simpl. revert Hrun.
  enough (hoare (λ _, True) (match_filenames getsize py_int filenames now)
            (λ r _, r ≠ OutOfFuel)) as H by (by apply H).
  clear. unfold match_filenames.
  eapply hoare_bind with (Q1 := λ r _, r ≠ OutOfFuel); [| |done..].
  { eapply hoare_conseq;
      [apply (insert_filenames_spec filenames (λ _, True))|done|].
    - by intros.
    - by intros r s [_ Hr] ->. }
  intros [].
  eapply hoare_bind with (Q1 := λ r _, r ≠ OutOfFuel); [| |done..].
  { by intros s r s' ws _ [= <- <- <-]. }
  intros [].
  eapply hoare_bind with (Q1 := λ r _, r ≠ OutOfFuel); [| |done..].
  { intros s r s' ws _ Hrun.
    by apply collect_matches_spec in Hrun as (_ & _ & ? & _). }
  intros ms.
  eapply hoare_bind with (Q1 := λ r _, r ≠ OutOfFuel); [| |done..].
  { intros s r s' ws _ Hrun.
    apply pop_fullnames_spec in Hrun as [_ Hr]. by intros ->. }
  intros names. simpl. apply hoare_get. intros s0.
  destruct (qname_to_expected_size s0).
  - intros s r s' ws _ Hrun.
    by apply filter_size_mismatch_files_frame in Hrun as [_ ?].
  - by apply hoare_ret.
Qed.

(** ** Sorted queues *)

(** C4 (as amended). Immediately after a [match_filenames] call that did
    not fail with the [KeyError] of an unconfigured stream identifier,
    every stream queue is strictly ascending, hence without duplicate
    keys; this holds from any object whatever, so after each call of any
    sequence of calls. *)
Theorem C4_queues_sorted_after_match (filenames : list string) (now : float)
    (s s' : Feeder) (r : outcome (list string)) (ws : list warning) :
  match_filenames getsize py_int filenames now s = (r, s', ws) →
  (∀ qname, r ≠ Raise (KeyError_queue qname)) →
  Forall (λ kq, is_sorted kq.2 = true ∧ NoDup kq.2) (qname_to_queue s').
Proof.
  intros Hrun Hr.
  enough (all_sorted (qname_to_queue s')) as Hs.
  { eapply Forall_impl; [exact Hs|]. intros kq Hkq. split.
    - by apply is_sorted_Sorted.
    - by apply StronglySorted_str_lt_NoDup, Sorted_str_lt_strongly. }
  revert Hr.
  enough (hoare (λ _, True) (match_filenames getsize py_int filenames now)
            (λ r s', (∀ qname, r ≠ Raise (KeyError_queue qname)) →
                     all_sorted (qname_to_queue s'))) as H
    by (by eapply H).
  clear. unfold match_filenames.
  eapply hoare_bind with (Q1 := λ r _, allowed is_KeyError_queue r).
  { eapply hoare_conseq;
      [apply (insert_filenames_spec filenames (λ _, True))|done|].
    - by intros.
    - by intros r s [_ Hr]. }
  2:{ intros e s [q ->] Hne. by destruct (Hne q). }
  2:{ by intros s []. }
  intros [].
  eapply hoare_bind with (Q1 := λ _ s, all_sorted (qname_to_queue s));
    [| |by intros..].
  { intros s r s' ws _ Hrun.
    by apply maintain_sorting_spec in Hrun as (_ & ? & _). }
  intros [].
  eapply hoare_bind with (Q1 := λ _ s, all_sorted (qname_to_queue s));
    [| |by intros..].
  { intros s r s' ws Hs Hrun.
    apply collect_matches_spec in Hrun as (_ & Hsh & _).
    by eapply all_sorted_shrink. }
  intros ms.
  eapply hoare_bind with (Q1 := λ _ s, all_sorted (qname_to_queue s));
    [| |by intros..].
  { intros s r s' ws Hs Hrun.
    by apply pop_fullnames_spec in Hrun as [(ix & -> & _) _]. }
  intros names. simpl. apply hoare_get. intros s0.
  destruct (qname_to_expected_size s0).
  - intros s r s' ws [Hs ->] Hrun.
    by apply filter_size_mismatch_files_frame in Hrun as [[t ->] _].
  - apply hoare_ret. by intros s [? _].
Qed.

(** ** The filename index *)


(** ** A tracked key that changes *)

Lemma not_all_equal (first_elts : list (option string)) (c : string) :
  reduce py_min first_elts = Some (Some c) →
  ¬ Forall (λ elt, elt = Some c) first_elts →
  ∃ comp_elt others,
    first_elts = comp_elt :: others
    ∧ bool_decide (comp_elt ≠ None)
        && forallb (λ elt, bool_decide (elt = comp_elt)) others = false.
Proof.
  intros Hmin Hne. destruct first_elts as [|comp_elt others]; [done|].
  exists comp_elt, others. split; [done|].
  apply not_true_is_false. intros (k & -> & Hall)%all_equal_spec.
  apply reduce_min_elem_of in Hmin. rewrite Forall_forall in Hall.
  apply Hall in Hmin as [= ->]. by apply Hne, Forall_forall.
Qed.

Lemma truthy_Some (k : string) : k ≠ "" → truthy (Some k) = true.
Proof.
  intros Hk. simpl. apply negb_true_iff, not_true_is_false.
  by intros ?%String.eqb_eq.
Qed.

Lemma check_and_pop_mismatches_raises (first_elts : list (option string))
    (now : float) (s : Feeder) (k c : string) :
  last_mismatch s = Some k → k ≠ "" →
  reduce py_min first_elts = Some (Some c) →
  ¬ Forall (λ elt, elt = Some c) first_elts →
  c ≠ k →
  check_and_pop_mismatches first_elts now s
  = (Raise (MismatchException c k), s, []).
Proof.
  intros Hlm Hk Hmin Hne Hck.
  destruct (not_all_equal _ _ Hmin Hne) as (comp_elt & others & -> & Htest).
  unfold check_and_pop_mismatches. rewrite Htest, Hmin.
  unfold bind, get. rewrite Hlm, (truthy_Some k Hk).
  rewrite bool_decide_true; [done|]. by intros [= ->].
Qed.

Lemma heads_of_nonempty_all (qs : list (string * list string)) :
  Forall (λ kq, kq.2 ≠ []) qs → heads_of_nonempty qs = first_elts_of qs.
Proof.
  unfold heads_of_nonempty, first_elts_of.
  induction 1 as [|[qn [|x q]] qs Hx Hqs IH]; simpl in *; [done..|].
  rewrite filter_cons_True; [|done]. by rewrite IH.
Qed.

(** C6. When a call of [match_filenames] on an object a program can hold
    reaches the mismatch check with a tracked key [k] (after insertion and
    sorting the heads are not all equal) and [k] differs from the newly
    computed minimum [c] of the heads of the non-empty queues, the call
    raises the exception "Current mismatch doesn't match last mismatch",
    which leaves [match_filenames]; nothing is corrected on the way: the
    tracker still holds [k] and the queues are as the check found them. *)
Theorem C6_mismatch_change_is_fatal (filenames : list string) (now : float)
    (s s0 s1 : Feeder) (ws : list warning) (k c : string) :
  reachable getsize py_int s →
  last_mismatch s = Some k →
  insert_filenames filenames s = (Return (), s0, ws) →
  maintain_sorting s0 = (Return (), s1, []) →
  reduce py_min (heads_of_nonempty (qname_to_queue s1)) = Some (Some c) →
  ¬ Forall (λ elt, elt = Some c) (heads_of_nonempty (qname_to_queue s1)) →
  c ≠ k →
  match_filenames getsize py_int filenames now s
  = (Raise (MismatchException c k), s1, ws)
  ∧ last_mismatch s1 = Some k.
Proof.
  intros [_ Hek]%reachable_invariants Hlm Hins Hmaint Hmin Hne Hck.
  assert (last_mismatch s0 = Some k ∧ tracked_at_heads s0) as [Hlm0 Hek0].
  { pose proof (insert_filenames_spec filenames
      (λ s', last_mismatch s' = last_mismatch s
             ∧ (tracked_at_heads s → tracked_at_heads s'))) as H.
    eapply H in Hins as [[E1 E2] _]; [split; [congruence|auto]| |done].
    intros f s2 r s2' ws2 [E1 E2] Hrun.
    apply insert_filename_spec in Hrun as (_ & E3 & _ & E4).
    split; [congruence|auto]. }
  pose proof (maintain_sorting_spec _ _ _ _ Hmaint)
    as (_ & _ & Hlm1 & _ & Hek1).
  rewrite Hlm0 in Hlm1. specialize (Hek1 Hek0). split; [|done].
  destruct (Hek1 k Hlm1) as [Hheads Hempty].
  rewrite (heads_of_nonempty_all _ Hheads) in Hmin, Hne.
  assert (k ≠ "") as Hk.
  { intros ->. apply Hck. eapply reduce_min_empty_key; [done|].
    specialize (Hempty eq_refl).
    apply Exists_exists in Hempty as (kq & ? & Hh).
    rewrite <- Hh. unfold first_elts_of. apply list_elem_of_fmap.
    by exists kq. }
  pose proof (check_and_pop_mismatches_raises _ now s1 k c
                Hlm1 Hk Hmin Hne Hck) as Hcheck.
  unfold match_filenames. unfold bind at 1. rewrite Hins.
  unfold bind at 1. rewrite Hmaint.
  unfold bind at 1, collect_matches. unfold bind at 1, get at 1.
  unfold bind at 1, get_matching_first_entry.
  unfold bind at 1, get at 1. unfold bind at 1. rewrite Hcheck.
  by rewrite app_nil_r.
Qed.
End Matching.

(** ** Eviction *)

Lemma below_Some (next_elt : option string) (d : string) :
  below next_elt d → ∃ next_key, next_elt = Some next_key ∧ str_lt d next_key.
Proof. destruct next_elt as [nk|]; [|done]. intros H. by exists nk. Qed.

Local Ltac nothing_evicted :=
  run_monad; intros [= <- <- <-];
  split; [apply queues_shrink_refl | constructor].

(** C5. Whatever [check_and_pop_mismatches] pops from a queue, and whatever
    it logs as discarded, is strictly below [next_elt], the smallest first
    element once one occurrence of the current minimum is left out; a key
    that is not below it is never discarded. *)
Theorem C5_eviction_below_next_key (first_elts : list (option string))
    (now : float) (s s' : Feeder) (r : outcome (option string))
    (ws : list warning) :
  check_and_pop_mismatches first_elts now s = (r, s', ws) →
  queues_shrink (below_next_key first_elts)
    (qname_to_queue s) (qname_to_queue s')
  ∧ Forall (λ w, ∃ discard qname,
                w = WarnDiscard discard qname
                ∧ below_next_key first_elts discard) ws.
Proof.
  unfold check_and_pop_mismatches.
  destruct first_elts as [|comp_elt others]; [nothing_evicted|].
  destruct (bool_decide (comp_elt ≠ None) && _); [nothing_evicted|].
  unfold below_next_key, next_key_of.
  destruct (reduce py_min (comp_elt :: others)) as [[cur|]|] eqn:Hmin;
    [|nothing_evicted..].
  unfold bind at 1, get at 1.
  destruct (truthy (last_mismatch s)); [|nothing_evicted].
  destruct (bool_decide (last_mismatch s ≠ Some cur)); [nothing_evicted|].
  destruct (last_mismatch_time s) as [t|]; [|nothing_evicted].
  destruct (PrimFloat.ltb (mismatch_wait_time s) (PrimFloat.sub now t));
    [|nothing_evicted].
  destruct (next_elt_of cur (comp_elt :: others)) as [next_elt|e|];
    [|nothing_evicted..].
  destruct (pop_loop _ next_elt (qname_to_queue s)) as [[qs ws0]|] eqn:Hloop;
    [|nothing_evicted].
  apply pop_loop_spec in Hloop as [Hsh Hws].
  run_monad. intros [= <- <- <-]. simpl. split.
  - eapply queues_shrink_weaken; [|done]. apply below_Some.
  - rewrite !app_nil_r. eapply Forall_impl; [done|].
    intros w (d & q & -> & Hd). exists d, q. split; [done|].
    by apply below_Some.
Qed.

(** ** A mismatch on the empty key *)

Lemma heads_with_empty_key (qs : list (string * list string)) :
  Forall (λ kq, kq.2 ≠ []) qs →
  Exists (λ kq, head kq.2 = Some "") qs →
  reduce py_min (first_elts_of qs) = Some (Some "").
Proof.
  intros Hne Hex.
  destruct (reduce py_min (first_elts_of qs)) as [m|] eqn:Hmin.
  2:{ destruct Hex; done. }
  pose proof (reduce_min_elem_of _ _ Hmin) as Hin.
  unfold first_elts_of in Hin.
  apply list_elem_of_fmap in Hin as (kq & -> & Hkq).
  rewrite Forall_forall in Hne. specialize (Hne _ Hkq).
  destruct (kq.2) as [|c q] eqn:E; [done|]. simpl in *.
  f_equal. f_equal. eapply reduce_min_empty_key; [done|].
  apply Exists_exists in Hex as (kq' & Hkq' & Hh). rewrite <- Hh.
  unfold first_elts_of. apply list_elem_of_fmap. by exists kq'.
Qed.

(** C10 (as amended). When every queue has a head, the heads are not all
    equal, the smallest head is the empty string and the tracker holds
    nothing or the empty string, [check_and_pop_mismatches] records the
    mismatch anew with the current time, whatever the time is: the queues
    are untouched, nothing is logged, and the object it leaves satisfies
    the same conditions, so that the comparison with the grace period and
    the eviction are not reached on the following calls either. *)
Theorem C10_empty_key_mismatch_is_rerecorded (now : float) (s : Feeder) :
  Forall (λ kq, kq.2 ≠ []) (qname_to_queue s) →
  Exists (λ kq, head kq.2 = Some "") (qname_to_queue s) →
  Exists (λ kq, head kq.2 ≠ Some "") (qname_to_queue s) →
  last_mismatch s = None ∨ last_mismatch s = Some "" →
  let s' := set_mismatch (Some "") (Some now) s in
  check_and_pop_mismatches (first_elts_of (qname_to_queue s)) now s
  = (Return None, s', [])
  ∧ get_matching_first_entry now s = (Return None, s', [])
  ∧ qname_to_queue s' = qname_to_queue s
  ∧ last_mismatch s' = Some "".
Proof.
  intros Hne Hex Hdiff Hlm s'.
  pose proof (heads_with_empty_key _ Hne Hex) as Hmin.
  assert (¬ Forall (λ elt, elt = Some "")
              (first_elts_of (qname_to_queue s))) as Hnall.
  { intros Hall. apply Exists_exists in Hdiff as (kq & Hkq & Hh).
    apply Hh. rewrite Forall_forall in Hall. apply Hall.
    unfold first_elts_of. apply list_elem_of_fmap. by exists kq. }
  assert (check_and_pop_mismatches (first_elts_of (qname_to_queue s)) now s
          = (Return None, s', [])) as Hcheck.
  { destruct (not_all_equal _ _ Hmin Hnall)
      as (comp_elt & others & Hfe & Htest).
    unfold check_and_pop_mismatches. rewrite Hfe, Htest, <- Hfe, Hmin.
    unfold bind at 1, get at 1.
    assert (truthy (last_mismatch s) = false) as ->
      by (by destruct Hlm as [-> | ->]).
    done. }
  split_and!; try done.
  unfold get_matching_first_entry. unfold bind at 1, get at 1.
  unfold bind at 1. by rewrite Hcheck.
Qed.

(** ** The size filter *)

Section SizeFilter.
Variable getsize : string → option Z.

Lemma first_observed_size_cons (s : Feeder) (table : gmap (option string) Z)
    (f : string) (fs : list string) (size : Z) (q : option string) :
  getsize f = Some size →
  first_observed_size getsize (fname_to_qname_fcn s) table (f :: fs) q
  = first_observed_size getsize (fname_to_qname_fcn s)
      (match table !! fname_to_qname_fcn s (basename f) with
       | Some _ => table
       | None => <[fname_to_qname_fcn s (basename f) := size]> table
       end) fs q.
Proof.
  intros Hsize. unfold first_observed_size. simpl.
  destruct (table !! fname_to_qname_fcn s (basename f)) as [e|] eqn:Hq.
  - destruct (table !! q) as [e'|] eqn:Hq'; [done|].
    case_decide as E; [congruence|].
    by destruct (list_find _ fs) as [[i g]|].
  - destruct (decide (fname_to_qname_fcn s (basename f) = q)) as [E|E].
    + subst q. by rewrite Hq, lookup_insert_eq.
    + rewrite lookup_insert_ne; [|done].
      destruct (table !! q); [done|].
      by destruct (list_find _ fs) as [[i g]|].
Qed.

Lemma fold_check_size_spec (fs : list string) :
  ∀ (acc filtered : list (option string)) (s s' : Feeder)
    (table : gmap (option string) Z) (ws : list warning),
    qname_to_expected_size s = Some table →
    fold_each fs acc (check_size getsize) s = (Return filtered, s', ws) →
    (∃ table',
       s' = set_qname_to_expected_size (Some table') s
       ∧ ∀ q, table' !! q = first_observed_size getsize (fname_to_qname_fcn s) table fs q)
    ∧ (∀ tp, tp ∈ acc → tp ∈ filtered)
    ∧ (∀ f size,
         f ∈ fs → getsize f = Some size →
         first_observed_size getsize (fname_to_qname_fcn s) table fs
           (fname_to_qname_fcn s (basename f)) ≠ Some size →
         fname_to_timepoint_fcn s (basename f) ∈ filtered).
Proof.
  induction fs as [|f fs IH]; intros acc filtered s s' table ws Ht; simpl.
  - intros [= <- <- <-]. split_and!.
    + exists table. split; [destruct s; simpl in *; by subst|].
      intros q. unfold first_observed_size. simpl. by destruct (table !! q).
    + done.
    + intros f size Hf. by apply elem_of_nil in Hf.
  - unfold bind at 1. unfold check_size at 1. run_monad. rewrite Ht.
    destruct (getsize f) as [size|] eqn:Hsize; [|done].
    set (q := fname_to_qname_fcn s (basename f)).
    set (table1 := match table !! q with
                   | Some _ => table
                   | None => <[q:=size]> table
                   end).
    set (s1 := set_qname_to_expected_size (Some table1) s).
    assert (∀ acc1 ws1,
              fold_each fs acc1 (check_size getsize) s1
              = (Return filtered, s', ws1) →
              (∀ tp, tp ∈ acc → tp ∈ acc1) →
              (bool_decide (size ≠ default size (table !! q)) = true →
               fname_to_timepoint_fcn s (basename f) ∈ acc1) →
              (∃ table',
                 s' = set_qname_to_expected_size (Some table') s
                 ∧ ∀ q0, table' !! q0
                         = first_observed_size getsize (fname_to_qname_fcn s) table (f :: fs) q0)
              ∧ (∀ tp, tp ∈ acc → tp ∈ filtered)
              ∧ (∀ f0 size0,
                   f0 ∈ f :: fs → getsize f0 = Some size0 →
                   first_observed_size getsize (fname_to_qname_fcn s) table (f :: fs)
                     (fname_to_qname_fcn s (basename f0)) ≠ Some size0 →
                   fname_to_timepoint_fcn s (basename f0) ∈ filtered))
      as Hstep.
    { intros acc1 ws1 Hrest Hacc Hmis.
      apply (IH _ _ _ _ table1) in Hrest
        as ((table' & -> & Htab) & Hsub & Hfs); [|done].
      subst s1. simpl in Htab, Hfs.
      split_and!.
      - exists table'. split; [done|]. intros q0.
        rewrite Htab. symmetry. by apply first_observed_size_cons.
      - auto.
      - intros f0 size0 [->|Hf0]%elem_of_cons Hs0 Hne.
        + apply Hsub, Hmis. apply bool_decide_eq_true.
          assert (size0 = size) as -> by congruence. intros E.
          apply Hne. unfold first_observed_size. fold q. simpl.
          destruct (table !! q) as [e|]; simpl in E; [congruence|].
          rewrite decide_True; done.
        + apply (Hfs f0 size0 Hf0 Hs0).
          rewrite (first_observed_size_cons _ _ _ _ _ _ Hsize) in Hne.
          exact Hne. }
    destruct (bool_decide (size ≠ default size (table !! q))) eqn:Hb.
    + destruct (fold_each fs _ (check_size getsize) _)
        as [[r2 s2] w2] eqn:Hrest.
      intros [= -> <- <-]. eapply Hstep; [exact Hrest| |].
      * intros tp Htp. apply elem_of_app. by left.
      * intros _. apply elem_of_app. right. left.
    + destruct (fold_each fs _ (check_size getsize) _)
        as [[r2 s2] w2] eqn:Hrest.
      intros [= -> <- <-]. eapply Hstep; [exact Hrest|done|done].
Qed.

(** C7. With the size filter on, a filename of the batch whose size
    differs from the first size observed for its stream is not in the
    list that [filter_size_mismatch_files] returns, and neither is any
    filename with the same timepoint key, whatever its stream; the size
    table then holds the first size observed for every stream. *)
Theorem C7_size_mismatch_excluded (filenames result : list string)
    (s s' : Feeder) (table : gmap (option string) Z) (ws : list warning)
    (f : string) (size : Z) :
  qname_to_expected_size s = Some table →
  filter_size_mismatch_files getsize filenames s = (Return result, s', ws) →
  f ∈ filenames →
  getsize f = Some size →
  first_observed_size getsize (fname_to_qname_fcn s) table filenames
    (fname_to_qname_fcn s (basename f)) ≠ Some size →
  (f ∉ result)
  ∧ (∀ g, fname_to_timepoint_fcn s (basename g)
          = fname_to_timepoint_fcn s (basename f) → g ∉ result)
  ∧ ∃ table',
      qname_to_expected_size s' = Some table'
      ∧ ∀ q, table' !! q = first_observed_size getsize (fname_to_qname_fcn s) table filenames q.
Proof.
  intros Ht Hrun Hf Hsize Hne. revert Hrun.
  unfold filter_size_mismatch_files. unfold bind at 1.
  destruct (fold_each filenames [] (check_size getsize) s)
    as [[r1 s1] w1] eqn:Hfold.
  destruct r1 as [filtered|e|]; [|done..].
  apply (fold_check_size_spec _ _ _ _ _ table) in Hfold
    as ((table' & -> & Htab) & _ & Hmis); [|done].
  specialize (Hmis f size Hf Hsize Hne).
  run_monad. destruct filtered as [|tp0 filtered].
  { by apply elem_of_nil in Hmis. }
  intros [= <- <- <-]. simpl.
  assert (∀ g, fname_to_timepoint_fcn s (basename g)
               = fname_to_timepoint_fcn s (basename f) →
               g ∉ filter (λ filename,
                      fname_to_timepoint_fcn s (basename filename)
                        ∉ tp0 :: filtered) filenames) as Hexcl.
  { intros g Hg [Hin _]%list_elem_of_filter. apply Hin. by rewrite Hg. }
  split_and!; [by apply Hexcl|exact Hexcl|by exists table'].
Qed.
End SizeFilter.

(** ** Filenames that are skipped *)

Lemma bind_state_cong {A B} (m1 m2 : M A) (f : A → M B) (s : Feeder) :
  (m1 s).1 = (m2 s).1 → (bind m1 f s).1 = (bind m2 f s).1.
Proof.
  unfold bind. destruct (m1 s) as [[r1 s1] w1], (m2 s) as [[r2 s2] w2].
  simpl. intros [= -> ->]. destruct r2 as [a|e|]; [|done..].
  by destruct (f a s2) as [[r3 s3] w3].
Qed.

Lemma insert_filename_extractors (filename : string) (s s' : Feeder)
    (r : outcome unit) (ws : list warning) :
  insert_filename filename s = (r, s', ws) →
  fname_to_qname_fcn s' = fname_to_qname_fcn s
  ∧ fname_to_timepoint_fcn s' = fname_to_timepoint_fcn s.
Proof.
  unfold insert_filename. run_monad.
  destruct (fname_to_qname_fcn s filename) as [qname|];
    [|by intros [= <- <- <-]].
  destruct (fname_to_timepoint_fcn s filename) as [tpname|];
    [|by intros [= <- <- <-]].
  destruct (alist_lookup qname (qname_to_queue s)); by intros [= <- <- <-].
Qed.

Lemma insert_filename_skip (f : string) (s : Feeder) :
  fname_to_qname_fcn s f = None ∨ fname_to_timepoint_fcn s f = None →
  ∃ w, insert_filename f s = (Return (), s, [w])
       ∧ (w = WarnNoQueueName f ∨ w = WarnNoTimepoint f).
Proof.
  intros H. unfold insert_filename. run_monad.
  destruct (fname_to_qname_fcn s f) as [qname|]; [|by eauto].
  destruct H as [|H]; [done|]. rewrite H. by eauto.
Qed.

Lemma insert_filenames_skip (f : string) (fs1 fs2 : list string) (s : Feeder) :
  fname_to_qname_fcn s f = None ∨ fname_to_timepoint_fcn s f = None →
  (insert_filenames (fs1 ++ f :: fs2) s).1
  = (insert_filenames (fs1 ++ fs2) s).1.
Proof.
  unfold insert_filenames. revert s.
  induction fs1 as [|x fs1 IH]; intros s Hf; simpl.
  - destruct (insert_filename_skip f s Hf) as (w & Hw & _).
    unfold bind. rewrite Hw.
    by destruct (for_each fs2 insert_filename s) as [[r2 s2] w2].
  - unfold bind. destruct (insert_filename x s) as [[r1 s1] w1] eqn:Hx.
    destruct r1 as [[]|e|]; [|done..].
    apply insert_filename_extractors in Hx as [Eq Et].
    specialize (IH s1). rewrite Eq, Et in IH. specialize (IH Hf).
    destruct (for_each (fs1 ++ f :: fs2) insert_filename s1) as [[r2 s2] w2].
    destruct (for_each (fs1 ++ fs2) insert_filename s1) as [[r3 s3] w3].
    simpl in *. by injection IH as -> ->.
Qed.

(** C2 (as amended). A filename for which the extractor gives no stream
    identifier, or no timepoint key, is skipped with one warning: the
    insertion step leaves the object as it is, raises nothing, and the
    call ends with the same outcome and the same object as the call on the
    batch without that filename. A stream identifier that is given but
    not configured is another matter: the lookup of its queue raises. *)
Theorem C2_unresolvable_filename_skipped (getsize py_int : string → option Z)
    (fs1 fs2 : list string) (f : string) (now : float) (s : Feeder) :
  fname_to_qname_fcn s f = None ∨ fname_to_timepoint_fcn s f = None →
  (∃ w, insert_filename f s = (Return (), s, [w])
        ∧ (w = WarnNoQueueName f ∨ w = WarnNoTimepoint f))
  ∧ (match_filenames getsize py_int (fs1 ++ f :: fs2) now s).1
    = (match_filenames getsize py_int (fs1 ++ fs2) now s).1.
Proof.
  intros Hf. split; [by apply insert_filename_skip|].
  unfold match_filenames. by apply bind_state_cong, insert_filenames_skip.
Qed.

(** ** The sequence check *)

Lemma get_matching_first_entry_cursor (now : float) (tp : option Z) (s : Feeder) :
  get_matching_first_entry now (set_last_timepoint tp s)
  = let '(r, s', ws) := get_matching_first_entry now s in
    (r, set_last_timepoint tp s', ws).
Proof.
  unfold get_matching_first_entry, check_and_pop_mismatches. run_monad.
  cbn [qname_to_queue last_mismatch last_mismatch_time mismatch_wait_time
       set_last_timepoint].
  destruct (first_elts_of (qname_to_queue s)) as [|c o]; [done|].
  repeat (case_match; simplify_eq/=; try done).
Qed.

(** C8 (a defect of the code). The module docstring gives [foo_abc.txt]
    and [bar_abc] as files that match. On the feeder that [main] builds
    for the streams foo and bar, the sequence check being on as it is by
    default, the call that receives both files matches the key abc and
    pops it from both queues; [check_sequence] then hands the key to
    [int], unguarded, and the [ValueError] leaves [match_filenames]. No
    filename is returned, the queues are empty afterwards, and the next
    call returns nothing either: the pair is released by no call. *)
Theorem C8_matched_key_rejected_by_int (now now' : float) :
  let run := run_match ["foo_abc.txt"; "bar_abc"] now foo_bar in
  run.1.1 = Raise (ValueError_int "abc")
  ∧ run.2 = []
  ∧ qname_to_queue run.1.2 = [("foo", []); ("bar", [])]
  ∧ (run_match [] now' run.1.2).1.1 = Return [].
Proof. split_and!; vm_compute; reflexivity. Qed.

(** ** Eviction ends the matching pass *)

Local Ltac nothing_logged :=
  run_monad; intros [= <- <- <-]; by left.

Lemma check_and_pop_mismatches_log (first_elts : list (option string))
    (now : float) (s s' : Feeder) (r : outcome (option string))
    (ws : list warning) :
  check_and_pop_mismatches first_elts now s = (r, s', ws) →
  ws = [] ∨ r = Return None.
Proof.
  unfold check_and_pop_mismatches.
  destruct first_elts as [|comp_elt others]; [nothing_logged|].
  destruct (bool_decide (comp_elt ≠ None) && _); [nothing_logged|].
  destruct (reduce py_min (comp_elt :: others)) as [[cur|]|];
    [|nothing_logged..].
  unfold bind at 1, get at 1.
  destruct (truthy (last_mismatch s)); [|nothing_logged].
  destruct (bool_decide (last_mismatch s ≠ Some cur)); [nothing_logged|].
  destruct (last_mismatch_time s) as [t|]; [|nothing_logged].
  destruct (PrimFloat.ltb (mismatch_wait_time s) (PrimFloat.sub now t));
    [|nothing_logged].
  destruct (next_elt_of cur (comp_elt :: others)) as [next_elt|e|];
    [|nothing_logged..].
  destruct (pop_loop _ next_elt (qname_to_queue s)) as [[qs ws0]|];
    [|nothing_logged].
  run_monad. intros [= <- <- <-]. by right.
Qed.

(** C1 (as amended). A call of [get_matching_first_entry] that evicts a key
    reports no match, and on that answer the matching loop stops without
    looking at the queues again: what the eviction has made to match is
    left for the next call of [match_filenames]. In scenario B the call
    made once the grace period is over evicts 02 from [img], returns no
    filename and leaves 03 at the head of both queues; the call after it
    returns the two filenames of 03. *)
Theorem C1_eviction_ends_matching_pass :
  (∀ (py_int : string → option Z) (now : float) (s s' : Feeder)
     (r : outcome (option string)) (ws : list warning)
     (discard qname : string),
     get_matching_first_entry now s = (r, s', ws) →
     WarnDiscard discard qname ∈ ws →
     r = Return None
     ∧ ∀ fuel dcs ms,
         matching_loop py_int fuel dcs now None ms s' = (Return ms, s', []))
  ∧ (run_match [] 6 scenarioB_1).1.1 = Return []
  ∧ (run_match [] 6 scenarioB_1).2 = [WarnDiscard "02" "img"]
  ∧ qname_to_queue scenarioB_2 = [("img", ["03"]); ("behav", ["03"])]
  ∧ (run_match [] 7 scenarioB_2).1.1 = Return ["behav_03"; "img_03"].
Proof.
  split_and!; try (vm_compute; reflexivity).
  intros py_int now s s' r ws discard qname Hrun Hin. split.
  - revert Hrun. unfold get_matching_first_entry.
    unfold bind at 1, get at 1. unfold bind at 1.
    destruct (check_and_pop_mismatches _ now s) as [[r1 s1] w1] eqn:Hc.
    apply check_and_pop_mismatches_log in Hc as [-> | ->].
    + destruct r1 as [[k|]|e|]; run_monad.
      * destruct (popleft_all (qname_to_queue s1)) as [qs []];
          intros [= <- <- <-]; by apply elem_of_nil in Hin.
      * intros [= <- <- <-]; by apply elem_of_nil in Hin.
      * intros [= <- <- <-]; by apply elem_of_nil in Hin.
      * intros [= <- <- <-]; by apply elem_of_nil in Hin.
    + run_monad. by intros [= <- <- <-].
  - intros fuel dcs ms. by destruct fuel.
Qed.

(** ** The documented scenarios *)

(** C9. On a fresh feeder for the streams [img] and [behav], one call with
    the six filenames of the keys 01, 02 and 03 returns all six, in
    lexicographic order, and leaves both queues and the index empty. *)
Theorem C9_scenario_A (now : float) :
  (run_match scenarioA_batch now img_behav).1.1
  = Return ["behav_01"; "behav_02"; "behav_03"; "img_01"; "img_02"; "img_03"]
  ∧ qname_to_queue (run_match scenarioA_batch now img_behav).1.2
    = [("img", []); ("behav", [])]
  ∧ keys_to_fullnames (run_match scenarioA_batch now img_behav).1.2 = ∅.
Proof. split_and!; vm_compute; reflexivity. Qed.

(** ** Where the design document and the code part *)

(** Against C1: in scenario B the first call leaves 02 and 03 in [img], 03
    in [behav] and tracks 02 since time 0; the call at time 6 evicts 02 and
    returns nothing, although 03 is then at the head of both queues. *)
Lemma C1_counterexample :
  qname_to_queue scenarioB_1 = [("img", ["02"; "03"]); ("behav", ["03"])]
  ∧ last_mismatch scenarioB_1 = Some "02"
  ∧ last_mismatch_time scenarioB_1 = Some 0%float
  ∧ run_match [] 6 scenarioB_1
    = (Return [], scenarioB_2, [WarnDiscard "02" "img"])
  ∧ qname_to_queue scenarioB_2 = [("img", ["03"]); ("behav", ["03"])].
Proof. split_and!; vm_compute; reflexivity. Qed.

(** Against C2: a filename whose stream identifier is resolved but not
    configured makes the call fail with [KeyError]. *)
Lemma C2_counterexample :
  fname_to_qname_fcn img_behav "zzz_01" = Some "zzz"
  ∧ (run_match ["zzz_01"] 0 img_behav).1.1 = Raise (KeyError_queue "zzz").
Proof. split; vm_compute; reflexivity. Qed.


(** Against C4: a call that fails on an unconfigured stream identifier
    leaves the keys inserted before the failure unsorted. *)
Lemma C4_counterexample :
  (run_match ["img_02"; "img_01"; "zzz_01"] 0 img_behav).1.1
  = Raise (KeyError_queue "zzz")
  ∧ qname_to_queue (run_match ["img_02"; "img_01"; "zzz_01"] 0 img_behav).1.2
    = [("img", ["02"; "01"]); ("behav", [])]
  ∧ is_sorted ["02"; "01"] = false.
Proof. split_and!; vm_compute; reflexivity. Qed.

(** Against C10: with 05 tracked, a file with the empty key arrives; every
    queue has a head, the heads differ and the smallest is the empty key,
    yet the check raises instead of recording the mismatch anew. *)
Lemma C10_counterexample :
  qname_to_queue scenarioE_2 = [("img", [""; "06"]); ("behav", ["05"])]
  ∧ last_mismatch scenarioE_2 = Some "05"
  ∧ check_and_pop_mismatches (first_elts_of (qname_to_queue scenarioE_2))
      100 scenarioE_2
    = (Raise (MismatchException "" "05"), scenarioE_2, []).
Proof. split_and!; vm_compute; reflexivity. Qed.

(** ** The theorems at work on the scenarios *)

Lemma scenarioB_1_reachable :
  reachable (getsize_const 100) int_of_digits scenarioB_1.
Proof.
  apply (reachable_match _ _ scenarioB_batch 0 img_behav
           (run_match scenarioB_batch 0 img_behav).1.1 scenarioB_1
           (run_match scenarioB_batch 0 img_behav).2).
  - apply reachable_init.
  - vm_compute. reflexivity.
Qed.


Lemma scenarioE_1_reachable :
  reachable (getsize_const 100) int_of_digits scenarioE_1.
Proof.
  apply (reachable_match _ _ ["img_06"; "behav_05"] 0 img_behav
           (run_match ["img_06"; "behav_05"] 0 img_behav).1.1 scenarioE_1
           (run_match ["img_06"; "behav_05"] 0 img_behav).2).
  - apply reachable_init.
  - vm_compute. reflexivity.
Qed.

Lemma C1_witness :
  (get_matching_first_entry 6 scenarioB_1).1.1 = Return None.
Proof.
  pose proof C1_eviction_ends_matching_pass as [H _].
  refine (proj1 (H int_of_digits 6%float scenarioB_1
                   (get_matching_first_entry 6 scenarioB_1).1.2
                   (get_matching_first_entry 6 scenarioB_1).1.1
                   (get_matching_first_entry 6 scenarioB_1).2
                   "02" "img" _ _)).
  - vm_compute. reflexivity.
  - vm_compute. left.
Defined.

Lemma C2_witness :
  known_prefix "notes.txt" = None
  ∧ (match_filenames (getsize_const 100) int_of_digits
       (["img_01"] ++ "notes.txt" :: ["behav_01"]) 0 img_behav_known).1
    = (match_filenames (getsize_const 100) int_of_digits
         (["img_01"] ++ ["behav_01"]) 0 img_behav_known).1.
Proof.
  split; [vm_compute; reflexivity|].
  refine (proj2 (C2_unresolvable_filename_skipped (getsize_const 100)
                   int_of_digits ["img_01"] ["behav_01"] "notes.txt" 0
                   img_behav_known _)).
  left. vm_compute. reflexivity.
Defined.


Lemma C4_witness :
  Forall (λ kq, is_sorted kq.2 = true ∧ NoDup kq.2)
    (qname_to_queue scenarioB_1).
Proof.
  apply (C4_queues_sorted_after_match (getsize_const 100) int_of_digits
           scenarioB_batch 0 img_behav scenarioB_1
           (Return ["behav_01"; "img_01"]) []).
  - vm_compute. reflexivity.
  - intros qname. discriminate.
Defined.

Lemma C5_witness :
  next_key_of [Some "02"; Some "03"] = Some "03"
  ∧ queues_shrink (below_next_key [Some "02"; Some "03"])
      [("img", ["02"; "03"]); ("behav", ["03"])]
      [("img", ["03"]); ("behav", ["03"])].
Proof.
  split; [vm_compute; reflexivity|].
  refine (proj1 (C5_eviction_below_next_key [Some "02"; Some "03"] 6
                   scenarioB_1 scenarioB_2 (Return None)
                   [WarnDiscard "02" "img"] _)).
  vm_compute. reflexivity.
Defined.

Lemma C6_witness :
  run_match ["img"] 1 scenarioE_1
  = (Raise (MismatchException "" "05"), scenarioE_2, [])
  ∧ last_mismatch scenarioE_2 = Some "05".
Proof.
  apply (C6_mismatch_change_is_fatal (getsize_const 100) int_of_digits
           ["img"] 1 scenarioE_1
           (insert_filenames ["img"] scenarioE_1).1.2 scenarioE_2 [] "05" "").
  - apply scenarioE_1_reachable.
  - vm_compute. reflexivity.
  - vm_compute. reflexivity.
  - vm_compute. reflexivity.
  - vm_compute. reflexivity.
  - vm_compute. intros H. inversion H as [|?? _ H']. inversion H' as [|?? E _].
    discriminate E.
  - discriminate.
Defined.

Lemma C7_witness :
  ("behav_02" ∉ ["behav_01"; "img_01"])
  ∧ ("img_02" ∉ ["behav_01"; "img_01"]).
Proof.
  pose proof (C7_size_mismatch_excluded getsize_short
                ["behav_01"; "behav_02"; "img_01"; "img_02"]
                ["behav_01"; "img_01"] img_behav_sized
                (filter_size_mismatch_files getsize_short
                   ["behav_01"; "behav_02"; "img_01"; "img_02"]
                   img_behav_sized).1.2
                ∅
                [WarnSizeMismatch "behav_02" (Some "02") 100 80]
                "behav_02" 80) as H.
  destruct H as (H1 & H2 & _).
  - vm_compute. reflexivity.
  - vm_compute. reflexivity.
  - vm_compute. right. left.
  - vm_compute. reflexivity.
  - vm_compute. discriminate.
  - split; [exact H1|]. apply H2. vm_compute. reflexivity.
Defined.

Lemma C10_witness :
  qname_to_queue scenarioF = [("img", [""; "02"]); ("behav", ["01"])]
  ∧ get_matching_first_entry 1000 scenarioF
    = (Return None, set_mismatch (Some "") (Some 1000%float) scenarioF, []).
Proof.
  split; [vm_compute; reflexivity|].
  refine (proj1 (proj2 (C10_empty_key_mismatch_is_rerecorded 1000 scenarioF
                          _ _ _ _))).
  - vm_compute. repeat constructor; discriminate.
  - vm_compute. left. reflexivity.
  - vm_compute. right. left. discriminate.
  - right. vm_compute. reflexivity.
Defined.

(** * Further properties of the code *)

(** ** The module-level helpers *)

(** X1. [is_sorted] answers [True] exactly on the strictly ascending
    sequences, so that a sequence it accepts has no key twice. *)
Theorem X1_is_sorted_strictly_ascending (l : list string) :
  (is_sorted l = true ↔ StronglySorted str_lt l)
  ∧ (is_sorted l = true → NoDup l).
Proof.
  assert (is_sorted l = true ↔ StronglySorted str_lt l) as H.
  { rewrite is_sorted_Sorted. split.
    - apply Sorted_str_lt_strongly.
    - apply StronglySorted_Sorted. }
  split; [exact H|]. intros Hs. by apply StronglySorted_str_lt_NoDup, H.
Qed.

Lemma unique_from_no_repeats (seen : string) (l : list string) :
  no_repeats (seen :: unique_from seen l).
Proof.
  unfold no_repeats. revert seen.
  induction l as [|y l IH]; intros seen; simpl.
  - repeat constructor.
  - case_decide as E; [apply IH|].
    constructor; [apply IH|]. constructor. congruence.
Qed.

Lemma unique_from_sublist (seen : string) (l : list string) :
  unique_from seen l `sublist_of` l.
Proof.
  revert seen. induction l as [|y l IH]; intros seen; simpl; [done|].
  case_decide; [apply sublist_cons|apply sublist_skip]; apply IH.
Qed.

Lemma unique_from_fixed (seen : string) (l : list string) :
  no_repeats (seen :: l) → unique_from seen l = l.
Proof.
  unfold no_repeats. revert seen.
  induction l as [|y l IH]; intros seen Hs; simpl; [done|].
  inversion Hs as [|?? Hs' Hh]; subst. inversion Hh; subst.
  rewrite decide_False; [|congruence]. f_equal. by apply IH.
Qed.

(** X2. [unique_justseen] keeps the order and the elements of its argument
    and leaves no element followed by an equal one; a sequence that has no
    such repetition comes back unchanged. *)
Theorem X2_unique_justseen (l : list string) :
  no_repeats (unique_justseen l)
  ∧ unique_justseen l `sublist_of` l
  ∧ (∀ x, x ∈ unique_justseen l ↔ x ∈ l)
  ∧ (no_repeats l → unique_justseen l = l).
Proof.
  split_and!.
  - destruct l as [|x l]; simpl; [constructor|].
    apply unique_from_no_repeats.
  - destruct l as [|x l]; simpl; [done|].
    apply sublist_skip, unique_from_sublist.
  - intros x. apply unique_justseen_elem_of.
  - destruct l as [|x l]; simpl; [done|]. intros Hs. f_equal.
    by apply unique_from_fixed.
Qed.

Lemma strictly_sorted_unique (l1 l2 : list string) :
  StronglySorted str_lt l1 → StronglySorted str_lt l2 →
  (∀ x, x ∈ l1 ↔ x ∈ l2) → l1 = l2.
Proof.
  intros H1 H2 Hsame. apply (StronglySorted_unique_strong str_lt); try done.
  - intros x1 x2 _ _ H12 H21. destruct (str_lt_irrefl x1). by etrans.
  - apply NoDup_Permutation; auto using StronglySorted_str_lt_NoDup.
Qed.

(** X3. The "maintain sorting and dedup" step gives a strictly ascending
    queue with the keys of the queue it was given, whatever their order and
    multiplicity: two queues with the same keys come out equal, a queue
    that is already strictly ascending comes out unchanged, and the step
    applied twice does what it does once. *)
Theorem X3_maintain_queue_canonical (q1 q2 : list string) :
  (∀ x, x ∈ q1 ↔ x ∈ q2) →
  maintain_queue q1 = maintain_queue q2
  ∧ StronglySorted str_lt (maintain_queue q1)
  ∧ (∀ x, x ∈ maintain_queue q1 ↔ x ∈ q1)
  ∧ maintain_queue (maintain_queue q1) = maintain_queue q1
  ∧ (is_sorted q2 = true → maintain_queue q1 = q2).
Proof.
  intros Hsame.
  assert (∀ q, StronglySorted str_lt (maintain_queue q)) as Hs
    by (intros q; apply Sorted_str_lt_strongly, maintain_queue_Sorted).
  split_and!.
  - apply strictly_sorted_unique; [done..|]. intros x.
    by rewrite !maintain_queue_elem_of.
  - done.
  - intros x. apply maintain_queue_elem_of.
  - apply strictly_sorted_unique; [done..|]. intros x.
    by rewrite !maintain_queue_elem_of.
  - intros Hq2. apply strictly_sorted_unique; [done| |].
    + by apply Sorted_str_lt_strongly, is_sorted_Sorted.
    + intros x. by rewrite maintain_queue_elem_of.
Qed.

(** ** The default key extractor *)

Lemma append_String (a : ascii) (s1 s2 : string) :
  String.append (String a s1) s2 = String a (String.append s1 s2).
Proof. reflexivity. Qed.

Lemma partition_first_spec (c : ascii) (s : string) :
  match partition_first c s with
  | Some (l, r) => s = String.append l (String c r) ∧ has_char c l = false
  | None => has_char c s = false
  end.
Proof.
  induction s as [|a s IH]; simpl; [done|].
  destruct (Ascii.eqb a c) eqn:E.
  - apply Ascii.eqb_eq in E as ->. done.
  - destruct (partition_first c s) as [[l r]|]; simpl.
    + destruct IH as [IH1 IH2]. rewrite IH2, E, append_String, <- IH1. done.
    + done.
Qed.

Lemma has_char_append (c : ascii) (s1 s2 : string) :
  has_char c (String.append s1 s2) = has_char c s1 || has_char c s2.
Proof.
  induction s1 as [|a s1 IH]; [done|].
  rewrite append_String. simpl. by rewrite IH, orb_assoc.
Qed.

(** X4. The default extractor splits the base name without its extension
    at the first delimiter: the prefix has no delimiter in it and prefix,
    delimiter and postfix put together give that name back; a name without
    delimiter is all prefix, with the empty postfix. *)
Theorem X4_prefix_postfix_round_trip (filename : string) (delim : ascii) :
  let bname := splitext_root (basename filename) in
  let prefix := (getFilenamePrefixAndPostfix filename delim).1 in
  let postfix := (getFilenamePrefixAndPostfix filename delim).2 in
  has_char delim prefix = false
  ∧ (has_char delim bname = true →
     bname = String.append prefix (String delim postfix))
  ∧ (has_char delim bname = false → prefix = bname ∧ postfix = "").
Proof.
  unfold getFilenamePrefixAndPostfix.
  pose proof (partition_first_spec delim (splitext_root (basename filename)))
    as H.
  destruct (partition_first delim (splitext_root (basename filename)))
    as [[l r]|]; simpl.
  - destruct H as [H1 H2]. split_and!; [done|done|].
    rewrite H1, has_char_append. simpl.
    rewrite Ascii.eqb_refl, orb_true_r. done.
  - split_and!; [done| |done]. by rewrite H.
Qed.

Lemma rpartition_last (c : ascii) (s1 s2 : string) :
  has_char c s2 = false →
  rpartition c (String.append s1 (String c s2)) = Some (s1, s2).
Proof.
  intros H2.
  assert (rpartition c s2 = None) as Hnone.
  { induction s2 as [|a s2 IH]; simpl in *; [done|].
    apply orb_false_iff in H2 as [Ha H2]. by rewrite (IH H2), Ha. }
  induction s1 as [|a s1 IH].
  - change (String.append "" (String c s2)) with (String c s2). simpl.
    by rewrite Hnone, Ascii.eqb_refl.
  - rewrite append_String. simpl. by rewrite IH.
Qed.

Lemma rpartition_absent (c : ascii) (s : string) :
  has_char c s = false → rpartition c s = None.
Proof.
  induction s as [|a s IH]; simpl; [done|].
  intros [Ha Hs]%orb_false_iff. by rewrite (IH Hs), Ha.
Qed.

Lemma all_dots_has_other (s : string) (a : ascii) :
  s ≠ "" → has_char "."%char s = false → all_dots s = false.
Proof.
  destruct s as [|b s]; [done|]. simpl. intros _ [Hb _]%orb_false_iff.
  by rewrite Hb.
Qed.

(** X5. Neither the directory nor the extension of a file matters to the
    default extractor: for a stem that is not empty and has neither slash
    nor dot, and an extension without slash and dot, the path
    [dir/stem.ext] is split as [stem] is. *)
Theorem X5_directory_and_extension_ignored (dir stem ext : string)
    (delim : ascii) :
  stem ≠ "" →
  has_char "/"%char stem = false → has_char "."%char stem = false →
  has_char "/"%char ext = false → has_char "."%char ext = false →
  getFilenamePrefixAndPostfix
    (String.append dir (String "/"%char
       (String.append stem (String "."%char ext)))) delim
  = getFilenamePrefixAndPostfix stem delim.
Proof.
  intros Hne Hs1 Hs2 He1 He2.
  assert (basename stem = stem) as Hb
    by (unfold basename; by rewrite rpartition_absent).
  assert (basename (String.append dir (String "/"%char
            (String.append stem (String "."%char ext))))
          = String.append stem (String "."%char ext)) as Hp.
  { unfold basename. rewrite rpartition_last; [done|].
    rewrite has_char_append. simpl. by rewrite Hs1, He1. }
  assert (splitext_root (String.append stem (String "."%char ext)) = stem)
    as Hr.
  { unfold splitext_root. rewrite rpartition_last; [|done].
    by rewrite (rpartition_absent _ ext He1), Hb,
      (all_dots_has_other stem "."%char Hne Hs2). }
  assert (splitext_root stem = stem) as Hr2
    by (unfold splitext_root; by rewrite (rpartition_absent _ stem Hs2)).
  unfold getFilenamePrefixAndPostfix. by rewrite Hp, Hr, Hb, Hr2.
Qed.

(** ** The exceptions of the mismatch check *)

Lemma list_remove_first_Some {A} `{EqDecision A} (x : A) (l : list A) :
  x ∈ l → ∃ l', list_remove_first x l = Some l' ∧ length l = S (length l').
Proof.
  induction l as [|y l IH]; simpl; [by intros ?%elem_of_nil|].
  intros Hin. case_decide as E; [by eauto|].
  apply elem_of_cons in Hin as [->|Hin]; [done|].
  destruct (IH Hin) as (l' & -> & Hlen). simpl. eexists. split; [done|].
  simpl. by rewrite Hlen.
Qed.

Lemma next_elt_of_returns (cur : string) (comp_elt : option string)
    (others : list (option string)) :
  reduce py_min (comp_elt :: others) = Some (Some cur) →
  bool_decide (comp_elt ≠ None)
    && forallb (λ elt, bool_decide (elt = comp_elt)) others = false →
  ∃ next_elt, next_elt_of cur (comp_elt :: others) = Return next_elt.
Proof.
  intros Hmin Htest.
  destruct (list_remove_first_Some (Some cur) (comp_elt :: others))
    as (l' & Hrem & Hlen); [by apply reduce_min_elem_of|].
  unfold next_elt_of. rewrite Hrem.
  destruct l' as [|y l']; [|by eexists].
  destruct others; [|done]. simpl in Hmin. injection Hmin as ->.
  done.
Qed.

Local Ltac tracker_kept :=
  run_monad; intros [= <- <- <-]; split; [done|by intros ? [= <-]].

Lemma check_and_pop_mismatches_outcome (first_elts : list (option string))
    (now : float) (s s' : Feeder) (r : outcome (option string))
    (ws : list warning) :
  tracker_timed s →
  check_and_pop_mismatches first_elts now s = (r, s', ws) →
  tracker_timed s' ∧ ∀ e, r = Raise e → mismatch_exn first_elts e.
Proof.
  intros Htimed. unfold check_and_pop_mismatches.
  destruct first_elts as [|comp_elt others]; [tracker_kept|].
  destruct (bool_decide (comp_elt ≠ None) && _) eqn:Htest.
  { run_monad. intros [= <- <- <-]. split; [|done]. by intros [? [=]]. }
  destruct (reduce py_min (comp_elt :: others)) as [[cur|]|] eqn:Hmin;
    [| |done].
  2:{ run_monad. intros [= <- <- <-]. split; [|done]. by intros [? [=]]. }
  unfold bind at 1, get at 1.
  destruct (truthy (last_mismatch s)) eqn:Htruthy.
  2:{ run_monad. intros [= <- <- <-]. split; [|done]. by eexists. }
  destruct (bool_decide (last_mismatch s ≠ Some cur)); [tracker_kept|].
  destruct (last_mismatch_time s) as [t|] eqn:Ht.
  2:{ unfold tracker_timed in Htimed. rewrite Ht in Htimed.
      destruct (last_mismatch s) as [k|]; [|done].
      destruct Htimed as [? [=]]. by eexists. }
  destruct (PrimFloat.ltb (mismatch_wait_time s) (PrimFloat.sub now t));
    [|tracker_kept].
  destruct (next_elt_of_returns cur comp_elt others Hmin Htest)
    as [next_elt ->].
  destruct (pop_loop_fuel (S (total_len (qname_to_queue s))) next_elt
              (qname_to_queue s)) as [[qs ws0] ->]; [lia|].
  run_monad. intros [= <- <- <-]. split; [|done]. by intros [? [=]].
Qed.

Lemma get_matching_first_entry_outcome (now : float) (s s' : Feeder)
    (r : outcome (option string)) (ws : list warning) :
  tracker_timed s →
  get_matching_first_entry now s = (r, s', ws) →
  tracker_timed s'
  ∧ ∀ e, r = Raise e → mismatch_exn (first_elts_of (qname_to_queue s)) e.
Proof.
  intros Htimed. unfold get_matching_first_entry.
  unfold bind at 1, get at 1. unfold bind at 1.
  destruct (check_and_pop_mismatches _ now s) as [[r1 s1] w1] eqn:Hc.
  pose proof (check_and_pop_mismatches_outcome _ _ _ _ _ _ Htimed Hc)
    as [Htimed1 Hexn].
  apply check_and_pop_mismatches_spec in Hc
    as (_ & _ & _ & _ & Hmatched & _).
  destruct r1 as [[k|]|e|].
  - destruct (Hmatched k eq_refl) as (Hall & _ & Hqs & _).
    rewrite <- Hqs in Hall.
    destruct (popleft_all_matched k _ Hall) as [Hpop _].
    run_monad. rewrite Hpop. intros [= <- <- <-]. split; [|done].
    exact Htimed1.
  - run_monad. by intros [= <- <- <-].
  - run_monad. intros [= <- <- <-]. split; [done|]. intros ? [= <-]. eauto.
  - run_monad. by intros [= <- <- <-].
Qed.

(** ** What a call releases *)

Lemma queues_shrink_qnames (P : string → Prop)
    (old new : list (string * list string)) :
  queues_shrink P old new → map fst new = map fst old.
Proof.
  induction 1 as [|x y l l' [E _] Hl IH]; simpl; [done|]. by rewrite IH, E.
Qed.

Lemma qnames_elem_of (qs : list (string * list string)) (qname : string) :
  qname ∈ map fst qs → ∃ queue, (qname, queue) ∈ qs.
Proof.
  intros ([q l] & -> & Hin)%list_elem_of_fmap. by exists l.
Qed.

Lemma released_indexed_frame (ms : list string) (s s' : Feeder) :
  matching_frame s s' →
  queues_shrink (λ _, True) (qname_to_queue s) (qname_to_queue s') →
  released_indexed ms s → released_indexed ms s'.
Proof.
  intros (qs & m & t & tp & ->) Hsh Hrel qname k Hq Hk.
  unfold qnames_of in Hq. simpl in *.
  rewrite (queues_shrink_qnames _ _ _ Hsh) in Hq. by apply Hrel.
Qed.

Lemma released_indexed_app (ms1 ms2 : list string) (s : Feeder) :
  released_indexed ms1 s → released_indexed ms2 s →
  released_indexed (ms1 ++ ms2) s.
Proof. intros H1 H2 q m Hq [?|?]%elem_of_app; auto. Qed.

Lemma released_indexed_heads (k : string) (s : Feeder) :
  index_covers s →
  Forall (λ kq, kq.2 = k :: tail kq.2) (qname_to_queue s) →
  released_indexed [k] s.
Proof.
  intros Hcov Hall qname m Hq ->%list_elem_of_singleton.
  apply qnames_elem_of in Hq as [queue Hin].
  rewrite Forall_forall in Hall. specialize (Hall _ Hin). simpl in Hall.
  apply (Hcov qname queue); [done|]. rewrite Hall. left.
Qed.

Section Release.
Variable getsize : string → option Z.
Variable py_int : string → option Z.

Lemma matching_loop_released (fuel : nat) (dcs : bool) (now : float) :
  ∀ (matching : option string) (ms : list string) (s s' : Feeder)
    (r : outcome (list string)) (ws : list warning),
    matching_loop py_int fuel dcs now matching ms s = (r, s', ws) →
    tracker_timed s →
    index_covers s →
    qname_to_queue s ≠ [] →
    all_sorted (qname_to_queue s) →
    all_above (ms ++ option_list matching) (qname_to_queue s) →
    StronglySorted str_lt (ms ++ option_list matching) →
    released_indexed (ms ++ option_list matching) s →
    tracker_timed s'
    ∧ (∀ e, r = Raise e →
         (∃ c k, e = MismatchException c k)
         ∨ (∃ k, e = ValueError_int k) ∧ dcs = true)
    ∧ (∀ ms', r = Return ms' →
         StronglySorted str_lt ms' ∧ released_indexed ms' s').
Proof.
  induction fuel as [|fuel IH];
    intros matching ms s s' r ws Hrun Htimed Hcov Hne Hsorted Hab Hss Hrel.
  - simpl in Hrun. destruct (truthy matching) eqn:Ht; revert Hrun;
      run_monad; intros [= <- <- <-]; split_and!; try done.
    intros ? [= <-]. split.
    + by apply StronglySorted_app_1_l in Hss.
    + intros q m Hq Hm. apply Hrel; [done|]. apply elem_of_app. by left.
  - simpl in Hrun. destruct (truthy matching) eqn:Ht.
    2:{ revert Hrun. run_monad. intros [= <- <- <-]. split_and!; try done.
        intros ? [= <-]. split.
        + by apply StronglySorted_app_1_l in Hss.
        + intros q m Hq Hm. apply Hrel; [done|]. apply elem_of_app.
          by left. }
    destruct matching as [m|]; [|done]. simpl in Hab, Hss, Hrel.
    revert Hrun. unfold bind at 1.
    destruct ((if dcs then check_sequence py_int m else ret ()) s)
      as [[r1 s1] w1] eqn:Hcs.
    assert ((∃ tp, s1 = set_last_timepoint tp s)
            ∧ (r1 = Return () ∨ r1 = Raise (ValueError_int m) ∧ dcs = true))
      as [[tp ->] Hr1].
    { destruct dcs.
      - apply check_sequence_spec in Hcs as [? [?|?]]; eauto.
      - revert Hcs. run_monad. intros [= <- <- <-]. split; [|by left].
        exists (last_timepoint s). by destruct s. }
    destruct Hr1 as [-> | [-> ->]].
    2:{ intros [= <- <- <-]. split_and!; try done.
        intros ? [= <-]. right. eauto. }
    unfold bind at 1.
    destruct (get_matching_first_entry now (set_last_timepoint tp s))
      as [[r2 s2] w2] eqn:Hget.
    pose proof (get_matching_first_entry_outcome now
                  (set_last_timepoint tp s) _ _ _ Htimed Hget)
      as [Htimed2 Hexn].
    apply get_matching_first_entry_spec in Hget
      as (Hfr & _ & Hsh & Hfuel & Hmatched & _).
    simpl in Hsh, Hmatched, Hexn.
    destruct r2 as [matching'|e|]; [| |done].
    2:{ intros [= <- <- <-]. split_and!; try done.
        intros ? [= <-]. specialize (Hexn e eq_refl).
        destruct e; try done; [|by eauto].
        exfalso. apply Hne. by destruct (qname_to_queue s). }
    destruct (matching_loop py_int fuel dcs now matching' (ms ++ [m]) s2)
      as [[r3 s3] w3] eqn:Hloop.
    intros [= <- <- <-].
    assert (index_covers s2) as Hcov2
      by (eapply index_covers_frame; [exact Hfr|exact Hsh|exact Hcov]).
    assert (qname_to_queue s2 ≠ []) as Hne2.
    { intros Hnil. apply Hne.
      pose proof (queues_shrink_qnames _ _ _ Hsh) as Hq.
      rewrite Hnil in Hq. simpl in Hq. by destruct (qname_to_queue s). }
    eapply (IH _ _ _ _ _ _ Hloop); try done.
    + by eapply all_sorted_shrink.
    + apply all_above_app; [by eapply all_above_shrink|].
      destruct matching' as [k|]; [|apply all_above_nil].
      destruct (Hmatched k eq_refl) as (Hall & _ & -> & _).
      by apply all_above_popped.
    + apply StronglySorted_app. split_and!; [|done|].
      * intros x1 x2 Hx1 Hx2. destruct matching' as [k|];
          [|by apply elem_of_nil in Hx2].
        apply list_elem_of_singleton in Hx2 as ->.
        destruct (Hmatched k eq_refl) as (Hall & Hne1 & _ & _).
        destruct (qname_to_queue s) as [|kq qs] eqn:Hqs; [done|].
        apply Forall_cons in Hall as [Hkq _].
        apply (Hab x1 kq k); [done|left|]. rewrite Hkq. left.
      * destruct matching' as [k|]; repeat constructor.
    + apply released_indexed_app.
      * eapply released_indexed_frame; [exact Hfr|exact Hsh|exact Hrel].
      * destruct matching' as [k|]; [|by intros ?? _ ?%elem_of_nil].
        eapply released_indexed_frame; [exact Hfr|exact Hsh|].
        destruct (Hmatched k eq_refl) as (Hall & _ & _ & _).
        by apply released_indexed_heads.
Qed.

Lemma collect_matches_released (now : float) (s s' : Feeder)
    (r : outcome (list string)) (ws : list warning) :
  collect_matches py_int now s = (r, s', ws) →
  tracker_timed s → index_covers s → all_sorted (qname_to_queue s) →
  tracker_timed s'
  ∧ (∀ e, r = Raise e →
       (∃ c k, e = MismatchException c k)
       ∨ (∃ k, e = ValueError_int k) ∧ do_check_sequence s = true
       ∨ e = IndexError ∧ qname_to_queue s = [])
  ∧ (∀ ms, r = Return ms →
       StronglySorted str_lt ms ∧ released_indexed ms s').
Proof.
  intros Hrun Htimed Hcov Hsorted. revert Hrun.
  unfold collect_matches. unfold bind at 1, get at 1. unfold bind at 1.
  destruct (get_matching_first_entry now s) as [[r1 s1] w1] eqn:Hget.
  pose proof (get_matching_first_entry_outcome _ _ _ _ _ Htimed Hget)
    as [Htimed1 Hexn].
  apply get_matching_first_entry_spec in Hget
    as (Hfr & _ & Hsh & Hfuel & Hmatched & _).
  destruct r1 as [matching|e|]; [| |done].
  2:{ intros [= <- <- <-]. split_and!; try done. intros ? [= <-].
      specialize (Hexn e eq_refl). destruct e; try done; [|by eauto].
      right. right. split; [done|]. by destruct (qname_to_queue s). }
  unfold bind at 1, get at 1.
  destruct (matching_loop _ _ _ _ _ _ s1) as [[r2 s2] w2] eqn:Hloop.
  intros [= <- <- <-].
  assert (do_check_sequence s1 = do_check_sequence s) as Hdcs
    by (by destruct Hfr as (? & ? & ? & ? & ->)).
  rewrite Hdcs in Hloop.
  destruct matching as [k|].
  - destruct (Hmatched k eq_refl) as (Hall & Hne & Hqs & _).
    eapply matching_loop_released in Hloop as (Ht2 & Hexn2 & Hret2);
      try done.
    + split_and!; [done| |done]. intros e He.
      destruct (Hexn2 e He) as [?|[? ?]]; auto.
    + by eapply index_covers_frame.
    + rewrite Hqs. by destruct (qname_to_queue s).
    + by eapply all_sorted_shrink.
    + simpl. rewrite Hqs. by apply all_above_popped.
    + repeat constructor.
    + simpl. eapply released_indexed_frame; [exact Hfr|exact Hsh|].
      by apply released_indexed_heads.
  - simpl in Hloop. revert Hloop. run_monad. intros [= <- <- <-].
    split_and!; try done. intros ? [= <-]. split; [constructor|].
    by intros ?? _ ?%elem_of_nil.
Qed.

(** *** Popping the filenames *)

Lemma NoDup_iproduct (keys matches : list string) :
  NoDup keys → NoDup matches → NoDup (iproduct keys matches).
Proof.
  intros Hk Hm. unfold iproduct.
  induction Hk as [|q qs Hq Hqs IH]; simpl; [constructor|].
  apply NoDup_app. split_and!; [|  |done].
  - apply (NoDup_fmap_2 _), Hm.
  - intros [q' m] (m0 & [= -> ->] & _)%list_elem_of_fmap Hin.
    apply Hq. change (flat_map (λ qname, map (λ m, (qname, m)) matches) qs)
      with (iproduct qs matches) in Hin.
    clear -Hin. unfold iproduct in Hin.
    rewrite list_elem_of_In, in_flat_map in Hin.
    destruct Hin as (k & Hk & Hin). apply list_elem_of_In in Hk, Hin.
    by apply list_elem_of_fmap in Hin as (m1 & [= -> ->] & _).
Qed.

Lemma pop_fold_present (keys : list (string * string)) :
  ∀ (acc : list string) (s : Feeder),
    NoDup keys →
    (∀ key, key ∈ keys → is_Some (keys_to_fullnames s !! key)) →
    ∃ names s',
      fold_each keys acc
        (λ key fullnames, filename <- pop_fullname key ;;
                          ret (fullnames ++ [filename])) s
      = (Return (acc ++ names), s', [])
      ∧ Forall2 (λ key name, keys_to_fullnames s !! key = Some name)
          keys names.
Proof.
  set (body := λ key fullnames, filename <- pop_fullname key ;;
                                ret (fullnames ++ [filename])).
  induction keys as [|key keys IH]; intros acc s Hnd Hall; simpl.
  - exists [], s. by rewrite app_nil_r.
  - apply NoDup_cons in Hnd as [Hkey Hnd].
    destruct (Hall key) as [filename Hf]; [left|].
    destruct (IH (acc ++ [filename])
                (set_keys_to_fullnames (delete key (keys_to_fullnames s)) s)
                Hnd) as (names & s' & Hrun & Hnames).
    { intros key' Hin. simpl. rewrite lookup_delete_ne; [|by intros ->].
      apply Hall. by right. }
    exists (filename :: names), s'. split.
    + assert (body key acc s
              = (Return (acc ++ [filename]),
                 set_keys_to_fullnames (delete key (keys_to_fullnames s)) s,
                 [])) as Hbody.
      { unfold body, pop_fullname. run_monad. by rewrite Hf. }
      unfold bind at 1. rewrite Hbody, Hrun. by rewrite <- app_assoc.
    + constructor; [done|]. eapply Forall2_impl; [exact Hnames|].
      intros key' name. simpl. by intros [_ ?]%lookup_delete_Some.
Qed.

(** *** The size filter *)

Lemma fold_check_size_outcome (fs : list string) :
  ∀ (acc : list (option string)) (s s' : Feeder)
    (r : outcome (list (option string))) (ws : list warning),
    is_Some (qname_to_expected_size s) →
    fold_each fs acc (check_size getsize) s = (r, s', ws) →
    ∀ e, r = Raise e → ∃ f, e = OSError_getsize f.
Proof.
  induction fs as [|f fs IH]; intros acc s s' r ws Ht; simpl.
  - by intros [= <- <- <-].
  - unfold bind at 1. unfold check_size at 1. run_monad.
    destruct (getsize f) as [size|].
    2:{ intros [= <- <- <-] ? [= <-]. by eexists. }
    destruct (qname_to_expected_size s) as [table|] eqn:Htable;
      [|by destruct Ht].
    destruct (bool_decide _);
      destruct (fold_each fs _ (check_size getsize) _)
        as [[r2 s2] w2] eqn:Hrest;
      intros [= <- <- <-]; eapply IH; try exact Hrest; by eexists.
Qed.

Lemma filter_size_mismatch_files_outcome (filenames : list string)
    (s s' : Feeder) (r : outcome (list string)) (ws : list warning) :
  is_Some (qname_to_expected_size s) →
  filter_size_mismatch_files getsize filenames s = (r, s', ws) →
  (∀ e, r = Raise e → ∃ f, e = OSError_getsize f)
  ∧ (∀ result, r = Return result → result `sublist_of` filenames).
Proof.
  intros Ht. unfold filter_size_mismatch_files. unfold bind at 1.
  destruct (fold_each filenames [] (check_size getsize) s)
    as [[r1 s1] w1] eqn:Hfold.
  pose proof (fold_check_size_outcome _ _ _ _ _ _ Ht Hfold) as Hexn.
  pose proof (filter_size_mismatch_files_frame getsize filenames s) as Hfr.
  destruct r1 as [filtered|e|].
  - run_monad. destruct filtered; intros [= <- <- <-]; split; try done;
      intros ? [= <-]; [done|apply sublist_filter].
  - intros [= <- <- <-]. split; [|done]. intros ? [= <-]. by apply Hexn.
  - intros [= <- <- <-]. by split.
Qed.

(** *** Insertion *)

Lemma alist_lookup_None {V} (k : string) (l : list (string * V)) :
  alist_lookup k l = None → k ∉ map fst l.
Proof.
  induction l as [|[k' v] l IH]; simpl; [by intros _ ?%elem_of_nil|].
  case_decide; [done|]. intros Hl [->|Hin]%elem_of_cons; [done|].
  by apply IH.
Qed.

Lemma alist_alter_qnames {V} (f : V → V) (k : string) (l : list (string * V)) :
  map fst (alist_alter f k l) = map fst l.
Proof.
  induction l as [|[k' v] l IH]; simpl; [done|].
  case_decide; simpl; [done|]. by rewrite IH.
Qed.

(** The queues and the index after inserting a batch: the stream names are
    those of before, and an index entry is one of before or files a
    filename of the batch under its own stream and key. *)
Lemma insert_filenames_frame (filenames : list string) :
  ∀ (s s' : Feeder) (r : outcome unit) (ws : list warning),
    insert_filenames filenames s = (r, s', ws) →
    (∃ qs ix,
       s' = set_keys_to_fullnames ix (set_qname_to_queue qs s)
       ∧ map fst qs = qnames_of s
       ∧ ∀ qname m g,
           ix !! (qname, m) = Some g →
           keys_to_fullnames s !! (qname, m) = Some g
           ∨ g ∈ filenames ∧ file_of s qname m g)
    ∧ (∀ e, r = Raise e → ∃ qname, e = KeyError_queue qname
                                   ∧ qname ∉ qnames_of s).
Proof.
  unfold insert_filenames.
  induction filenames as [|f fs IH]; intros s s' r ws; simpl.
  - intros [= <- <- <-]. split; [|done].
    exists (qname_to_queue s), (keys_to_fullnames s).
    split_and!; [by destruct s|done|auto].
  - unfold bind at 1.
    destruct (insert_filename f s) as [[r1 s1] w1] eqn:Hf.
    assert ((∃ qs ix,
               s1 = set_keys_to_fullnames ix (set_qname_to_queue qs s)
               ∧ map fst qs = qnames_of s
               ∧ ∀ qname m g,
                   ix !! (qname, m) = Some g →
                   keys_to_fullnames s !! (qname, m) = Some g
                   ∨ g = f ∧ file_of s qname m g)
            ∧ (∀ e, r1 = Raise e → ∃ qname, e = KeyError_queue qname
                                            ∧ qname ∉ qnames_of s)
            ∧ r1 ≠ OutOfFuel) as (Hfr & Hexn & Hfuel).
    { revert Hf. unfold insert_filename. run_monad.
      destruct (fname_to_qname_fcn s f) as [qname|] eqn:Hq.
      2:{ intros [= <- <- <-]. split_and!; try done.
          exists (qname_to_queue s), (keys_to_fullnames s).
          split_and!; [by destruct s|done|auto]. }
      destruct (fname_to_timepoint_fcn s f) as [tpname|] eqn:Htp.
      2:{ intros [= <- <- <-]. split_and!; try done.
          exists (qname_to_queue s), (keys_to_fullnames s).
          split_and!; [by destruct s|done|auto]. }
      destruct (alist_lookup qname (qname_to_queue s)) as [q|] eqn:Hl.
      2:{ intros [= <- <- <-]. split_and!; try done.
          - exists (qname_to_queue s), (keys_to_fullnames s).
            split_and!; [by destruct s|done|auto].
          - intros ? [= <-]. exists qname. split; [done|].
            by apply alist_lookup_None. }
      intros [= <- <- <-]. split_and!; try done.
      eexists _, _. split_and!; [done|apply alist_alter_qnames|].
      intros qn m g Hg.
      destruct (decide ((qname, tpname) = (qn, m))) as [[= <- <-]|Hne].
      - rewrite lookup_insert_eq in Hg. injection Hg as <-. by right.
      - rewrite lookup_insert_ne in Hg; auto. }
    destruct Hfr as (qs1 & ix1 & -> & Hq1 & Hix1).
    destruct r1 as [[]|e|]; [| |done].
    2:{ intros [= <- <- <-]. split; [|done].
        exists qs1, ix1. split_and!; [done..|].
        intros qn m g Hg. destruct (Hix1 _ _ _ Hg) as [?|[-> ?]]; auto.
        right. split; [left|done]. }
    destruct (for_each fs insert_filename _) as [[r2 s2] w2] eqn:Hrest.
    apply IH in Hrest as ((qs2 & ix2 & -> & Hq2 & Hix2) & Hexn2).
    intros [= <- <- <-]. simpl in *. split.
    + exists qs2, ix2. split_and!; [done|by rewrite Hq2|].
      intros qn m g Hg. destruct (Hix2 _ _ _ Hg) as [Hg1|[Hin Hfile]].
      * destruct (Hix1 _ _ _ Hg1) as [?|[-> ?]]; auto.
        right. split; [left|done].
      * right. split; [by right|done].
    + intros e He. destruct (Hexn2 e He) as (qn & -> & Hqn).
      exists qn. split; [done|]. unfold qnames_of in *. simpl in Hqn.
      by rewrite <- Hq1.
Qed.

(** *** Bookkeeping on lists *)

Lemma iproduct_elem_of_2 (keys matches : list string) (qname m : string) :
  qname ∈ keys → m ∈ matches → (qname, m) ∈ iproduct keys matches.
Proof.
  intros Hq Hm. unfold iproduct. rewrite list_elem_of_In, in_flat_map.
  exists qname. split; [by apply list_elem_of_In|].
  apply list_elem_of_In, list_elem_of_fmap. by exists m.
Qed.

Lemma length_iproduct (keys matches : list string) :
  length (iproduct keys matches) = length keys * length matches.
Proof.
  unfold iproduct. induction keys as [|q qs IH]; simpl; [done|].
  by rewrite length_app, length_map, IH.
Qed.

Lemma Forall2_elem_of_l {A B} (P : A → B → Prop) (l : list A) (k : list B)
    (x : A) :
  Forall2 P l k → x ∈ l → ∃ y, y ∈ k ∧ P x y.
Proof.
  induction 1 as [|a b l k Hab Hlk IH]; [by intros ?%elem_of_nil|].
  intros [->|Hin]%elem_of_cons.
  - exists b. split; [left|done].
  - destruct (IH Hin) as (y & ? & ?). exists y. split; [by right|done].
Qed.

Lemma Forall2_elem_of_r {A B} (P : A → B → Prop) (l : list A) (k : list B)
    (y : B) :
  Forall2 P l k → y ∈ k → ∃ x, x ∈ l ∧ P x y.
Proof.
  induction 1 as [|a b l k Hab Hlk IH]; [by intros ?%elem_of_nil|].
  intros [->|Hin]%elem_of_cons.
  - exists a. split; [left|done].
  - destruct (IH Hin) as (x & ? & ?). exists x. split; [by right|done].
Qed.

Lemma StronglySorted_sublist {A} (R : relation A) (l1 l2 : list A) :
  l1 `sublist_of` l2 → StronglySorted R l2 → StronglySorted R l1.
Proof.
  induction 1 as [|x l1 l2 Hsub IH|x l1 l2 Hsub IH]; intros Hs; [done| |].
  - apply StronglySorted_cons in Hs as [Hall Hs].
    apply StronglySorted_cons. split; [|by apply IH].
    rewrite Forall_forall in *. intros y Hy. apply Hall.
    by eapply elem_of_sublist.
  - apply StronglySorted_cons in Hs as [_ Hs]. by apply IH.
Qed.

Lemma sorted_elem_of (l : list string) (x : string) : x ∈ sorted l ↔ x ∈ l.
Proof. unfold sorted. by rewrite merge_sort_Permutation. Qed.

Lemma sorted_length (l : list string) : length (sorted l) = length l.
Proof. unfold sorted. by rewrite merge_sort_Permutation. Qed.

Lemma sorted_StronglySorted (l : list string) :
  StronglySorted String.le (sorted l).
Proof. apply StronglySorted_merge_sort; apply _. Qed.

(** *** A whole call, phase by phase *)

Local Ltac solve_wf Hq :=
  unfold well_formed, qnames_of in *; simpl in *;
  rewrite ?Hq; split_and?; done.

Lemma maintained_qnames (qs : list (string * list string)) :
  map fst (map (λ kq, (kq.1, maintain_queue kq.2)) qs) = map fst qs.
Proof. induction qs as [|kq qs IH]; simpl; [done|]. by rewrite IH. Qed.

Lemma no_queue_no_name (qs qs0 : list (string * list string)) :
  map fst qs = map fst qs0 → qs = [] → qs0 = [].
Proof. intros H ->. by destruct qs0. Qed.

Lemma match_filenames_analysis (filenames : list string) (now : float)
    (s s' : Feeder) (r : outcome (list string)) (ws : list warning) :
  well_formed s →
  match_filenames getsize py_int filenames now s = (r, s', ws) →
  well_formed s'
  ∧ qnames_of s' = qnames_of s
  ∧ (∀ e, r = Raise e → expected_exn s e)
  ∧ (∀ names, r = Return names →
       StronglySorted String.le names
       ∧ (∀ g, g ∈ names →
            g ∈ filenames ∨ ∃ key, keys_to_fullnames s !! key = Some g)
       ∧ ∃ ms,
           StronglySorted str_lt ms
           ∧ all_above ms (qname_to_queue s')
           ∧ (∀ g, g ∈ names →
                ∃ qname m, qname ∈ qnames_of s ∧ m ∈ ms
                           ∧ file_of s qname m g)
           ∧ (qname_to_expected_size s = None →
              length names = length (qnames_of s) * length ms
              ∧ ∀ qname m, qname ∈ qnames_of s → m ∈ ms →
                           ∃ g, g ∈ names ∧ file_of s qname m g)).
Proof.
  intros Hwf Hrun.
  assert (index_covers s' ∧ tracked_at_heads s') as [Hcov' Hheads'].
  { destruct Hwf as (_ & _ & _ & Hc & Hh).
    exact (match_filenames_invariants getsize py_int filenames now
             s r s' ws (conj Hc Hh) Hrun). }
  destruct Hwf as (Hnd & Htimed & Hsound & Hcov & Hheads).
  revert Hrun. unfold match_filenames. unfold bind at 1.
  destruct (insert_filenames filenames s) as [[r1 s1] w1] eqn:Hins.
  assert (index_covers s1) as Hcov1.
  { assert (∀ f, hoare index_covers (insert_filename f)
                   (λ _ s0, index_covers s0)) as Hbody.
    { intros f s2 r2 s2' ws2 Hc Hrun2.
      apply insert_filename_spec in Hrun2 as (_ & _ & H & _). by apply H. }
    by destruct (insert_filenames_spec filenames index_covers Hbody
                   s r1 s1 w1 Hcov Hins). }
  apply insert_filenames_frame in Hins
    as ((qs1 & ix1 & -> & Hq1 & Hix1) & Hexn1).
  assert (index_sound (set_keys_to_fullnames ix1 (set_qname_to_queue qs1 s)))
    as Hsound1.
  { intros q m g Hg. simpl in *.
    destruct (Hix1 _ _ _ Hg) as [?|[_ ?]]; [by apply Hsound|done]. }
  assert (∀ r0 : outcome (list string),
            (∀ names, r0 ≠ Return names) →
            (∀ e, r0 = Raise e → expected_exn s e) →
            ∀ P : list string → Prop,
              (∀ e, r0 = Raise e → expected_exn s e)
              ∧ (∀ names, r0 = Return names → P names)) as Hfail.
  { intros r0 Hr0 He P. split; [done|]. intros names ->.
    by destruct (Hr0 names). }
  destruct r1 as [[]|e|].
  2:{ intros [= <- <- <-]. split; [solve_wf Hq1|]. split; [solve_wf Hq1|].
      apply Hfail; [done|]. intros ? [= <-].
      by destruct (Hexn1 _ eq_refl) as (q & -> & ?). }
  2:{ intros [= <- <- <-]. split; [solve_wf Hq1|]. split; [solve_wf Hq1|].
      by apply Hfail. }
  set (qs2 := map (λ kq, (kq.1, maintain_queue kq.2)) qs1).
  assert (maintain_sorting
            (set_keys_to_fullnames ix1 (set_qname_to_queue qs1 s))
          = (Return (),
             set_qname_to_queue qs2
               (set_keys_to_fullnames ix1 (set_qname_to_queue qs1 s)), []))
    as Hm by reflexivity.
  unfold bind at 1. rewrite Hm.
  pose proof (maintain_sorting_spec _ _ _ _ Hm) as (_ & Hsorted2 & _ & Hc2 & _).
  specialize (Hc2 Hcov1). simpl in Hsorted2. clear Hm.
  unfold bind at 1.
  assert (map fst qs2 = qnames_of s) as Hq2
    by (unfold qs2; by rewrite maintained_qnames).
  destruct (collect_matches py_int now _) as [[r3 s3] w3] eqn:Hcol.
  pose proof (collect_matches_spec py_int _ _ _ _ _ Hcol)
    as (Hfr3 & Hsh3 & _ & _ & Hab3).
  pose proof (collect_matches_released _ _ _ _ _ Hcol Htimed Hc2 Hsorted2)
    as (Htimed3 & Hexn3 & Hret3).
  clear Hcol. destruct Hfr3 as (qs3 & m3 & t3 & tp3 & ->).
  simpl in Hsh3, Hab3, Hexn3.
  pose proof (queues_shrink_qnames _ _ _ Hsh3) as Hq3. rewrite Hq2 in Hq3.
  destruct r3 as [ms|e|].
  2:{ intros [= <- <- <-]. split; [solve_wf Hq3|]. split; [solve_wf Hq3|].
      apply Hfail; [done|]. intros ? [= <-].
      destruct (Hexn3 _ eq_refl) as [(?&?&->)|[[[? ->] ?]|[-> ?]]];
        [done|done|].
      simpl. by apply (no_queue_no_name qs2 _ Hq2). }
  2:{ intros [= <- <- <-]. split; [solve_wf Hq3|]. split; [solve_wf Hq3|].
      by apply Hfail. }
  destruct (Hret3 ms eq_refl) as [Hss Hrel]. specialize (Hab3 Hsorted2 ms eq_refl).
  unfold bind at 1. unfold pop_fullnames. unfold bind at 1, get at 1.
  cbn [qname_to_queue set_last_timepoint set_mismatch set_qname_to_queue].
  rewrite Hq3.
  match goal with
  | |- context [fold_each ?keys [] ?body ?st] =>
      destruct (pop_fold_present keys [] st) as (names0 & s4 & Hpop & Hnames0)
  end.
  { apply NoDup_iproduct; [done|].
    apply StronglySorted_str_lt_NoDup, Hss. }
  { intros [q m] [Hq Hm]%iproduct_elem_of. apply Hrel; [|done].
    unfold qnames_of. simpl. by rewrite Hq3. }
  rewrite Hpop.
  apply pop_fold_spec in Hpop as [(ix4 & -> & Hix4) _].
  simpl in Hix4, Hnames0.
  cbn [app]. unfold bind at 1, get at 1.
  cbn [qname_to_expected_size set_keys_to_fullnames set_last_timepoint
       set_mismatch set_qname_to_queue].
  assert (∀ g, g ∈ names0 →
            (g ∈ filenames ∨ ∃ key, keys_to_fullnames s !! key = Some g)
            ∧ ∃ qname m, qname ∈ qnames_of s ∧ m ∈ ms ∧ file_of s qname m g)
    as Hnames.
  { intros g Hg.
    destruct (Forall2_elem_of_r _ _ _ _ Hnames0 Hg) as ([q m] & Hkey & Hlook).
    apply iproduct_elem_of in Hkey as [Hq Hm]. split.
    - destruct (Hix1 _ _ _ Hlook) as [?|[? _]]; eauto.
    - exists q, m. split_and!; [done..|]. by apply (Hsound1 q m g). }
  assert (∀ qname m, qname ∈ qnames_of s → m ∈ ms →
            ∃ g, g ∈ names0 ∧ file_of s qname m g) as Hcomplete.
  { intros q m Hq Hm.
    destruct (Forall2_elem_of_l _ _ _ (q, m) Hnames0) as (g & Hg & Hlook);
      [by apply iproduct_elem_of_2|].
    exists g. split; [done|]. by apply (Hsound1 q m g). }
  assert (length names0 = length (qnames_of s) * length ms) as Hlen.
  { rewrite <- (Forall2_length _ _ _ Hnames0). apply length_iproduct. }
  assert (index_sound
            (set_keys_to_fullnames ix4
               (set_last_timepoint tp3
                  (set_mismatch m3 t3
                     (set_qname_to_queue qs3
                        (set_qname_to_queue qs2
                           (set_keys_to_fullnames ix1
                              (set_qname_to_queue qs1 s)))))))) as Hsound4.
  { intros q m g Hg. simpl in *.
    destruct (Hix4 (q, m)) as [E|[E _]]; [|congruence].
    rewrite E in Hg. by apply (Hsound1 q m g). }
  destruct (qname_to_expected_size s) as [table|] eqn:Htable.
  - destruct (filter_size_mismatch_files getsize (sorted names0) _)
      as [[r5 s5] w5] eqn:Hfilter.
    pose proof (filter_size_mismatch_files_frame _ _ _ _ _ _ Hfilter)
      as [[t5 ->] _].
    apply filter_size_mismatch_files_outcome in Hfilter as [Hexn5 Hret5];
      [|simpl; rewrite Htable; by eexists].
    intros [= <- <- <-]. split; [solve_wf Hq3|]. split; [solve_wf Hq3|].
    split.
    + intros e ->. destruct (Hexn5 e eq_refl) as [f ->]. simpl.
      rewrite Htable. by eexists.
    + intros names ->. specialize (Hret5 names eq_refl). split_and!.
      * eapply StronglySorted_sublist; [done|apply sorted_StronglySorted].
      * intros g Hg. apply Hnames, sorted_elem_of.
        by eapply elem_of_sublist.
      * exists ms. split_and!; [done|done| |done].
        intros g Hg. apply Hnames, sorted_elem_of.
        by eapply elem_of_sublist.
  - intros [= <- <- <-]. split; [solve_wf Hq3|]. split; [solve_wf Hq3|].
    split.
    + done.
    + intros names [= <-]. split_and!.
      * apply sorted_StronglySorted.
      * intros g Hg. by apply Hnames, sorted_elem_of.
      * exists ms. split_and!; [done|done| |].
        -- intros g Hg. by apply Hnames, sorted_elem_of.
        -- intros _. split; [by rewrite sorted_length|].
           intros q m Hq Hm. destruct (Hcomplete q m Hq Hm) as (g & ? & ?).
           exists g. split; [by apply sorted_elem_of|done].
Qed.

(** *** Freshly built feeders *)

Lemma alist_set_qnames {V} (k : string) (v : V) (d : list (string * V)) :
  map fst (alist_set k v d)
  = if bool_decide (k ∈ map fst d) then map fst d else map fst d ++ [k].
Proof.
  induction d as [|[k' v'] d IH]; cbn [alist_set map fst].
  - rewrite bool_decide_false; [done|]. by intros ?%elem_of_nil.
  - destruct (decide (k' = k)) as [->|Hne]; cbn [map fst].
    + rewrite bool_decide_true; [done|left].
    + rewrite IH. case_bool_decide as Hin.
      * rewrite bool_decide_true; [done|by right].
      * rewrite bool_decide_false; [done|].
        intros [->|?]%elem_of_cons; done.
Qed.

Lemma init_qnames (qnames : list string) (d : list (string * list string)) :
  NoDup (map fst d) →
  NoDup (map fst (fold_left (λ d qname, alist_set qname [] d) qnames d))
  ∧ ∀ q, q ∈ map fst (fold_left (λ d qname, alist_set qname [] d) qnames d)
         ↔ q ∈ map fst d ∨ q ∈ qnames.
Proof.
  revert d. induction qnames as [|k qnames IH]; intros d Hd; simpl.
  - split; [done|]. intros q. split; [by left|].
    by intros [?|?%elem_of_nil].
  - destruct (IH (alist_set k [] d)) as [Hnd Hin].
    + rewrite alist_set_qnames. case_bool_decide; [done|].
      apply NoDup_app. split_and!; [done| |apply NoDup_singleton].
      by intros x Hx ->%list_elem_of_singleton.
    + split; [done|]. intros q. rewrite Hin, alist_set_qnames.
      case_bool_decide as Hk.
      * rewrite elem_of_cons. split; [tauto|].
        intros [?|[->|?]]; auto.
      * rewrite elem_of_app, list_elem_of_singleton, elem_of_cons. tauto.
Qed.

Lemma reachable_well_formed (s : Feeder) :
  reachable getsize py_int s → well_formed s.
Proof.
  induction 1 as [qnames fq ft sc qc|wait s Hr IH|fs now s r s' ws Hr IH Hrun].
  - destruct (init_invariants qnames fq ft sc qc) as [Hcov Hheads].
    split_and!; try done.
    + apply (init_qnames qnames []). constructor.
    + by intros [? [=]].
  - exact IH.
  - by destruct (match_filenames_analysis _ _ _ _ _ _ IH Hrun) as [? _].
Qed.

(** ** What a user of [match_filenames] can rely on *)

(** X6. Every call of [match_filenames] comes to an end, on any object and
    any batch: the loop that pops mismatching keys and the loop that
    collects matches both stop, and the call returns or raises. *)
Theorem X6_match_filenames_ends (filenames : list string) (now : float)
    (s : Feeder) :
  ∃ s' ws,
    (∃ names, match_filenames getsize py_int filenames now s
              = (Return names, s', ws))
    ∨ (∃ e, match_filenames getsize py_int filenames now s
            = (Raise e, s', ws)).
Proof.
  pose proof (match_filenames_terminates getsize py_int filenames now s) as H.
  destruct (match_filenames getsize py_int filenames now s)
    as [[[names|e|] s'] ws]; [| |done]; exists s', ws; eauto.
Qed.

(** X7. On an object a program can hold, a call of [match_filenames] that
    raises does so for one of five reasons: a filename of a stream that is
    not configured ([KeyError]), a tracked key that changed (the mismatch
    exception), a matched key that [int] rejects while the sequence check
    is on, a file whose size cannot be read while the size check is on, or
    no stream at all ([IndexError]). In particular the lookup of the
    filename of a matched key never fails. *)
Theorem X7_exceptions_of_match_filenames (filenames : list string) (now : float)
    (s s' : Feeder) (e : exn) (ws : list warning) :
  reachable getsize py_int s →
  match_filenames getsize py_int filenames now s = (Raise e, s', ws) →
  match e with
  | KeyError_queue qname => qname ∉ qnames_of s
  | MismatchException _ _ => True
  | ValueError_int _ => do_check_sequence s = true
  | OSError_getsize _ => is_Some (qname_to_expected_size s)
  | IndexError => qname_to_queue s = []
  | _ => False
  end.
Proof.
  intros Hwf%reachable_well_formed Hrun.
  destruct (match_filenames_analysis _ _ _ _ _ _ Hwf Hrun)
    as (_ & _ & Hexn & _).
  exact (Hexn e eq_refl).
Qed.

(** X8. Without the size filter, what a call returns on an object a program
    can hold is made of complete sets: there are keys [ms], strictly
    ascending, such that every returned filename is the file of a
    configured stream for a key of [ms], every stream has a returned file
    for every key of [ms], the number of filenames is the number of
    streams times the number of keys, and every key still queued after the
    call is above all of [ms]. *)
Theorem X8_complete_sets_released (filenames names : list string) (now : float)
    (s s' : Feeder) (ws : list warning) :
  reachable getsize py_int s →
  qname_to_expected_size s = None →
  match_filenames getsize py_int filenames now s = (Return names, s', ws) →
  ∃ ms,
    StronglySorted str_lt ms
    ∧ length names = length (qnames_of s) * length ms
    ∧ (∀ g, g ∈ names →
         ∃ qname m, qname ∈ qnames_of s ∧ m ∈ ms ∧ file_of s qname m g)
    ∧ (∀ qname m, qname ∈ qnames_of s → m ∈ ms →
                  ∃ g, g ∈ names ∧ file_of s qname m g)
    ∧ all_above ms (qname_to_queue s').
Proof.
  intros Hwf%reachable_well_formed Hnone Hrun.
  destruct (match_filenames_analysis _ _ _ _ _ _ Hwf Hrun)
    as (_ & _ & _ & Hret).
  destruct (Hret names eq_refl) as (_ & _ & ms & Hss & Hab & Hfiles & Hall).
  destruct (Hall Hnone) as [Hlen Hcomplete]. by exists ms.
Qed.

(** X9. The list that a call returns is in ascending lexicographic order,
    with the size filter on or off, and holds nothing that was not handed
    to the engine: every returned filename is in the batch of this call or
    was in the index before the call. *)
Theorem X9_returned_sorted_and_known (filenames names : list string)
    (now : float) (s s' : Feeder) (ws : list warning) :
  reachable getsize py_int s →
  match_filenames getsize py_int filenames now s = (Return names, s', ws) →
  StronglySorted String.le names
  ∧ ∀ g, g ∈ names →
         g ∈ filenames ∨ ∃ key, keys_to_fullnames s !! key = Some g.
Proof.
  intros Hwf%reachable_well_formed Hrun.
  destruct (match_filenames_analysis _ _ _ _ _ _ Hwf Hrun)
    as (_ & _ & _ & Hret).
  by destruct (Hret names eq_refl) as (? & ? & _).
Qed.

(** X10. The streams are fixed at construction: they are distinct, and no
    call of [match_filenames], however it ends, adds, removes or reorders
    a queue. *)
Theorem X10_streams_fixed (filenames : list string) (now : float)
    (s s' : Feeder) (r : outcome (list string)) (ws : list warning) :
  reachable getsize py_int s →
  match_filenames getsize py_int filenames now s = (r, s', ws) →
  NoDup (qnames_of s) ∧ qnames_of s' = qnames_of s.
Proof.
  intros Hwf%reachable_well_formed Hrun.
  destruct (match_filenames_analysis _ _ _ _ _ _ Hwf Hrun) as (_ & Hq & _).
  by destruct Hwf as (? & _).
Qed.

(** X11. On an object a program can hold, a key is tracked as mismatching
    only together with the time of its recording and only while every
    queue has a head: waiting for a stream that has nothing queued is never
    tracked as a mismatch. *)
Theorem X11_tracker_invariant (s : Feeder) (k : string) :
  reachable getsize py_int s →
  last_mismatch s = Some k →
  is_Some (last_mismatch_time s)
  ∧ Forall (λ kq, kq.2 ≠ []) (qname_to_queue s).
Proof.
  intros (_ & Htimed & _ & _ & Hheads)%reachable_well_formed Hk. split.
  - apply Htimed. by eexists.
  - by destruct (Hheads k Hk).
Qed.

(** X12. On an object a program can hold, the index answers for a stream
    and a key with a filename that the extractors map to that very stream
    and key. *)
Theorem X12_index_sound (s : Feeder) (qname tpname filename : string) :
  reachable getsize py_int s →
  keys_to_fullnames s !! (qname, tpname) = Some filename →
  fname_to_qname_fcn s filename = Some qname
  ∧ fname_to_timepoint_fcn s filename = Some tpname.
Proof.
  intros (_ & _ & Hsound & _)%reachable_well_formed Hlook.
  by apply Hsound.
Qed.
End Release.

(** ** One look at the heads *)

Lemma reduce_min_None (l : list (option string)) :
  None ∈ l → reduce py_min l = Some None.
Proof.
  intros Hin. destruct (reduce py_min l) as [m|] eqn:Hmin.
  - apply reduce_min_le in Hmin. rewrite Forall_forall in Hmin.
    specialize (Hmin _ Hin). unfold opt_le in Hmin. by destruct m.
  - destruct l; [by apply elem_of_nil in Hin|done].
Qed.

Lemma all_equal_None (comp_elt : option string)
    (others : list (option string)) :
  None ∈ comp_elt :: others →
  bool_decide (comp_elt ≠ None)
    && forallb (λ elt, bool_decide (elt = comp_elt)) others = false.
Proof.
  intros Hin. apply not_true_is_false.
  intros (k & -> & Hall)%all_equal_spec.
  rewrite Forall_forall in Hall. by specialize (Hall _ Hin).
Qed.

Lemma get_matching_first_entry_waits (now : float) (s : Feeder) :
  Exists (λ kq, kq.2 = []) (qname_to_queue s) →
  get_matching_first_entry now s
  = (Return None, set_mismatch None None s, []).
Proof.
  intros Hex.
  assert (None ∈ first_elts_of (qname_to_queue s)) as Hin.
  { apply Exists_exists in Hex as (kq & Hkq & Hnil).
    unfold first_elts_of. apply list_elem_of_fmap. exists kq.
    by rewrite Hnil. }
  unfold get_matching_first_entry. unfold bind at 1, get at 1.
  unfold bind at 1. unfold check_and_pop_mismatches.
  destruct (first_elts_of (qname_to_queue s)) as [|comp_elt others] eqn:Hfe;
    [by apply elem_of_nil in Hin|].
  by rewrite (all_equal_None _ _ Hin), (reduce_min_None _ Hin).
Qed.

(** X13. A stream with nothing queued is waited for, not counted as a
    mismatch: as soon as one queue is empty, [get_matching_first_entry]
    answers [None], clears the tracker, leaves every queue as it is and
    logs nothing, whatever the time and whatever was tracked. *)
Theorem X13_empty_queue_is_no_mismatch (now : float) (s : Feeder) :
  Exists (λ kq, kq.2 = []) (qname_to_queue s) →
  get_matching_first_entry now s
  = (Return None, set_mismatch None None s, []).
Proof. apply get_matching_first_entry_waits. Qed.



(** ** What eviction does, and when *)

Lemma pop_pass_drop (next_elt : option string)
    (qs qs' : list (string * list string)) (ws : list warning) (p : bool) :
  pop_pass next_elt qs = (qs', ws, p) →
  drop_all_below next_elt qs' = drop_all_below next_elt qs
  ∧ total_len qs = length ws + total_len qs'
  ∧ (p = false → drop_all_below next_elt qs = qs).
Proof.
  unfold drop_all_below, total_len. revert qs' ws p.
  induction qs as [|[qname q] rest IH]; intros qs' ws p; cbn [pop_pass].
  - by intros [= <- <- <-].
  - destruct (pop_pass next_elt rest) as [[rest' ws0] p0].
    destruct (IH _ _ _ eq_refl) as (Hdrop & Hlen & Hsame).
    destruct q as [|d q'].
    + intros [= <- <- <-]. simpl. split_and!; [by rewrite Hdrop|lia|].
      intros Hp. by rewrite (Hsame Hp).
    + destruct (opt_ltb (Some d) next_elt) eqn:Hb.
      * intros [= <- <- <-]. cbn [map drop_below fst snd]. rewrite Hb, Hdrop.
        simpl. split_and!; [done|lia|done].
      * intros [= <- <- <-]. cbn [map drop_below fst snd]. rewrite Hb, Hdrop.
        simpl. split_and!; [done|lia|]. intros Hp. by rewrite (Hsame Hp).
Qed.

Lemma pop_loop_drop (fuel : nat) (next_elt : option string)
    (qs qs' : list (string * list string)) (ws : list warning) :
  pop_loop fuel next_elt qs = Some (qs', ws) →
  qs' = drop_all_below next_elt qs
  ∧ total_len qs = length ws + total_len qs'.
Proof.
  revert qs qs' ws. induction fuel as [|fuel IH]; intros qs qs' ws; simpl;
    [done|].
  destruct (pop_pass next_elt qs) as [[qs1 ws1] p] eqn:Hpass.
  pose proof (pop_pass_spec _ _ _ _ _ Hpass) as (_ & _ & _ & Hfalse).
  apply pop_pass_drop in Hpass as (Hdrop & Hlen & Hsame).
  destruct p.
  - destruct (pop_loop fuel next_elt qs1) as [[qs2 ws2]|] eqn:Hloop; [|done].
    intros [= <- <-]. apply IH in Hloop as [-> Hlen2].
    rewrite Hdrop in Hlen2. rewrite Hdrop, length_app. split; [done|lia].
  - intros [= <- <-]. destruct (Hfalse eq_refl) as [-> ->].
    rewrite (Hsame eq_refl). split; [done|]. simpl. lia.
Qed.

Lemma drop_all_below_None (qs : list (string * list string)) :
  drop_all_below None qs = qs.
Proof.
  unfold drop_all_below. induction qs as [|[qname [|d q]] qs IH]; simpl;
    by rewrite ?IH.
Qed.

Local Ltac no_eviction :=
  run_monad; intros [= <- <- <-]; by left.

Lemma check_and_pop_mismatches_evicts
    (first_elts : list (option string)) (now : float) (s s' : Feeder)
    (r : outcome (option string)) (ws : list warning) :
  check_and_pop_mismatches first_elts now s = (r, s', ws) →
  qname_to_queue s' = qname_to_queue s ∧ ws = []
  ∨ ∃ k t next_key,
      last_mismatch s = Some k ∧ k ≠ ""
      ∧ last_mismatch_time s = Some t
      ∧ PrimFloat.ltb (mismatch_wait_time s) (PrimFloat.sub now t) = true
      ∧ reduce py_min first_elts = Some (Some k)
      ∧ next_key_of first_elts = Some next_key
      ∧ qname_to_queue s'
        = drop_all_below (Some next_key) (qname_to_queue s)
      ∧ total_len (qname_to_queue s)
        = length ws + total_len (qname_to_queue s')
      ∧ r = Return None
      ∧ last_mismatch s' = None.
Proof.
  unfold check_and_pop_mismatches.
  destruct first_elts as [|comp_elt others]; [no_eviction|].
  destruct (bool_decide (comp_elt ≠ None) && _); [no_eviction|].
  unfold next_key_of.
  destruct (reduce py_min (comp_elt :: others)) as [[cur|]|] eqn:Hmin;
    [|no_eviction..].
  unfold bind at 1, get at 1.
  destruct (truthy (last_mismatch s)) eqn:Htruthy; [|no_eviction].
  destruct (bool_decide (last_mismatch s ≠ Some cur)) eqn:Hsame;
    [no_eviction|].
  apply bool_decide_eq_false in Hsame. apply dec_stable in Hsame.
  destruct (last_mismatch_time s) as [t|]; [|no_eviction].
  destruct (PrimFloat.ltb (mismatch_wait_time s) (PrimFloat.sub now t)) eqn:Hgrace;
    [|no_eviction].
  destruct (next_elt_of cur (comp_elt :: others)) as [next_elt|e|];
    [|no_eviction..].
  destruct (pop_loop _ next_elt (qname_to_queue s)) as [[qs ws0]|] eqn:Hloop;
    [|no_eviction].
  apply pop_loop_drop in Hloop as [-> Hlen].
  run_monad. intros [= <- <- <-]. simpl. rewrite !app_nil_r.
  destruct next_elt as [next_key|].
  2:{ left. rewrite drop_all_below_None in *. split; [done|].
      destruct ws0; [done|]. simpl in Hlen. lia. }
  right. exists cur, t, next_key. split_and!; try done.
  - rewrite Hsame in Htruthy. simpl in Htruthy. intros ->. done.
Qed.

(** X15. [check_and_pop_mismatches] changes the queues or logs something
    only when a non-empty key is tracked, that key is still the smallest
    head, and more than the grace period has passed since it was recorded.
    It then drops from every queue the leading keys that are below
    [next_elt] (each queue from its first key that is not below it), logs
    one warning for each dropped key, clears the tracker and answers
    [None]. *)
Theorem X15_eviction_only_after_grace_period
    (first_elts : list (option string)) (now : float) (s s' : Feeder)
    (r : outcome (option string)) (ws : list warning) :
  check_and_pop_mismatches first_elts now s = (r, s', ws) →
  qname_to_queue s' = qname_to_queue s ∧ ws = []
  ∨ ∃ k t next_key,
      last_mismatch s = Some k ∧ k ≠ ""
      ∧ last_mismatch_time s = Some t
      ∧ PrimFloat.ltb (mismatch_wait_time s) (PrimFloat.sub now t) = true
      ∧ reduce py_min first_elts = Some (Some k)
      ∧ next_key_of first_elts = Some next_key
      ∧ qname_to_queue s'
        = drop_all_below (Some next_key) (qname_to_queue s)
      ∧ total_len (qname_to_queue s)
        = length ws + total_len (qname_to_queue s')
      ∧ r = Return None
      ∧ last_mismatch s' = None.
Proof. apply check_and_pop_mismatches_evicts. Qed.

(** *** A smallest head that two queues share *)

Lemma min_is_smallest (l : list (option string)) (k : string) :
  Some k ∈ l → Forall (opt_le (Some k)) l →
  reduce py_min l = Some (Some k).
Proof.
  intros Hin Hall. destruct (reduce py_min l) as [m|] eqn:Hmin.
  2:{ destruct l; [by apply elem_of_nil in Hin|done]. }
  pose proof (reduce_min_elem_of _ _ Hmin) as Hm.
  apply reduce_min_le in Hmin. rewrite Forall_forall in Hmin, Hall.
  specialize (Hmin _ Hin). specialize (Hall _ Hm).
  unfold opt_le in *. destruct m as [x|]; simpl in *; [|done].
  apply ltb_false_le in Hmin, Hall.
  do 2 f_equal. by apply (anti_symm String.le).
Qed.

Lemma list_remove_first_twice {A} `{EqDecision A} (x : A) (l l' : list A)
    (i j : nat) :
  i ≠ j → l !! i = Some x → l !! j = Some x →
  list_remove_first x l = Some l' → x ∈ l'.
Proof.
  revert l' i j. induction l as [|y l IH]; intros l' i j Hij Hi Hj; [done|].
  simpl. case_decide as E.
  - intros [= <-]. destruct i as [|i], j as [|j]; [done| | |];
      simpl in *; by eapply list_elem_of_lookup_2.
  - destruct i as [|i]; [by injection Hi|]. destruct j as [|j];
      [by injection Hj|]. simpl in *.
    destruct (list_remove_first x l) as [l0|] eqn:Hrem; [|done].
    intros [= <-]. right. apply (IH l0 i j); [lia|done..].
Qed.

Lemma heads_not_below (qs : list (string * list string)) (k : string) :
  Forall (λ kq, ∃ d, head kq.2 = Some d ∧ ¬ str_lt d k) qs →
  Forall (opt_le (Some k)) (first_elts_of qs)
  ∧ drop_all_below (Some k) qs = qs.
Proof.
  unfold first_elts_of, drop_all_below.
  induction 1 as [|[qname q] qs (d & Hd & Hge) _ [IH1 IH2]]; [done|].
  simpl in *. rewrite Hd, IH2. destruct q as [|d' q]; [done|].
  injection Hd as ->. apply not_true_is_false in Hge.
  split; [by constructor|]. simpl. by rewrite Hge.
Qed.

(** X16. A key that is the smallest head and sits at the head of two
    queues, while a third queue has another head, is never passed over:
    [get_matching_first_entry] then answers no key, discards nothing and
    leaves every queue as it is, whatever the time and the grace period.
    The eviction loop pops only what is below the smallest of the other
    heads, and that is the shared key itself. *)
Theorem X16_shared_smallest_head_is_never_discarded (now : float)
    (s s' : Feeder) (r : outcome (option string)) (ws : list warning)
    (i j l : nat) (k k' : string) :
  i ≠ j →
  first_elts_of (qname_to_queue s) !! i = Some (Some k) →
  first_elts_of (qname_to_queue s) !! j = Some (Some k) →
  first_elts_of (qname_to_queue s) !! l = Some (Some k') →
  k' ≠ k →
  Forall (λ kq, ∃ d, head kq.2 = Some d ∧ ¬ str_lt d k) (qname_to_queue s) →
  get_matching_first_entry now s = (r, s', ws) →
  qname_to_queue s' = qname_to_queue s
  ∧ ws = []
  ∧ ∀ m, r ≠ Return (Some m).
Proof.
  intros Hij Hi Hj Hl Hne Hsmall.
  destruct (heads_not_below _ _ Hsmall) as [Hle Hkeep].
  assert (reduce py_min (first_elts_of (qname_to_queue s)) = Some (Some k))
    as Hmin.
  { apply min_is_smallest; [|done]. by eapply list_elem_of_lookup_2. }
  unfold get_matching_first_entry. unfold bind at 1, get at 1.
  unfold bind at 1.
  destruct (check_and_pop_mismatches _ now s) as [[r1 s1] w1] eqn:Hc.
  pose proof (check_and_pop_mismatches_spec _ _ _ _ _ _ Hc)
    as (_ & _ & _ & _ & Hmatched & _).
  assert (qname_to_queue s1 = qname_to_queue s ∧ w1 = []) as [Hqs ->].
  { apply check_and_pop_mismatches_evicts in Hc
      as [?|(k0 & t & nk & _ & _ & _ & _ & Hk0 & Hnk & Hq & Hlen & _)];
      [done|].
    rewrite Hmin in Hk0. injection Hk0 as <-.
    unfold next_key_of in Hnk. rewrite Hmin in Hnk. unfold next_elt_of in Hnk.
    destruct (list_remove_first _ _) as [rest|] eqn:Hrem; [|done].
    assert (reduce py_min rest = Some (Some k)) as Hrest.
    { apply min_is_smallest.
      - by apply (list_remove_first_twice _ _ _ i j) in Hrem.
      - apply list_remove_first_sub in Hrem. rewrite Forall_forall in Hle.
        apply Forall_forall. intros x Hx. by apply Hle, Hrem. }
    rewrite Hrest in Hnk. injection Hnk as <-.
    rewrite Hkeep in Hq. rewrite Hq in Hlen.
    split; [done|]. destruct w1; [done|]. simpl in Hlen. lia. }
  destruct r1 as [[m|]|e|].
  - destruct (Hmatched m eq_refl) as (Hall & _). rewrite Forall_forall in Hall.
    pose proof (Hall _ (list_elem_of_lookup_2 _ _ _ Hi)) as [= <-].
    by pose proof (Hall _ (list_elem_of_lookup_2 _ _ _ Hl)) as [= <-].
  - run_monad. by intros [= <- <- <-].
  - run_monad. by intros [= <- <- <-].
  - run_monad. by intros [= <- <- <-].
Qed.

(** *** A smallest head that no other queue has *)

Lemma pop_pass_logs (next_elt : option string)
    (qs qs' : list (string * list string)) (ws : list warning) (p : bool)
    (i : nat) (qname d : string) (q : list string) :
  qs !! i = Some (qname, d :: q) → opt_ltb (Some d) next_elt = true →
  pop_pass next_elt qs = (qs', ws, p) → WarnDiscard d qname ∈ ws.
Proof.
  intros Hi Hd. revert i qs' ws p Hi.
  induction qs as [|[qname0 q0] rest IH]; intros i qs' ws p Hi; [done|].
  cbn [pop_pass]. destruct (pop_pass next_elt rest) as [[rest' ws0] p0].
  destruct i as [|i]; simpl in Hi.
  - injection Hi as -> ->. rewrite Hd. intros [= <- <- <-]. left.
  - specialize (IH i _ _ _ Hi eq_refl). destruct q0 as [|d0 q0].
    + by intros [= <- <- <-].
    + destruct (opt_ltb (Some d0) next_elt); intros [= <- <- <-];
        [by right|done].
Qed.

Lemma pop_loop_logs (fuel : nat) (next_elt : option string)
    (qs qs' : list (string * list string)) (ws : list warning)
    (i : nat) (qname d : string) (q : list string) :
  qs !! i = Some (qname, d :: q) → opt_ltb (Some d) next_elt = true →
  pop_loop fuel next_elt qs = Some (qs', ws) → WarnDiscard d qname ∈ ws.
Proof.
  intros Hi Hd. destruct fuel as [|fuel]; simpl; [done|].
  destruct (pop_pass next_elt qs) as [[qs1 ws1] p] eqn:Hpass.
  pose proof (pop_pass_logs _ _ _ _ _ _ _ _ _ Hi Hd Hpass) as Hin.
  destruct p.
  - destruct (pop_loop fuel next_elt qs1) as [[qs2 ws2]|]; [|done].
    intros [= <- <-]. apply elem_of_app. by left.
  - by intros [= <- <-].
Qed.

Lemma list_remove_first_others {A} `{EqDecision A} (P : A → Prop) (x : A)
    (l l' : list A) (i : nat) :
  l !! i = Some x →
  (∀ j y, j ≠ i → l !! j = Some y → P y) →
  list_remove_first x l = Some l' → Forall P l'.
Proof.
  revert l' i. induction l as [|y l IH]; intros l' i Hi Hothers; [done|].
  simpl. case_decide as E.
  - intros [= <-]. apply Forall_lookup. intros j z Hz.
    destruct (decide (S j = i)) as [<-|Hne].
    + simpl in Hi. assert (z = x) as -> by congruence.
      subst y. by apply (Hothers 0 x).
    + by apply (Hothers (S j) z).
  - destruct i as [|i]; [by injection Hi|]. simpl in Hi.
    destruct (list_remove_first x l) as [l0|] eqn:Hrem; [|done].
    intros [= <-]. constructor.
    + by apply (Hothers 0 y).
    + apply (IH l0 i); [done| |done]. intros j z Hj Hz.
      apply (Hothers (S j) z); [lia|done].
Qed.

Lemma str_lt_not_back (a b : string) : str_lt a b → String.ltb b a = false.
Proof. intros [Hle _]%str_lt_le_ne. by apply ltb_false_le. Qed.

Lemma list_remove_first_keeps {A} `{EqDecision A} (x : A) (l l' : list A)
    (i : nat) :
  l !! i = Some x →
  (∀ j y, j ≠ i → l !! j = Some y → y ≠ x) →
  list_remove_first x l = Some l' →
  ∀ j y, j ≠ i → l !! j = Some y → y ∈ l'.
Proof.
  revert l' i. induction l as [|y0 l IH]; intros l' i Hi Hothers; [done|].
  simpl. case_decide as E.
  - intros [= <-] j y Hj Hy. destruct i as [|i].
    + destruct j as [|j]; [done|]. by eapply list_elem_of_lookup_2.
    + by destruct (Hothers 0 y0 ltac:(lia) eq_refl).
  - destruct i as [|i]; [by injection Hi|]. simpl in Hi.
    destruct (list_remove_first x l) as [l0|] eqn:Hrem; [|done].
    intros [= <-] j y Hj Hy. destruct j as [|j].
    + injection Hy as ->. left.
    + right. apply (IH l0 i Hi) with j; [|done|lia|done].
      intros j' y' Hj' Hy'. apply (Hothers (S j') y'); [lia|done].
Qed.

(** X17. A key that is tracked, is the head of one queue only and is below
    the head of every other queue is given up once the test
    [now - last_mismatch_time > mismatch_wait_time] succeeds, as the code
    computes it on floats: [get_matching_first_entry] then answers [None],
    clears the tracker, logs the discarding of that key and takes it off
    its queue. Every queue loses its leading keys below [next_key], one
    warning for each key lost, where [next_key] is the smallest of the
    other heads: it is the head of another queue, and no other queue has a
    head below it. *)
Theorem X17_lone_smallest_head_discarded_after_grace_period (now t : float)
    (s s' : Feeder) (r : outcome (option string)) (ws : list warning)
    (i : nat) (qname k : string) (q : list string) :
  last_mismatch s = Some k → k ≠ "" →
  last_mismatch_time s = Some t →
  PrimFloat.ltb (mismatch_wait_time s) (PrimFloat.sub now t) = true →
  qname_to_queue s !! i = Some (qname, k :: q) →
  1 < length (qname_to_queue s) →
  (∀ j kq, j ≠ i → qname_to_queue s !! j = Some kq →
           ∃ d, head kq.2 = Some d ∧ str_lt k d) →
  get_matching_first_entry now s = (r, s', ws) →
  r = Return None
  ∧ last_mismatch s' = None
  ∧ WarnDiscard k qname ∈ ws
  ∧ ∃ next_key,
      str_lt k next_key
      ∧ (∃ j kq, j ≠ i ∧ qname_to_queue s !! j = Some kq
                 ∧ head kq.2 = Some next_key)
      ∧ (∀ j kq d, j ≠ i → qname_to_queue s !! j = Some kq →
                   head kq.2 = Some d → ¬ str_lt d next_key)
      ∧ next_key_of (first_elts_of (qname_to_queue s)) = Some next_key
      ∧ qname_to_queue s'
        = drop_all_below (Some next_key) (qname_to_queue s)
      ∧ qname_to_queue s' !! i = Some (qname, drop_below (Some next_key) q)
      ∧ total_len (qname_to_queue s)
        = length ws + total_len (qname_to_queue s').
Proof.
  intros Hlm Hk Ht Hgrace Hi Hlen Hothers.
  set (fe := first_elts_of (qname_to_queue s)).
  set (P := λ elt : option string, ∃ d, elt = Some d ∧ str_lt k d).
  assert (∀ j, fe !! j = (λ kq : string * list string, head kq.2)
                           <$> qname_to_queue s !! j) as Hlook
    by (intros j; unfold fe, first_elts_of; apply list_lookup_fmap).
  assert (fe !! i = Some (Some k)) as Hfi by (by rewrite Hlook, Hi).
  assert (∀ j y, j ≠ i → fe !! j = Some y → P y) as Hfo.
  { intros j y Hj. rewrite Hlook.
    destruct (qname_to_queue s !! j) as [kq|] eqn:Hkq; [|done].
    intros [= <-]. by apply (Hothers j). }
  assert (reduce py_min fe = Some (Some k)) as Hmin.
  { apply min_is_smallest; [by eapply list_elem_of_lookup_2|].
    apply Forall_lookup. intros j y Hy.
    destruct (decide (j = i)) as [->|Hj].
    - assert (y = Some k) as -> by congruence. apply opt_le_refl.
    - destruct (Hfo j y Hj Hy) as (d & -> & Hd). unfold opt_le. simpl.
      by apply str_lt_not_back. }
  assert (¬ Forall (λ elt, elt = Some k) fe) as Hne.
  { intros Hall. rewrite Forall_lookup in Hall.
    assert (length fe = length (qname_to_queue s)) as Hlf
      by (unfold fe, first_elts_of; apply length_fmap).
    set (j := if decide (i = 0) then 1 else 0).
    assert (j ≠ i ∧ j < length fe) as [Hj Hjlt]
      by (unfold j; case_decide; lia).
    destruct (lookup_lt_is_Some_2 fe j Hjlt) as [y Hy].
    destruct (Hfo j y Hj Hy) as (d & -> & Hd).
    apply Hall in Hy as [= ->]. by apply str_lt_irrefl in Hd. }
  destruct (not_all_equal _ _ Hmin Hne) as (comp_elt & others & Hfe & Htest).
  destruct (next_elt_of_returns k comp_elt others) as [next_elt Hnext];
    [by rewrite <- Hfe|done|].
  rewrite <- Hfe in Hnext.
  assert (∃ next_key,
            next_elt = Some next_key ∧ str_lt k next_key
            ∧ (∃ j, j ≠ i ∧ fe !! j = Some (Some next_key))
            ∧ (∀ j d, j ≠ i → fe !! j = Some (Some d) →
                      ¬ str_lt d next_key))
    as (next_key & -> & Hnk & Hmem & Hleast).
  { revert Hnext. unfold next_elt_of.
    destruct (list_remove_first (Some k) fe) as [rest|] eqn:Hrem; [|done].
    destruct (reduce py_min rest) as [m|] eqn:Hm; [|done].
    intros [= <-]. pose proof (reduce_min_le _ _ Hm) as Hle.
    apply reduce_min_elem_of in Hm.
    pose proof (list_remove_first_others P _ _ _ _ Hfi Hfo Hrem) as Hrest.
    assert (∀ j y, j ≠ i → fe !! j = Some y →
                   ∃ j, j ≠ i ∧ fe !! j = Some y) as Hself
      by (intros j y ??; by exists j).
    pose proof (list_remove_first_others
                  (λ y, ∃ j, j ≠ i ∧ fe !! j = Some y) _ _ _ _ Hfi
                  Hself Hrem) as Hfrom.
    rewrite Forall_forall in Hrest, Hfrom, Hle.
    destruct (Hrest _ Hm) as (d & -> & Hd).
    exists d. split_and!; [done|done|by apply Hfrom|].
    intros j d' Hj Hd' Hlt.
    assert (Some d' ∈ rest) as Hin.
    { apply (list_remove_first_keeps _ _ _ _ Hfi) with j; [|done..].
      intros j' y Hj' Hy ->. destruct (Hfo j' _ Hj' Hy) as (? & [= <-] & Hkk).
      by apply str_lt_irrefl in Hkk. }
    specialize (Hle _ Hin). unfold opt_le in Hle. simpl in Hle.
    unfold str_lt in Hlt. congruence. }
  destruct (pop_loop_fuel (S (total_len (qname_to_queue s))) (Some next_key)
              (qname_to_queue s)) as [[qs ws0] Hloop]; [lia|].
  pose proof (pop_loop_logs _ (Some next_key) _ _ _ _ _ _ _ Hi Hnk Hloop)
    as Hlog.
  pose proof (pop_loop_drop _ _ _ _ _ Hloop) as [-> Hsum].
  assert (next_key_of fe = Some next_key) as Hkey
    by (unfold next_key_of; by rewrite Hmin, Hnext).
  unfold get_matching_first_entry. unfold bind at 1, get at 1.
  unfold bind at 1. fold fe. unfold check_and_pop_mismatches.
  rewrite Hfe, Htest. rewrite <- Hfe, Hmin. unfold bind at 1, get at 1.
  rewrite Hlm, (truthy_Some k Hk), bool_decide_false, Ht; [|by intros []].
  rewrite Hgrace, Hnext, Hloop. run_monad. intros [= <- <- <-].
  simpl. rewrite !app_nil_r. split_and!; try done.
  exists next_key. split_and!; try done.
  - destruct Hmem as (j & Hj & Hjk). rewrite Hlook in Hjk.
    destruct (qname_to_queue s !! j) as [kq|] eqn:Hkq; [|done].
    injection Hjk as Hjk. by exists j, kq.
  - intros j kq d Hj Hkq Hd. apply (Hleast j d Hj).
    by rewrite Hlook, Hkq, <- Hd.
  - unfold drop_all_below. rewrite list_lookup_fmap, Hi. simpl.
    unfold str_lt in Hnk. by rewrite Hnk.
Qed.

(** ** A stream that has delivered nothing *)

Lemma alist_alter_other {V} (f : V → V) (k k' : string) (v : V)
    (l : list (string * V)) :
  k' ≠ k → (k', v) ∈ l → (k', v) ∈ alist_alter f k l.
Proof.
  intros Hne. induction l as [|[k0 v0] l IH]; simpl; [done|].
  intros [[= <- <-]|Hin]%elem_of_cons.
  - rewrite decide_False; [left|done].
  - case_decide; right; auto.
Qed.

Lemma insert_filenames_untouched (filenames : list string) (qname : string) :
  ∀ (s s' : Feeder) (r : outcome unit) (ws : list warning),
    (qname, []) ∈ qname_to_queue s →
    (∀ f, f ∈ filenames → fname_to_qname_fcn s f ≠ Some qname) →
    insert_filenames filenames s = (r, s', ws) →
    (qname, []) ∈ qname_to_queue s'.
Proof.
  unfold insert_filenames.
  induction filenames as [|f fs IH]; intros s s' r ws Hin Hfs; simpl.
  - by intros [= <- <- <-].
  - unfold bind at 1.
    destruct (insert_filename f s) as [[r1 s1] w1] eqn:Hf.
    pose proof (insert_filename_extractors _ _ _ _ _ Hf) as [Eq _].
    assert ((qname, []) ∈ qname_to_queue s1) as Hin1.
    { revert Hf. unfold insert_filename. run_monad.
      destruct (fname_to_qname_fcn s f) as [qn|] eqn:Hq;
        [|by intros [= <- <- <-]].
      destruct (fname_to_timepoint_fcn s f) as [tpname|];
        [|by intros [= <- <- <-]].
      destruct (alist_lookup qn (qname_to_queue s));
        intros [= <- <- <-]; [|done].
      simpl. apply alist_alter_other; [|done].
      intros ->. apply (Hfs f); [left|done]. }
    destruct r1 as [[]|e|]; [|by intros [= <- <- <-]..].
    destruct (for_each fs insert_filename s1) as [[r2 s2] w2] eqn:Hrest.
    intros [= <- <- <-]. apply (IH s1 s2 r2 w2 Hin1); [|done].
    intros g Hg. rewrite Eq. apply Hfs. by right.
Qed.

Lemma iproduct_nil (keys : list string) : iproduct keys [] = [].
Proof. unfold iproduct. by induction keys. Qed.

(** X18. As long as a configured stream has nothing queued and the batch
    brings no file for it, [match_filenames] releases nothing: the call
    returns the empty list, with no key tracked as mismatching, whatever
    the other streams hold and however long they have waited; the one
    other ending is the [KeyError] of a filename whose stream is not
    configured. An empty batch on a freshly built object is the simplest
    case. *)
Theorem X18_nothing_released_while_a_stream_is_empty
    (getsize py_int : string → option Z) (filenames : list string) (now : float)
    (s s' : Feeder) (r : outcome (list string)) (ws : list warning)
    (qname : string) :
  (qname, []) ∈ qname_to_queue s →
  (∀ f, f ∈ filenames → fname_to_qname_fcn s f ≠ Some qname) →
  match_filenames getsize py_int filenames now s = (r, s', ws) →
  r = Return [] ∧ last_mismatch s' = None
  ∨ ∃ q, r = Raise (KeyError_queue q) ∧ q ∉ qnames_of s.
Proof.
  intros Hin Hfs. unfold match_filenames. unfold bind at 1.
  destruct (insert_filenames filenames s) as [[r1 s1] w1] eqn:Hins.
  pose proof (insert_filenames_untouched _ _ _ _ _ _ Hin Hfs Hins) as Hin1.
  pose proof (insert_filenames_spec filenames (λ _, True)) as Hspec.
  destruct (Hspec (λ _ _ _ _ _ _ _, I) s r1 s1 w1 I Hins) as [_ Hallowed].
  apply insert_filenames_frame in Hins as [_ Hexn].
  destruct r1 as [[]|e|]; [| |done].
  2:{ intros [= <- <- <-]. right. destruct (Hexn e eq_refl) as (q & -> & Hq).
      by exists q. }
  assert (maintain_sorting s1
          = (Return (),
             set_qname_to_queue
               (map (λ kq, (kq.1, maintain_queue kq.2)) (qname_to_queue s1))
               s1, [])) as Hm by reflexivity.
  unfold bind at 1. rewrite Hm.
  set (s2 := set_qname_to_queue _ s1).
  assert (get_matching_first_entry now s2
          = (Return None, set_mismatch None None s2, [])) as Hg.
  { apply get_matching_first_entry_waits. apply Exists_exists.
    exists (qname, []). split; [|done]. unfold s2. simpl.
    apply list_elem_of_fmap. by exists (qname, []). }
  unfold bind at 1. unfold collect_matches. unfold bind at 1, get at 1.
  unfold bind at 1. rewrite Hg. unfold bind at 1, get at 1.
  cbn [matching_loop truthy]. unfold pop_fullnames. run_monad.
  rewrite iproduct_nil. cbn [fold_each ret].
  change (sorted []) with (@nil string).
  destruct (qname_to_expected_size _) as [table|] eqn:Ht.
  - unfold filter_size_mismatch_files. cbn [fold_each]. run_monad.
    intros [= <- <- <-]. by left.
  - intros [= <- <- <-]. by left.
Qed.

(** ** What the size filter keeps *)

Section SizeFilterKeeps.
Variable getsize : string → option Z.

Lemma fold_check_size_only (fs : list string) :
  ∀ (acc filtered : list (option string)) (s s' : Feeder)
    (table : gmap (option string) Z) (ws : list warning),
    qname_to_expected_size s = Some table →
    fold_each fs acc (check_size getsize) s = (Return filtered, s', ws) →
    (∀ tp, tp ∈ filtered →
       tp ∈ acc
       ∨ ∃ f size,
           f ∈ fs ∧ getsize f = Some size
           ∧ first_observed_size getsize (fname_to_qname_fcn s) table fs
               (fname_to_qname_fcn s (basename f)) ≠ Some size
           ∧ fname_to_timepoint_fcn s (basename f) = tp)
    ∧ length filtered = length acc + length ws.
Proof.
  induction fs as [|f fs IH]; intros acc filtered s s' table ws Ht; simpl.
  - intros [= <- <- <-]. split; [by left|simpl; lia].
  - unfold bind at 1. unfold check_size at 1. run_monad. rewrite Ht.
    destruct (getsize f) as [size|] eqn:Hsize; [|done].
    set (q := fname_to_qname_fcn s (basename f)).
    set (table1 := match table !! q with
                   | Some _ => table
                   | None => <[q:=size]> table
                   end).
    set (s1 := set_qname_to_expected_size (Some table1) s).
    assert (∀ g, first_observed_size getsize (fname_to_qname_fcn s) table
                   (f :: fs) g
                 = first_observed_size getsize (fname_to_qname_fcn s) table1
                     fs g) as Hcons
      by (intros g; by apply first_observed_size_cons).
    destruct (bool_decide (size ≠ default size (table !! q))) eqn:Hb.
    + destruct (fold_each fs _ (check_size getsize) _)
        as [[r2 s2] w2] eqn:Hrest.
      intros [= -> <- <-].
      apply (IH _ _ _ _ table1) in Hrest as [Honly Hlen]; [|done]. split.
      * intros tp Htp.
        destruct (Honly tp Htp) as [Hacc|(f0 & size0 & Hin & Hs0 & Hne & Htp0)].
        -- apply elem_of_app in Hacc as [?|Hs%list_elem_of_singleton];
             [by left|]. subst tp.
           right. exists f, size. split_and!; [left|done| |done].
           apply bool_decide_eq_true in Hb.
           unfold first_observed_size. fold q.
           destruct (table !! q) as [e|]; simpl in Hb; [congruence|done].
        -- right. exists f0, size0. split_and!; [by right|done| |done].
           by rewrite Hcons.
      * rewrite Hlen, length_app. simpl. lia.
    + destruct (fold_each fs _ (check_size getsize) _)
        as [[r2 s2] w2] eqn:Hrest.
      intros [= -> <- <-].
      apply (IH _ _ _ _ table1) in Hrest as [Honly Hlen]; [|done]. split.
      * intros tp Htp.
        destruct (Honly tp Htp) as [?|(f0 & size0 & Hin & Hs0 & Hne & Htp0)];
          [by left|].
        right. exists f0, size0. split_and!; [by right|done| |done].
        by rewrite Hcons.
      * by rewrite Hlen.
Qed.

(** X19. With the size filter on, [filter_size_mismatch_files] keeps the
    order of its batch and drops exactly the files that share their
    timepoint key with a file of the batch whose size is not the first
    size observed for its stream. When no file of the batch is in that
    case the batch comes back as it is and nothing is logged. *)
Theorem X19_size_filter_drops_exactly_the_mismatching_keys
    (filenames result : list string) (s s' : Feeder)
    (table : gmap (option string) Z) (ws : list warning) :
  qname_to_expected_size s = Some table →
  filter_size_mismatch_files getsize filenames s = (Return result, s', ws) →
  result `sublist_of` filenames
  ∧ (∀ g, g ∈ result ↔
          g ∈ filenames
          ∧ ∀ f size,
              f ∈ filenames → getsize f = Some size →
              fname_to_timepoint_fcn s (basename f)
              = fname_to_timepoint_fcn s (basename g) →
              first_observed_size getsize (fname_to_qname_fcn s) table
                filenames (fname_to_qname_fcn s (basename f)) = Some size)
  ∧ ((∀ f size,
        f ∈ filenames → getsize f = Some size →
        first_observed_size getsize (fname_to_qname_fcn s) table
          filenames (fname_to_qname_fcn s (basename f)) = Some size) →
     result = filenames ∧ ws = []).
Proof.
  intros Ht. unfold filter_size_mismatch_files. unfold bind at 1.
  destruct (fold_each filenames [] (check_size getsize) s)
    as [[r1 s1] w1] eqn:Hfold.
  destruct r1 as [filtered|e|]; [|done..].
  pose proof (fold_check_size_only _ _ _ _ _ _ _ Ht Hfold) as [Honly Hlen].
  apply (fold_check_size_spec _ _ _ _ _ _ table) in Hfold
    as ((table' & -> & _) & _ & Hmis); [|done].
  run_monad. destruct filtered as [|tp0 filtered].
  - intros [= <- <- <-]. split_and!; [done| |].
    + intros g. split; [|by intros [? _]]. intros Hg. split; [done|].
      intros f size Hf Hsize _.
      destruct (decide (first_observed_size getsize (fname_to_qname_fcn s)
                          table filenames
                          (fname_to_qname_fcn s (basename f)) = Some size))
        as [|Hne]; [done|].
      by apply (Hmis f size Hf Hsize), elem_of_nil in Hne.
    + intros _. split; [done|]. rewrite app_nil_r.
      destruct w1; [done|]. simpl in Hlen. lia.
  - intros [= <- <- <-]. simpl. split_and!; [apply sublist_filter| |].
    + intros g. rewrite list_elem_of_filter. split.
      * intros [Hnot Hg]. split; [done|]. intros f size Hf Hsize Htp.
        destruct (decide (first_observed_size getsize (fname_to_qname_fcn s)
                            table filenames
                            (fname_to_qname_fcn s (basename f)) = Some size))
          as [|Hne]; [done|].
        exfalso. apply Hnot. rewrite <- Htp. by apply (Hmis f size).
      * intros [Hg Hall]. split; [|done]. intros Hin.
        destruct (Honly _ Hin)
          as [?%elem_of_nil|(f & size & Hf & Hsize & Hne & Htp)]; [done|].
        by apply Hne, Hall.
    + intros Hall. exfalso.
      destruct (Honly tp0) as [?%elem_of_nil|(f & size & Hf & Hsize & Hne & _)];
        [left|done|]. by apply Hne, Hall.
Qed.
End SizeFilterKeeps.

(** ** The sequence check on keys that are numbers *)

(** X20. For a matched key that [int] accepts, the sequence check returns
    normally; it writes the cursor and nothing else, and logs one warning
    exactly when a cursor was set and the key is not its successor. The
    matching does not read the cursor. In scenario D, with the matched
    keys 01 and then 05, the gap is logged and the filenames of both keys
    are returned. *)
Theorem X20_sequence_gap_only_warns (py_int : string → option Z) (k : string)
    (n : Z) (s : Feeder) :
  py_int k = Some n →
  check_sequence py_int k s
  = (Return (), set_last_timepoint (Some n) s,
     match last_timepoint s with
     | Some last =>
         if bool_decide (n ≠ (last + 1)%Z)
         then [WarnMissingTimepoints last n] else []
     | None => []
     end)
  ∧ (∀ now tp,
       get_matching_first_entry now (set_last_timepoint tp s)
       = let '(r, s', ws) := get_matching_first_entry now s in
         (r, set_last_timepoint tp s', ws))
  ∧ (∀ now,
       (run_match scenarioD_batch now img_behav).1.1
       = Return ["behav_01"; "behav_05"; "img_01"; "img_05"]
       ∧ (run_match scenarioD_batch now img_behav).2
         = [WarnMissingTimepoints 1 5]).
Proof.
  intros Hk. split_and!.
  - unfold check_sequence. run_monad. rewrite Hk.
    destruct (last_timepoint s) as [last|]; [|done].
    by case_bool_decide.
  - intros now tp. apply get_matching_first_entry_cursor.
  - intros now. split; vm_compute; reflexivity.
Qed.

(** * The further properties at work *)

Lemma X3_witness : maintain_queue ["02"; "01"; "02"] = ["01"; "02"].
Proof.
  refine (proj2 (proj2 (proj2 (proj2
            (X3_maintain_queue_canonical ["02"; "01"; "02"] ["01"; "02"] _))))
            _).
  - intros x. rewrite !elem_of_cons, elem_of_nil. tauto.
  - vm_compute. reflexivity.
Defined.

Lemma X5_witness :
  getFilenamePrefixAndPostfix "/data/in/img_01.bin" "_"%char
  = getFilenamePrefixAndPostfix "img_01" "_"%char.
Proof.
  apply (X5_directory_and_extension_ignored "/data/in" "img_01" "bin"
           "_"%char).
  - discriminate.
  - reflexivity.
  - reflexivity.
  - reflexivity.
  - reflexivity.
Defined.

Lemma X7_witness : "other" ∉ qnames_of img_behav.
Proof.
  apply (X7_exceptions_of_match_filenames (getsize_const 100) int_of_digits
           ["other_01"] 0 img_behav
           (run_match ["other_01"] 0 img_behav).1.2
           (KeyError_queue "other")
           (run_match ["other_01"] 0 img_behav).2).
  - apply reachable_init.
  - vm_compute. reflexivity.
Defined.

Lemma X8_witness :
  ∃ ms,
    StronglySorted str_lt ms
    ∧ length ["behav_01"; "behav_02"; "behav_03"; "img_01"; "img_02"; "img_03"]
      = length (qnames_of img_behav) * length ms.
Proof.
  destruct (X8_complete_sets_released (getsize_const 100) int_of_digits
              scenarioA_batch
              ["behav_01"; "behav_02"; "behav_03"; "img_01"; "img_02"; "img_03"]
              0 img_behav (run_match scenarioA_batch 0 img_behav).1.2
              (run_match scenarioA_batch 0 img_behav).2)
    as (ms & Hsorted & Hlen & _).
  - apply reachable_init.
  - reflexivity.
  - vm_compute. reflexivity.
  - exists ms. split; assumption.
Defined.

Lemma X9_witness :
  StronglySorted String.le
    ["behav_01"; "behav_02"; "behav_03"; "img_01"; "img_02"; "img_03"].
Proof.
  refine (proj1 (X9_returned_sorted_and_known (getsize_const 100)
                   int_of_digits scenarioA_batch _ 0 img_behav
                   (run_match scenarioA_batch 0 img_behav).1.2
                   (run_match scenarioA_batch 0 img_behav).2 _ _)).
  - apply reachable_init.
  - vm_compute. reflexivity.
Defined.

Lemma X10_witness :
  NoDup (qnames_of img_behav) ∧ qnames_of scenarioB_1 = qnames_of img_behav.
Proof.
  apply (X10_streams_fixed (getsize_const 100) int_of_digits
           scenarioB_batch 0 img_behav scenarioB_1
           (run_match scenarioB_batch 0 img_behav).1.1
           (run_match scenarioB_batch 0 img_behav).2).
  - apply reachable_init.
  - vm_compute. reflexivity.
Defined.

Lemma X11_witness :
  is_Some (last_mismatch_time scenarioB_1)
  ∧ Forall (λ kq, kq.2 ≠ []) (qname_to_queue scenarioB_1).
Proof.
  apply (X11_tracker_invariant (getsize_const 100) int_of_digits
           scenarioB_1 "02").
  - apply scenarioB_1_reachable.
  - vm_compute. reflexivity.
Defined.

Lemma X12_witness :
  fname_to_qname_fcn scenarioB_1 "img_02" = Some "img"
  ∧ fname_to_timepoint_fcn scenarioB_1 "img_02" = Some "02".
Proof.
  apply (X12_index_sound (getsize_const 100) int_of_digits scenarioB_1).
  - apply scenarioB_1_reachable.
  - vm_compute. reflexivity.
Defined.

Lemma X13_witness :
  get_matching_first_entry 0 img_behav
  = (Return None, set_mismatch None None img_behav, []).
Proof.
  apply X13_empty_queue_is_no_mismatch. vm_compute. left. reflexivity.
Defined.

Lemma X15_witness :
  qname_to_queue scenarioB_2 = qname_to_queue scenarioB_1
  ∧ [WarnDiscard "02" "img"] = []
  ∨ ∃ k t next_key,
      last_mismatch scenarioB_1 = Some k ∧ k ≠ ""
      ∧ last_mismatch_time scenarioB_1 = Some t
      ∧ PrimFloat.ltb (mismatch_wait_time scenarioB_1) (PrimFloat.sub 6 t)
        = true
      ∧ reduce py_min [Some "02"; Some "03"] = Some (Some k)
      ∧ next_key_of [Some "02"; Some "03"] = Some next_key
      ∧ qname_to_queue scenarioB_2
        = drop_all_below (Some next_key) (qname_to_queue scenarioB_1)
      ∧ total_len (qname_to_queue scenarioB_1)
        = length [WarnDiscard "02" "img"]
          + total_len (qname_to_queue scenarioB_2)
      ∧ Return (@None string) = Return None
      ∧ last_mismatch scenarioB_2 = None.
Proof.
  apply (X15_eviction_only_after_grace_period [Some "02"; Some "03"] 6
           scenarioB_1 scenarioB_2 (Return None) [WarnDiscard "02" "img"]).
  vm_compute. reflexivity.
Defined.

Lemma X16_witness :
  qname_to_queue (get_matching_first_entry 1000 shared_head).1.2
  = qname_to_queue shared_head
  ∧ (get_matching_first_entry 1000 shared_head).2 = []
  ∧ ∀ m, (get_matching_first_entry 1000 shared_head).1.1 ≠ Return (Some m).
Proof.
  apply (X16_shared_smallest_head_is_never_discarded 1000 shared_head
           (get_matching_first_entry 1000 shared_head).1.2
           (get_matching_first_entry 1000 shared_head).1.1
           (get_matching_first_entry 1000 shared_head).2
           0 1 2 "01" "02").
  - lia.
  - vm_compute. reflexivity.
  - vm_compute. reflexivity.
  - vm_compute. reflexivity.
  - discriminate.
  - vm_compute.
    repeat (constructor; [eexists; split; [reflexivity|discriminate]|]).
    constructor.
  - vm_compute. reflexivity.
Defined.

Lemma X17_witness :
  (get_matching_first_entry 6 scenarioB_1).1.1 = Return None
  ∧ last_mismatch (get_matching_first_entry 6 scenarioB_1).1.2 = None
  ∧ WarnDiscard "02" "img" ∈ (get_matching_first_entry 6 scenarioB_1).2.
Proof.
  destruct (X17_lone_smallest_head_discarded_after_grace_period 6 0
              scenarioB_1
              (get_matching_first_entry 6 scenarioB_1).1.2
              (get_matching_first_entry 6 scenarioB_1).1.1
              (get_matching_first_entry 6 scenarioB_1).2
              0 "img" "02" ["03"])
    as (Hr & Hlm & Hlog & _).
  - vm_compute. reflexivity.
  - discriminate.
  - vm_compute. reflexivity.
  - vm_compute. reflexivity.
  - vm_compute. reflexivity.
  - vm_compute. lia.
  - intros [|[|j]] kq Hj Hkq; [done| |discriminate Hkq].
    injection Hkq as <-. exists "03". split; vm_compute; reflexivity.
  - vm_compute. reflexivity.
  - split; [exact Hr|]. split; [exact Hlm|exact Hlog].
Defined.

Lemma X18_witness :
  (run_match ["img_01"] 0 img_behav).1.1 = Return []
  ∧ last_mismatch (run_match ["img_01"] 0 img_behav).1.2 = None
  ∨ ∃ q, (run_match ["img_01"] 0 img_behav).1.1 = Raise (KeyError_queue q)
         ∧ q ∉ qnames_of img_behav.
Proof.
  apply (X18_nothing_released_while_a_stream_is_empty (getsize_const 100)
           int_of_digits ["img_01"] 0 img_behav
           (run_match ["img_01"] 0 img_behav).1.2
           (run_match ["img_01"] 0 img_behav).1.1
           (run_match ["img_01"] 0 img_behav).2 "behav").
  - vm_compute. right. left.
  - intros f [->|Hf]%elem_of_cons; [vm_compute; discriminate|].
    by apply elem_of_nil in Hf.
  - vm_compute. reflexivity.
Defined.

Lemma X19_witness :
  ["behav_01"; "img_01"]
    `sublist_of` ["behav_01"; "behav_02"; "img_01"; "img_02"].
Proof.
  refine (proj1 (X19_size_filter_drops_exactly_the_mismatching_keys
                   getsize_short
                   ["behav_01"; "behav_02"; "img_01"; "img_02"]
                   ["behav_01"; "img_01"] img_behav_sized
                   (filter_size_mismatch_files getsize_short
                      ["behav_01"; "behav_02"; "img_01"; "img_02"]
                      img_behav_sized).1.2
                   ∅
                   [WarnSizeMismatch "behav_02" (Some "02") 100 80] _ _)).
  - vm_compute. reflexivity.
  - vm_compute. reflexivity.
Defined.

Lemma X20_witness :
  check_sequence int_of_digits "05" (set_last_timepoint (Some 1%Z) img_behav)
  = (Return (), set_last_timepoint (Some 5%Z) img_behav,
     [WarnMissingTimepoints 1 5]).
Proof.
  refine (proj1 (X20_sequence_gap_only_warns int_of_digits "05" 5
                   (set_last_timepoint (Some 1%Z) img_behav) _)).
  vm_compute. reflexivity.
Defined.
